(** * HRD 2.0: stats ingestion pipeline

    A shallow embedding of the ingestion code of the home-run pool
    (scraper service, Supabase service layer, season import script) and
    of the scoring rules of the specification, with the properties the
    specification states about them.

    Conventions.
    - A JavaScript string is the list of its UTF-16 code units
      ([list N]); [js "..."] writes an ASCII literal.
    - A JavaScript number that holds an integer is a [Z]; [NaN] is
      [None] where [parseInt] can produce it.  Doubles are exact below
      2^53, far above any home-run count.
    - [await]ed storage calls run in the [Async] monad: a state monad
      over the [World] whose results are either a value or a thrown
      value. *)

From Stdlib Require Import ZArith NArith Lia Ascii String DecimalString.
From stdpp Require Import base option list sorting gmap.

#[local] Open Scope Z_scope.

(* ===================================================================== *)
(** ** JavaScript strings *)
(* ===================================================================== *)

Module JS.

Abbreviation jsstring := (list N).

Definition js (s : string) : jsstring :=
  N_of_ascii <$> list_ascii_of_string s.

Arguments js : simpl never.

(** Code units used below. *)
Definition LF : N := 10.
Definition SPACE : N := 32.
Definition QUOTE : N := 34.
Definition COMMA : N := 44.
Definition HYPHEN : N := 45.

(** WhiteSpace and LineTerminator of ECMAScript: what [trim] strips
    and what [\s] matches. *)
Definition isWhiteSpace (c : N) : bool :=
  (((9 <=? c) && (c <=? 13)) || (c =? 32) || (c =? 160) || (c =? 5760)
   || ((8192 <=? c) && (c <=? 8202)) || (c =? 8232) || (c =? 8233)
   || (c =? 8239) || (c =? 8287) || (c =? 12288) || (c =? 65279))%N.

(** [\d] *)
Definition isDigit (c : N) : bool := ((48 <=? c) && (c <=? 57))%N.

Fixpoint takeWhile (f : N -> bool) (s : jsstring) : jsstring :=
  match s with
  | c :: s' => if f c then c :: takeWhile f s' else []
  | [] => []
  end.

Fixpoint dropWhile (f : N -> bool) (s : jsstring) : jsstring :=
  match s with
  | c :: s' => if f c then dropWhile f s' else s
  | [] => []
  end.

(** [String.prototype.trimStart] and [String.prototype.trim] *)
Definition trimStart (s : jsstring) : jsstring := dropWhile isWhiteSpace s.

Definition trim (s : jsstring) : jsstring :=
  rev (dropWhile isWhiteSpace (rev (trimStart s))).

(** [s.split(sep)] for a one-unit separator: the result is never empty,
    the empty string gives one empty piece. *)
Fixpoint split (sep : N) (s : jsstring) : list jsstring :=
  match s with
  | [] => [[]]
  | c :: s' =>
      if (c =? sep)%N then [] :: split sep s'
      else match split sep s' with
           | cur :: rest => (c :: cur) :: rest
           | [] => [[c]]
           end
  end.

(** A string is truthy when it is not empty. *)
Definition truthy (s : jsstring) : bool :=
  match s with [] => false | _ :: _ => true end.

(** The value of a digit in a radix, as [parseInt] reads it. *)
Definition digitValue (radix : Z) (c : N) : option Z :=
  let v :=
    if ((48 <=? c) && (c <=? 57))%N then Some (Z.of_N c - 48)
    else if ((97 <=? c) && (c <=? 122))%N then Some (Z.of_N c - 97 + 10)
    else if ((65 <=? c) && (c <=? 90))%N then Some (Z.of_N c - 65 + 10)
    else None in
  match v with
  | Some d => if d <? radix then Some d else None
  | None => None
  end.

(** The longest prefix of digits, folded into its value; [None] when the
    prefix is empty. *)
Fixpoint parseDigits (radix : Z) (acc : option Z) (s : jsstring) : option Z :=
  match s with
  | c :: s' =>
      match digitValue radix c with
      | Some d => parseDigits radix (Some (radix * default 0 acc + d)) s'
      | None => acc
      end
  | [] => acc
  end.

(** [parseInt(s)] with no radix argument: leading white space and a sign
    are skipped, a [0x]/[0X] prefix selects radix 16, and [None] is
    [NaN]. *)
Definition parseInt (s : jsstring) : option Z :=
  let s1 := trimStart s in
  let '(sign, s2) :=
    match s1 with
    | 45%N :: r => (-1, r)
    | 43%N :: r => (1, r)
    | _ => (1, s1)
    end in
  let '(radix, s3) :=
    match s2 with
    | 48%N :: 120%N :: r => (16, r)
    | 48%N :: 88%N :: r => (16, r)
    | _ => (10, s2)
    end in
  match parseDigits radix None s3 with
  | Some v => Some (sign * v)
  | None => None
  end.

(** [s.replace(/\s+/g, '-')]: [inRun] tells that the previous unit was white
    space, already replaced. *)
Fixpoint hyphenate (inRun : bool) (s : jsstring) : jsstring :=
  match s with
  | [] => []
  | c :: s' =>
      if isWhiteSpace c
      then (if inRun then hyphenate true s' else HYPHEN :: hyphenate true s')
      else c :: hyphenate false s'
  end.

(** The units [s.replace(/[^a-z0-9-]/g, '')] keeps. *)
Definition slugUnit (c : N) : bool :=
  (((97 <=? c) && (c <=? 122)) || isDigit c || (c =? HYPHEN))%N.

(** The decimal digits of an index, as a template literal prints it. *)
Definition decimal (n : nat) : jsstring :=
  js (NilZero.string_of_uint (Nat.to_uint n)).

(** An integer number, as a template literal prints it. *)
Definition numberToString (z : Z) : jsstring :=
  js (NilZero.string_of_int (Z.to_int z)).

(** [s.replace(/--+/g, '-')] *)
Fixpoint squeezeHyphens (inRun : bool) (s : jsstring) : jsstring :=
  match s with
  | [] => []
  | c :: s' =>
      if (c =? HYPHEN)%N
      then (if inRun then squeezeHyphens true s'
            else HYPHEN :: squeezeHyphens true s')
      else c :: squeezeHyphens false s'
  end.

End JS.
Import JS.

(* ===================================================================== *)
(** ** The scraper service: source fetcher *)
(* ===================================================================== *)

(** [interface PlayerData] *)
Record PlayerData := mkPlayerData {
  name : jsstring;
  mlbId : jsstring;
  teamAbbr : jsstring;
  homeRuns : Z;
  photoUrl : option jsstring;
}.

#[global] Instance PlayerData_eq_dec : EqDecision PlayerData.
Proof. solve_decision. Defined.

Module Csv.

(** The four capture groups of the line pattern
    [/Q([^Q]+)Q,(\d+),(\d+),(\d+)/], where Q stands for the double
    quote (code unit 34). *)
Record Groups := mkGroups {
  fullName : jsstring;
  playerId : jsstring;
  year : jsstring;
  homeRunsStr : jsstring;
}.

Definition notQuote (c : N) : bool := negb (c =? QUOTE)%N.

(** [(\d+)] followed by what [k] matches: the greedy run of digits is
    the only candidate, since every continuation starts with a
    non-digit or ends the pattern. *)
Definition digits1 {A} (s : jsstring) (k : jsstring -> jsstring -> option A)
  : option A :=
  match takeWhile isDigit s with
  | [] => None
  | d => k d (dropWhile isDigit s)
  end.

Definition comma {A} (s : jsstring) (k : jsstring -> option A) : option A :=
  match s with
  | c :: r => if (c =? COMMA)%N then k r else None
  | [] => None
  end.

(** The pattern anchored at the head of [s]. *)
Definition matchHere (s : jsstring) : option Groups :=
  match s with
  | c :: s1 =>
      if (c =? QUOTE)%N then
        match takeWhile notQuote s1, dropWhile notQuote s1 with
        | [], _ => None
        | n, q :: r1 =>
            (* [dropWhile] stops at a quote or at the end *)
            comma r1 (fun r2 =>
            digits1 r2 (fun pid r3 =>
            comma r3 (fun r4 =>
            digits1 r4 (fun yr r5 =>
            comma r5 (fun r6 =>
            digits1 r6 (fun hr _ =>
            Some (mkGroups n pid yr hr)))))))
        | _, [] => None
        end
      else None
  | [] => None
  end.

(** [line.match(re)]: the leftmost position where the pattern matches. *)
Fixpoint regexMatch (line : jsstring) : option Groups :=
  match matchHere line with
  | Some g => Some g
  | None =>
      match line with
      | _ :: rest => regexMatch rest
      | [] => None
      end
  end.

(** One pass of the loop body: the record a line contributes, if any. *)
Definition parseLine (line : jsstring) : option PlayerData :=
  match regexMatch line with
  | Some g =>
      match parseInt (homeRunsStr g) with
      | Some hr =>
          let nameParts := trim <$> split COMMA (fullName g) in
          let playerName :=
            match nameParts with
            | last :: first :: _ => first ++ [SPACE] ++ last
            | _ => fullName g
            end in
          let id := js "mlb-" ++ playerId g in
          let team := js "UNK" in
          if 10 <=? hr then Some (mkPlayerData playerName id team hr None)
          else None
      | None => None
      end
  | None => None
  end.

(** [response.data.split('\n').filter(line => line.trim())] *)
Definition csvLines (data : jsstring) : list jsstring :=
  filter (fun line => Is_true (truthy (trim line))) (split LF data).

(** The loop [for (let i = 1; i < csvLines.length; i++)]: the header row
    is skipped, every other line is offered to [parseLine]. *)
Definition parseCsv (data : jsstring) : list PlayerData :=
  omap parseLine (drop 1 (csvLines data)).

End Csv.

(** A data line of the export: the quoted name, then three numbers. *)
Definition csvRow (quotedName rest : string) : jsstring :=
  [QUOTE] ++ js quotedName ++ [QUOTE] ++ js rest.

(* ===================================================================== *)
(** ** Awaited computations *)
(* ===================================================================== *)

(** What a [catch (error)] clause receives: an [Error] object with its
    message, or any other thrown value. *)
Inductive Thrown :=
  | ErrorObj (message : jsstring)
  | NonError.

Inductive Outcome (A : Type) :=
  | Returned (a : A)
  | Threw (e : Thrown).
Arguments Returned {A} a.
Arguments Threw {A} e.

Section Async.
Context {W : Type}.

Definition Async (A : Type) : Type := W -> Outcome A * W.

Definition ret {A} (a : A) : Async A := fun w => (Returned a, w).

Definition throw {A} (e : Thrown) : Async A := fun w => (Threw e, w).

Definition bind {A B} (m : Async A) (k : A -> Async B) : Async B :=
  fun w =>
    match m w with
    | (Returned a, w') => k a w'
    | (Threw e, w') => (Threw e, w')
    end.

(** [try { body } catch (error) { handler }] *)
Definition tryCatch {A} (body : Async A) (handler : Thrown -> Async A)
  : Async A :=
  fun w =>
    match body w with
    | (Returned a, w') => (Returned a, w')
    | (Threw e, w') => handler e w'
    end.

(** [for (const x of xs) { acc = body(acc, x) }], aborted by a throw
    that [body] lets escape. *)
Fixpoint forOf {A X} (xs : list X) (acc : A) (body : A -> X -> Async A)
  : Async A :=
  match xs with
  | [] => ret acc
  | x :: xs' => bind (body acc x) (fun acc' => forOf xs' acc' body)
  end.
End Async.

Notation "x <- m ;; k" := (bind m (fun x => k))
  (at level 100, m at next level, right associativity).
Notation "m ;;; k" := (bind m (fun _ => k))
  (at level 100, right associativity).

(* ===================================================================== *)
(** ** The world the pipeline runs in *)
(* ===================================================================== *)

(** What [axios.get] settles to.  A body that axios did not leave as text
    has no [split] method; [typeError] is the message of the [TypeError]
    the engine raises for it. *)
Inductive ResponseData :=
  | TextData (body : jsstring)
  | OtherData (typeError : jsstring).

Inductive HttpReply :=
  | Rejected (e : Thrown)
  | Resolved (data : ResponseData).

(** Table [Player] after migration 001: the permanent identity. *)
Record PlayerRow := mkPlayerRow {
  row_id : N;
  row_mlbId : jsstring;
  row_name : jsstring;
  row_teamAbbr : jsstring;
  row_photoUrl : option jsstring;
  row_createdAt : Z;
  row_updatedAt : Z;
}.

(** Table [PlayerSeasonStats]: one row per (playerId, seasonYear). *)
Record SeasonStatsRow := mkSeasonStatsRow {
  ss_id : N;
  ss_playerId : N;
  ss_seasonYear : Z;
  ss_hrsTotal : Z;
  ss_teamAbbr : jsstring;
  ss_createdAt : Z;
  ss_updatedAt : Z;
}.

Inductive Table := TPlayer | TPlayerSeasonStats.

(** A write the storage engine applied: the table and the row id. *)
Inductive Write :=
  | Inserted (t : Table) (id : N)
  | Updated (t : Table) (id : N).

(** The durable store.  [nextId] stands for [gen_random_uuid()]: ids are
    handed out fresh.  [writes] is the journal of applied writes, oldest
    first. *)
Record Store := mkStore {
  Player : list PlayerRow;
  PlayerSeasonStats : list SeasonStatsRow;
  nextId : N;
  writes : list Write;
}.

(** The world around a store of type [S].  [clock] is what [new Date()]
    reads; [faults] decides, request by request, whether the storage
    service answers ([None]) or fails with an error that the service
    layer throws ([Some e]); an exhausted schedule means no further
    failure.  [upstream] is what the stats site answers to a GET of a
    URL. *)
Record World (S : Type) := mkWorld {
  store : S;
  clock : Z;
  faults : list (option Thrown);
  upstream : jsstring -> HttpReply;
}.
Arguments mkWorld {S} _ _ _ _.
Arguments store {S} _.
Arguments clock {S} _.
Arguments faults {S} _.
Arguments upstream {S} _.

#[global] Instance Thrown_eq_dec : EqDecision Thrown.
Proof. solve_decision. Defined.
#[global] Instance PlayerRow_eq_dec : EqDecision PlayerRow.
Proof. solve_decision. Defined.
#[global] Instance SeasonStatsRow_eq_dec : EqDecision SeasonStatsRow.
Proof. solve_decision. Defined.
#[global] Instance Table_eq_dec : EqDecision Table.
Proof. solve_decision. Defined.
#[global] Instance Write_eq_dec : EqDecision Write.
Proof. solve_decision. Defined.
#[global] Instance Store_eq_dec : EqDecision Store.
Proof. solve_decision. Defined.

(** [new Date().toISOString()] *)
Definition newDate {S} : Async (W := World S) Z :=
  fun w => (Returned (clock w), w).

(** One awaited request to the storage service: time passes, the fault
    schedule is consulted, and only a served request reaches the store. *)
Definition request {S A} (serve : S -> Outcome A * S)
  : Async (W := World S) A :=
  fun w =>
    match faults w with
    | Some e :: fs => (Threw e, mkWorld (store w) (clock w + 1) fs (upstream w))
    | _ =>
        let '(r, s') := serve (store w) in
        (r, mkWorld s' (clock w + 1) (tail (faults w)) (upstream w))
    end.

(** [axios.get(url, ...)] *)
Definition axios_get {S} (url : jsstring)
  : Async (W := World S) ResponseData :=
  fun w =>
    match upstream w url with
    | Rejected e => (Threw e, w)
    | Resolved d => (Returned d, w)
    end.

(** The leaderboard page of the stats site for a season, and its CSV
    export. *)
Definition pageUrl (seasonYear : Z) : jsstring :=
  js "https://baseballsavant.mlb.com/leaderboard/custom?year="
  ++ numberToString seasonYear
  ++ js "&type=batter&filter=&min=q&selections=home_run&chart=false&x=home_run&y=home_run&r=no&chartType=beeswarm&sort=home_run&sortDir=desc".

Definition csvUrl (seasonYear : Z) : jsstring :=
  pageUrl seasonYear ++ js "&csv=true".

(** [scrapePlayerStats]: the CSV export version. *)
Definition scrapePlayerStats {S} (seasonYear : Z)
  : Async (W := World S) (list PlayerData) :=
  tryCatch
    (response <- axios_get (csvUrl seasonYear) ;;
     match response with
     | TextData data => ret (Csv.parseCsv data)
     | OtherData typeError => throw (ErrorObj typeError)
     end)
    (fun error =>
       throw (ErrorObj (js "Failed to scrape player data: " ++
                        match error with
                        | ErrorObj message => message
                        | NonError => js "Unknown error"
                        end))).

(* ===================================================================== *)
(** ** The service layer: [playerDb] *)
(* ===================================================================== *)

(** The [create] and [update] payloads that reach [playerDb]: an absent
    key of the JavaScript object is [None]. *)
Record PlayerCreate := mkPlayerCreate {
  c_mlbId : jsstring;
  c_name : jsstring;
  c_teamAbbr : jsstring;
  c_photoUrl : option jsstring;
  c_createdAt : Z;
  c_updatedAt : Z;
}.

Record PlayerPatch := mkPlayerPatch {
  u_name : option jsstring;
  u_teamAbbr : option jsstring;
  u_photoUrl : option (option jsstring);
  u_updatedAt : option Z;
}.

Definition applyPatch (d : PlayerPatch) (r : PlayerRow) : PlayerRow :=
  mkPlayerRow (row_id r) (row_mlbId r)
    (default (row_name r) (u_name d))
    (default (row_teamAbbr r) (u_teamAbbr d))
    (default (row_photoUrl r) (u_photoUrl d))
    (row_createdAt r)
    (default (row_updatedAt r) (u_updatedAt d)).

Definition hasMlbId (m : jsstring) (r : PlayerRow) : bool :=
  bool_decide (row_mlbId r = m).

Definition hasId (i : N) (r : PlayerRow) : bool := (row_id r =? i)%N.

Definition notSingle : Thrown :=
  ErrorObj (js "JSON object requested, multiple (or no) rows returned").

Definition uniqueViolation : Thrown :=
  ErrorObj (js "duplicate key value violates unique constraint").

Definition journal (wr : Write) (s : Store) (players : list PlayerRow) : Store :=
  mkStore players (PlayerSeasonStats s) (nextId s) (writes s ++ [wr]).

Module playerDb.

(** [findFirst(where)]: [.match(where).limit(1).single()]; no row is
    code PGRST116, which is answered with [null]. *)
Definition findFirst (where_mlbId : jsstring)
  : Async (W := World Store) (option PlayerRow) :=
  request (fun s => (Returned (List.find (hasMlbId where_mlbId) (Player s)), s)).

(** [create(data)]: [.insert(data).select().single()].  The id comes
    from the column default; [mlbId] is declared UNIQUE. *)
Definition create (data : PlayerCreate) : Async (W := World Store) PlayerRow :=
  request (fun s =>
    if existsb (hasMlbId (c_mlbId data)) (Player s)
    then (Threw uniqueViolation, s)
    else
      let r := mkPlayerRow (nextId s) (c_mlbId data) (c_name data)
                 (c_teamAbbr data) (c_photoUrl data)
                 (c_createdAt data) (c_updatedAt data) in
      (Returned r,
       mkStore (Player s ++ [r]) (PlayerSeasonStats s) (N.succ (nextId s))
         (writes s ++ [Inserted TPlayer (row_id r)]))).

(** [update(where, data)]: [.update(data).eq('id', where.id).select()
    .single()].  A singular answer is demanded: anything but exactly
    one row is an error and the statement is rolled back. *)
Definition update (where_id : N) (data : PlayerPatch)
  : Async (W := World Store) PlayerRow :=
  request (fun s =>
    match List.filter (hasId where_id) (Player s) with
    | [r] =>
        (Returned (applyPatch data r),
         journal (Updated TPlayer where_id) s
           ((fun x => if hasId where_id x then applyPatch data x else x)
              <$> Player s))
    | _ => (Threw notSingle, s)
    end).

(** [upsert(where, create, update)] *)
Definition upsert (where_mlbId : jsstring) (create_ : PlayerCreate)
    (update_ : PlayerPatch) : Async (W := World Store) PlayerRow :=
  existing <- findFirst where_mlbId ;;
  match existing with
  | Some e => update (row_id e) update_
  | None => create create_
  end.

End playerDb.

(** The [db] object the service layer exports has the members [user],
    [player] and [team], and no [playerSeasonStats]:
    [db.playerSeasonStats] is [undefined], and reading [upsert] from it
    throws a [TypeError] before an argument of the call is evaluated
    and before a request is made. *)
Definition undefinedUpsert : Thrown :=
  ErrorObj (js "Cannot read properties of undefined (reading 'upsert')").

Definition db_playerSeasonStats_upsert {A} : Async (W := World Store) A :=
  throw undefinedUpsert.

(* ===================================================================== *)
(** ** The scraper service: identity resolver *)
(* ===================================================================== *)

Record Counts := mkCounts {
  createdCount : Z;
  updatedCount : Z;
  skippedCount : Z;
}.

(** [player.photoUrl || null] *)
Definition photoOrNull (p : PlayerData) : option jsstring :=
  match photoUrl p with
  | Some u => if truthy u then Some u else None
  | None => None
  end.

(** The body of the loop of [seedPlayersToDatabase], with its
    [try]/[catch].  Step 2 never gets as far as a request: the look-up
    of [db.playerSeasonStats.upsert] throws, the [catch] clause counts
    the record as skipped, and [createdCount++] is not reached. *)
Definition seedOne (seasonYear : Z) (c : Counts) (player : PlayerData)
  : Async (W := World Store) Counts :=
  tryCatch
    (now <- newDate ;;
     (* Step 1: upsert Player (permanent identity) *)
     playerRecord <- playerDb.upsert (mlbId player)
         (mkPlayerCreate (mlbId player) (name player) (teamAbbr player)
            (photoOrNull player) now now)
         (mkPlayerPatch None (Some (teamAbbr player)) None (Some now)) ;;
     (* Step 2: upsert PlayerSeasonStats (historical archive) *)
     db_playerSeasonStats_upsert (A := SeasonStatsRow) ;;;
     ret (mkCounts (createdCount c + 1) (updatedCount c) (skippedCount c)))
    (fun error =>
       ret (mkCounts (createdCount c) (updatedCount c) (skippedCount c + 1))).

(** [seedPlayersToDatabase(players, seasonYear)]; the counters are what
    the function logs when the loop is over. *)
Definition seedPlayersToDatabase (players : list PlayerData) (seasonYear : Z)
  : Async (W := World Store) Counts :=
  forOf players (mkCounts 0 0 0) (seedOne seasonYear).

(** The error [scrapePlayerStats] rethrows. *)
Definition scrapeFailure (cause : jsstring) : Thrown :=
  ErrorObj (js "Failed to scrape player data: " ++ cause).

(** The groups of the data lines whose home-run count reaches 10. *)
Definition reachesTen (g : Csv.Groups) : bool :=
  match parseInt (Csv.homeRunsStr g) with
  | Some hr => 10 <=? hr
  | None => false
  end.

Definition eligibleGroups (data : jsstring) : list Csv.Groups :=
  List.filter reachesTen (omap Csv.regexMatch (drop 1 (Csv.csvLines data))).

(** [scrapeAndSeedPlayers(seasonYear)]: the full scrape and seed
    pipeline.  [db.$disconnect()] in the [finally] clause does nothing. *)
Definition scrapeAndSeedPlayers (seasonYear : Z)
  : Async (W := World Store) unit :=
  tryCatch
    (players <- scrapePlayerStats seasonYear ;;
     match players with
     | [] => ret tt
     | _ :: _ => seedPlayersToDatabase players seasonYear ;;; ret tt
     end)
    (fun error => throw error).

(* ===================================================================== *)
(** ** Notions used to state the properties of the resolver *)
(* ===================================================================== *)

(** The constraints the schema puts on table [Player]: [id] is the
    primary key, [mlbId] is UNIQUE, and generated ids are fresh. *)
Definition wf_store (s : Store) : Prop :=
  NoDup (row_id <$> Player s)
  /\ NoDup (row_mlbId <$> Player s)
  /\ Forall (fun r => (row_id r < nextId s)%N) (Player s).

(** A Player with this external id is on record. *)
Definition known (m : jsstring) (s : Store) : Prop :=
  exists r, r ∈ Player s /\ row_mlbId r = m.

(** Everything of a Player row but [updatedAt]. *)
Definition identity (r : PlayerRow)
  : N * jsstring * jsstring * jsstring * option jsstring * Z :=
  (row_id r, row_mlbId r, row_name r, row_teamAbbr r, row_photoUrl r,
   row_createdAt r).

(** Everything of a Player row that no update of the resolver touches. *)
Definition permanent (r : PlayerRow)
  : N * jsstring * jsstring * option jsstring * Z :=
  (row_id r, row_mlbId r, row_name r, row_photoUrl r, row_createdAt r).

(** The journal of a run that only updates: per record, the id of the
    Player row it rewrote. *)
Definition rerunJournal (ids : list N) : list Write :=
  Updated TPlayer <$> ids.

(** The team of the last record of the list that carries the id. *)
Fixpoint lastTeam (l : list PlayerData) (m : jsstring) : option jsstring :=
  match l with
  | [] => None
  | p :: l' =>
      match lastTeam l' m with
      | Some t => Some t
      | None => if bool_decide (mlbId p = m) then Some (teamAbbr p) else None
      end
  end.

(** Failures still to come in the fault schedule. *)
Definition pending {S} (w : World S) : Z :=
  Z.of_nat (length (List.filter (fun f => bool_decide (is_Some f)) (faults w))).

(** *** One iteration when every request is served *)

Definition seedCreate (now : Z) (p : PlayerData) : PlayerCreate :=
  mkPlayerCreate (mlbId p) (name p) (teamAbbr p) (photoOrNull p) now now.

Definition seedPatch (now : Z) (p : PlayerData) : PlayerPatch :=
  mkPlayerPatch None (Some (teamAbbr p)) None (Some now).

(** What a served [playerDb.upsert] of the record returns and leaves. *)
Definition servedPlayer (now : Z) (p : PlayerData) (s : Store)
  : PlayerRow * Store :=
  match List.find (hasMlbId (mlbId p)) (Player s) with
  | Some e =>
      (applyPatch (seedPatch now p) e,
       journal (Updated TPlayer (row_id e)) s
         ((fun x => if hasId (row_id e) x
                    then applyPatch (seedPatch now p) x else x)
            <$> Player s))
  | None =>
      let r := mkPlayerRow (nextId s) (mlbId p) (name p) (teamAbbr p)
                 (photoOrNull p) now now in
      (r, mkStore (Player s ++ [r]) (PlayerSeasonStats s) (N.succ (nextId s))
            (writes s ++ [Inserted TPlayer (nextId s)]))
  end.

(** The store one iteration leaves when both requests of its Player
    upsert are served. *)
Definition servedStore (now : Z) (p : PlayerData) (s : Store) : Store :=
  snd (servedPlayer now p s).

(** A whole run when every request is served: two requests, hence two
    ticks of the clock, per record. *)
Fixpoint servedRun (now : Z) (l : list PlayerData) (s : Store) : Store :=
  match l with
  | [] => s
  | p :: l' => servedRun (now + 2) l' (servedStore now p s)
  end.

Definition saved (c : Counts) : Counts :=
  mkCounts (createdCount c + 1) (updatedCount c) (skippedCount c).

Definition skipped (c : Counts) : Counts :=
  mkCounts (createdCount c) (updatedCount c) (skippedCount c + 1).

(** *** Specifications of awaited computations

    [triple P m Q E]: run from a world that satisfies [P], [m] either
    returns a value and a world related by [Q], or throws into a world
    that satisfies [E]. *)
Definition triple {A} (P : World Store -> Prop) (m : Async (W := World Store) A)
    (Q : A -> World Store -> Prop) (E : World Store -> Prop) : Prop :=
  forall w, P w ->
    match m w with
    | (Returned a, w') => Q a w'
    | (Threw _, w') => E w'
    end.

(** Every row whose id occurs in the list carries the team of the last
    record with that id. *)
Definition settled (l : list PlayerData) (s : Store) : Prop :=
  forall r t, r ∈ Player s -> lastTeam l (row_mlbId r) = Some t ->
              row_teamAbbr r = t.

(** Two rows that differ at most in [updatedAt], and in [teamAbbr] only
    if a record of the list carries their id. *)
Definition sameButTeam (l : list PlayerData) (x y : PlayerRow) : Prop :=
  permanent x = permanent y
  /\ (row_teamAbbr x = row_teamAbbr y
      \/ exists p, p ∈ l /\ mlbId p = row_mlbId x).

(** The world between two requests of an iteration that no failure has
    struck: the schema constraints hold, [n] failures are still to come,
    and the ids in [K] are on record; and the world after a failure
    struck. *)
Definition steady (n : Z) (K : jsstring -> Prop) (w : World Store) : Prop :=
  wf_store (store w) /\ pending w = n
  /\ forall m, K m -> known m (store w).

Definition struck (n : Z) (K : jsstring -> Prop) (w : World Store) : Prop :=
  wf_store (store w) /\ pending w + 1 = n
  /\ forall m, K m -> known m (store w).

(** *** Sample data *)

Definition judge : PlayerData :=
  mkPlayerData (js "Aaron Judge") (js "mlb-592450") (js "UNK") 58 None.

Definition soto : PlayerData :=
  mkPlayerData (js "Juan Soto") (js "mlb-665742") (js "UNK") 41 None.

Definition ohtani : PlayerData :=
  mkPlayerData (js "Shohei Ohtani") (js "mlb-660271") (js "UNK") 54 None.

Definition emptyStore : Store := mkStore [] [] 0 [].

(** A store that already holds Judge, under an older spelling and with
    his team. *)
Definition storeWithJudge : Store :=
  mkStore [mkPlayerRow 0 (js "mlb-592450") (js "A. Judge") (js "NYY") None 0 0]
    [] 1 [].

Definition offline : jsstring -> HttpReply :=
  fun _ => Rejected (ErrorObj (js "Network Error")).

(** A world at time 0 in which the storage service never fails. *)
Definition quietWorld {S} (s : S) : World S := mkWorld s 0 [] offline.

(** A world in which the third storage request fails. *)
Definition faultyWorld : World Store :=
  mkWorld emptyStore 0
    [None; None; Some (ErrorObj (js "connection reset"))]
    offline.

Definition noCounts : Counts := mkCounts 0 0 0.

(** What the resolver's update leaves of a row: only the team and
    [updatedAt] are rewritten. *)
Definition retagged (now : Z) (p : PlayerData) (x : PlayerRow) : PlayerRow :=
  if bool_decide (row_mlbId x = mlbId p)
  then mkPlayerRow (row_id x) (row_mlbId x) (row_name x) (teamAbbr p)
         (row_photoUrl x) (row_createdAt x) now
  else x.

(* ===================================================================== *)
(** ** The Prisma client and the database before migration 001 *)
(* ===================================================================== *)

Module Prisma.

(** Table [Player] before migration 001. *)
Record PlayerRow := mkPlayerRow {
  l_id : N;
  l_mlbId : jsstring;
  l_name : jsstring;
  l_teamAbbr : jsstring;
  l_seasonYear : Z;
  l_hrsPreviousSeason : Z;
  l_isEligible : bool;
  l_photoUrl : option jsstring;
  l_createdAt : Z;
  l_updatedAt : Z;
}.

(** Table [PlayerStats]: one snapshot per key (playerId, seasonYear,
    date), as UNIQUE(playerId, seasonYear, date) has it. *)
Record StatRow := mkStatRow {
  st_id : N;
  st_hrsTotal : Z;
  st_hrsRegularSeason : Z;
  st_hrsPostseason : Z;
  st_lastUpdated : Z;
}.

Record Store := mkStore {
  Player : list PlayerRow;
  PlayerStats : gmap (N * Z * Z) StatRow;
  nextId : N;
}.

(** The [update] and [create] arguments of [prisma.player.upsert].  A
    key whose value is [undefined] is left alone by Prisma: [None] in
    [pu_photoUrl]. *)
Record PlayerUpdate := mkPlayerUpdate {
  pu_name : jsstring;
  pu_teamAbbr : jsstring;
  pu_hrsPreviousSeason : Z;
  pu_isEligible : bool;
  pu_photoUrl : option jsstring;
  pu_updatedAt : Z;
}.

Record PlayerCreate := mkPlayerCreate {
  pc_mlbId : jsstring;
  pc_name : jsstring;
  pc_teamAbbr : jsstring;
  pc_seasonYear : Z;
  pc_hrsPreviousSeason : Z;
  pc_isEligible : bool;
  pc_photoUrl : option jsstring;
}.

Definition hasMlbId (m : jsstring) (r : PlayerRow) : bool :=
  bool_decide (l_mlbId r = m).

Definition applyUpdate (d : PlayerUpdate) (r : PlayerRow) : PlayerRow :=
  mkPlayerRow (l_id r) (l_mlbId r) (pu_name d) (pu_teamAbbr d)
    (l_seasonYear r) (pu_hrsPreviousSeason d) (pu_isEligible d)
    (match pu_photoUrl d with Some u => Some u | None => l_photoUrl r end)
    (l_createdAt r) (pu_updatedAt d).

(** [prisma.player.upsert({ where: { mlbId }, update, create })]: the
    row selected by the unique key is updated, or a row is created with
    the column defaults ([id], [createdAt], [updatedAt]); [now] is the
    time of the store. *)
Definition player_upsert (where_mlbId : jsstring)
    (update_ : PlayerUpdate) (create_ : PlayerCreate)
  : Async (W := World Store) PlayerRow :=
  now <- newDate ;;
  request (fun s =>
    match List.find (hasMlbId where_mlbId) (Player s) with
    | Some e =>
        (Returned (applyUpdate update_ e),
         mkStore ((fun x => if hasMlbId where_mlbId x
                            then applyUpdate update_ x else x) <$> Player s)
           (PlayerStats s) (nextId s))
    | None =>
        let r := mkPlayerRow (nextId s) (pc_mlbId create_) (pc_name create_)
                   (pc_teamAbbr create_) (pc_seasonYear create_)
                   (pc_hrsPreviousSeason create_) (pc_isEligible create_)
                   (pc_photoUrl create_) now now in
        (Returned r,
         mkStore (Player s ++ [r]) (PlayerStats s) (N.succ (nextId s)))
    end).

(** [prisma.player.findUnique({ where: { mlbId } })] *)
Definition player_findUnique (where_mlbId : jsstring)
  : Async (W := World Store) (option PlayerRow) :=
  request (fun s => (Returned (List.find (hasMlbId where_mlbId) (Player s)), s)).

(** The [update] and [create] arguments of [prisma.playerStats.upsert]. *)
Record StatUpdate := mkStatUpdate {
  su_hrsTotal : Z;
  su_hrsRegularSeason : Z;
  su_hrsPostseason : Z;
}.

Record StatCreate := mkStatCreate {
  sc_playerId : N;
  sc_seasonYear : Z;
  sc_date : Z;
  sc_hrsTotal : Z;
  sc_hrsRegularSeason : Z;
  sc_hrsPostseason : Z;
}.

Definition applyStatUpdate (d : StatUpdate) (r : StatRow) : StatRow :=
  mkStatRow (st_id r) (su_hrsTotal d) (su_hrsRegularSeason d)
    (su_hrsPostseason d) (st_lastUpdated r).

(** [prisma.playerStats.upsert({ where: { playerId_seasonYear_date },
    update, create })]: the snapshot under the key takes the values of
    [update], or a snapshot is created from [create]. *)
Definition playerStats_upsert (where_key : N * Z * Z)
    (update_ : StatUpdate) (create_ : StatCreate)
  : Async (W := World Store) StatRow :=
  now <- newDate ;;
  request (fun s =>
    match PlayerStats s !! where_key with
    | Some r =>
        (Returned (applyStatUpdate update_ r),
         mkStore (Player s)
           (<[where_key := applyStatUpdate update_ r]> (PlayerStats s))
           (nextId s))
    | None =>
        let r := mkStatRow (nextId s) (sc_hrsTotal create_)
                   (sc_hrsRegularSeason create_) (sc_hrsPostseason create_)
                   now in
        (Returned r,
         mkStore (Player s)
           (<[(sc_playerId create_, sc_seasonYear create_, sc_date create_)
              := r]> (PlayerStats s))
           (N.succ (nextId s)))
    end).

(** [prisma.playerStats.findFirst({ where: { playerId, seasonYear,
    date } })] *)
Definition playerStats_findFirst (where_key : N * Z * Z)
  : Async (W := World Store) (option StatRow) :=
  request (fun s => (Returned (PlayerStats s !! where_key), s)).

End Prisma.

(* ===================================================================== *)
(** ** The earlier scraper service: HTML page and Prisma client *)
(* ===================================================================== *)

Module Legacy.

(** The body of the loop of the earlier [seedPlayersToDatabase]. *)
Definition seedOne (seasonYear : Z) (c : Counts) (player : PlayerData)
  : Async (W := World Prisma.Store) Counts :=
  tryCatch
    (now <- newDate ;;
     result <- Prisma.player_upsert (mlbId player)
         (Prisma.mkPlayerUpdate (name player) (teamAbbr player) (homeRuns player)
            (10 <=? homeRuns player) (photoUrl player) now)
         (Prisma.mkPlayerCreate (mlbId player) (name player) (teamAbbr player)
            seasonYear (homeRuns player) (10 <=? homeRuns player)
            (photoUrl player)) ;;
     existingPlayer <- Prisma.player_findUnique (mlbId player) ;;
     match existingPlayer with
     | Some e =>
         if Prisma.l_createdAt e =? Prisma.l_createdAt result
         then ret (mkCounts (createdCount c + 1) (updatedCount c) (skippedCount c))
         else ret (mkCounts (createdCount c) (updatedCount c + 1) (skippedCount c))
     | None =>
         ret (mkCounts (createdCount c) (updatedCount c + 1) (skippedCount c))
     end)
    (fun error =>
       ret (mkCounts (createdCount c) (updatedCount c) (skippedCount c + 1))).

Definition seedPlayersToDatabase (players : list PlayerData) (seasonYear : Z)
  : Async (W := World Prisma.Store) Counts :=
  forOf players (mkCounts 0 0 0) (seedOne seasonYear).

(** What the earlier resolver's update leaves of a row: name, team,
    home runs, eligibility and [updatedAt] are rewritten, the photo too
    when the record has one. *)
Definition overwritten (now : Z) (p : PlayerData) (x : Prisma.PlayerRow) : Prisma.PlayerRow :=
  if bool_decide (Prisma.l_mlbId x = mlbId p)
  then Prisma.mkPlayerRow (Prisma.l_id x) (Prisma.l_mlbId x) (name p) (teamAbbr p) (Prisma.l_seasonYear x)
         (homeRuns p) (10 <=? homeRuns p)
         (match photoUrl p with Some u => Some u | None => Prisma.l_photoUrl x end)
         (Prisma.l_createdAt x) now
  else x.

Definition known (m : jsstring) (s : Prisma.Store) : Prop :=
  exists r, r ∈ Prisma.Player s /\ Prisma.l_mlbId r = m.

Section Html.

(** The two library functions the page scraper leans on: what cheerio
    finds in the page, given as the cell texts of each row selected by
    [table tbody tr] (or the value it throws), and
    [String.prototype.toLowerCase]. *)
Variable cheerioRows : ResponseData -> Outcome (list (list jsstring)).
Variable toLowerCase : jsstring -> jsstring.

(** The callback of [.each((index, element) => ...)]: the record a row
    contributes, if any. *)
Definition parseRow (index : nat) (cells : list jsstring) : option PlayerData :=
  let playerName := trim (default [] (cells !! 0%nat)) in
  let teamText := trim (default [] (cells !! 1%nat)) in
  let team := trim (default [] (head (split COMMA teamText))) in
  let homeRunsText := trim (default [] (last cells)) in
  let hr := default 0 (parseInt homeRunsText) in
  let slug := List.filter slugUnit (hyphenate false (toLowerCase playerName)) in
  let id := if truthy slug then slug else js "player-" ++ decimal index in
  if truthy playerName && truthy team && (10 <=? hr)
  then Some (mkPlayerData playerName id team hr None)
  else None.

(** The earlier [scrapePlayerStats]: the HTML page version. *)
Definition scrapePlayerStats {S} (seasonYear : Z)
  : Async (W := World S) (list PlayerData) :=
  tryCatch
    (response <- axios_get (pageUrl seasonYear) ;;
     match cheerioRows response with
     | Returned rows => ret (omap id (imap parseRow rows))
     | Threw e => throw e
     end)
    (fun error =>
       throw (ErrorObj (js "Failed to scrape player data: " ++
                        match error with
                        | ErrorObj message => message
                        | NonError => js "Unknown error"
                        end))).

End Html.

End Legacy.

(** *** Sample upstream answers *)

Definition header : jsstring :=
  [QUOTE] ++ js "last_name, first_name" ++ [QUOTE] ++ js ",player_id,year,home_run".

(** An export in which player 592450 occurs on two lines, and one
    player is below ten home runs. *)
Definition dupBody : jsstring :=
  header ++ [LF]
  ++ csvRow "Judge, Aaron" ",592450,2025,58" ++ [LF]
  ++ csvRow "Doe, John" ",123,2025,9" ++ [LF]
  ++ csvRow "Judge, Aaron" ",592450,2025,60" ++ [LF].

Definition judge60 : PlayerData :=
  mkPlayerData (js "Aaron Judge") (js "mlb-592450") (js "UNK") 60 None.

Definition dupWorld : World Store :=
  mkWorld emptyStore 0 [] (fun _ => Resolved (TextData dupBody)).

(** A page that cheerio cannot be given, and an ASCII lower-casing. *)
Definition noRows (d : ResponseData) : Outcome (list (list jsstring)) :=
  Threw NonError.

Definition asciiLower (s : jsstring) : jsstring :=
  (fun c => if ((65 <=? c) && (c <=? 90))%N then (c + 32)%N else c) <$> s.

(** The earlier store, holding Judge under an older spelling. *)
Definition legacyStoreWithJudge : Prisma.Store :=
  Prisma.mkStore
    [Prisma.mkPlayerRow 0 (js "mlb-592450") (js "A. Judge") (js "NYY") 2025 58
       true None 0 0] ∅ 1.

(* ===================================================================== *)
(** ** The season import script: stats archive *)
(* ===================================================================== *)

Module Import2025.

(** [interface CSVPlayer] *)
Record CSVPlayer := mkCSVPlayer {
  csv_name : jsstring;
  csv_team : jsstring;
  csv_homeRuns : Z;
}.

(** One pass of the loop of [parseCSV]: the player a line contributes,
    if any.  A missing third field is [undefined], which [parseInt]
    reads as [NaN]; a missing second field is falsy. *)
Definition parseCsvLine (raw : jsstring) : option CSVPlayer :=
  let line := trim raw in
  if truthy line then
    let parts := split COMMA line in
    let name_ := default [] (parts !! 0%nat) in
    let homeRuns_ := match parts !! 2%nat with
                     | Some s => parseInt s
                     | None => None
                     end in
    match parts !! 1%nat, homeRuns_ with
    | Some team, Some hr =>
        if truthy name_ && truthy team && (10 <=? hr)
        then Some (mkCSVPlayer (trim name_) (trim team) hr)
        else None
    | _, _ => None
    end
  else None.

(** [parseCSV(csvContent)]: the header row is skipped. *)
Definition parseCSV (csvContent : jsstring) : list CSVPlayer :=
  omap parseCsvLine (drop 1 (split LF (trim csvContent))).

Record ImportCounts := mkImportCounts {
  created : Z;
  updated : Z;
  skipped : Z;
  missingPlayer : Z;
}.

(** [new Date('2025-09-28')], in milliseconds since the epoch. *)
Definition seasonEndDate : Z := 1759017600000.

(** The snapshot write of the import: the call of
    [prisma.playerStats.upsert] with its key and its three counts. *)
Definition snapshotWrite (playerId : N) (seasonYear date : Z)
    (hrsTotal hrsRegularSeason hrsPostseason : Z)
  : Async (W := World Prisma.Store) Prisma.StatRow :=
  Prisma.playerStats_upsert (playerId, seasonYear, date)
    (Prisma.mkStatUpdate hrsTotal hrsRegularSeason hrsPostseason)
    (Prisma.mkStatCreate playerId seasonYear date
       hrsTotal hrsRegularSeason hrsPostseason).

Section ImportLoop.

(** [String.prototype.toLowerCase] *)
Variable toLowerCase : jsstring -> jsstring.

(** The external id computed from the name. *)
Definition slugOf (playerName : jsstring) : jsstring :=
  squeezeHyphens false
    (List.filter slugUnit (hyphenate false (toLowerCase playerName))).

(** The body of the loop of [import2025Season], with its
    [try]/[catch]. *)
Definition importOne (c : ImportCounts) (player : CSVPlayer)
  : Async (W := World Prisma.Store) ImportCounts :=
  tryCatch
    (existingPlayer <- Prisma.player_findUnique (slugOf (csv_name player)) ;;
     match existingPlayer with
     | None =>
         (* Player doesn't exist in Player table, skip *)
         ret (mkImportCounts (created c) (updated c) (skipped c)
                (missingPlayer c + 1))
     | Some e =>
         snapshotWrite (Prisma.l_id e) 2025 seasonEndDate
           (csv_homeRuns player) (csv_homeRuns player) 0 ;;;
         wasUpdate <- Prisma.playerStats_findFirst
                        (Prisma.l_id e, 2025, seasonEndDate) ;;
         match wasUpdate with
         | Some _ =>
             ret (mkImportCounts (created c) (updated c + 1) (skipped c)
                    (missingPlayer c))
         | None =>
             ret (mkImportCounts (created c + 1) (updated c) (skipped c)
                    (missingPlayer c))
         end
     end)
    (fun error =>
       ret (mkImportCounts (created c) (updated c) (skipped c + 1)
              (missingPlayer c))).

(** [import2025Season()]: [csvContent] is what [readFileSync] returns;
    the counters are what the function logs when the loop is over. *)
Definition import2025Season (csvContent : jsstring)
  : Async (W := World Prisma.Store) ImportCounts :=
  forOf (parseCSV csvContent) (mkImportCounts 0 0 0 0) importOne.

End ImportLoop.

End Import2025.


(** *** Sample archive *)

Definition dayMs : Z := 86400000.

(** Judge is known under id 7, with 40 home runs recorded the day before
    the season's end. *)
Definition archiveBefore : Prisma.Store :=
  Prisma.mkStore
    [Prisma.mkPlayerRow 7 (js "aaron-judge") (js "Aaron Judge") (js "NYY")
       2025 58 true None 0 0]
    {[ (7%N, 2025, Import2025.seasonEndDate - dayMs)
       := Prisma.mkStatRow 100 40 40 0 0 ]}
    101.


(* ===================================================================== *)
(** ** Scoring engine and leaderboard builder *)
(* ===================================================================== *)

Module Scoring.

(** Modelled from the spec: a roster slot with its period total (roster
    position, player, and the home runs the player has in the scoring
    period); the Scoring Engine and its types are not part of the
    sources at hand. *)
Record Slot := mkSlot {
  position : nat;
  playerId : N;
  total : Z;
}.

(** Modelled from the spec: the ScoreRecord of section 3, less the
    roster and period it is filed under. *)
Record ScoreRecord := mkScoreRecord {
  bestSevenTotal : Z;
  excludedPosition : option nat;
  excludedPlayerId : option N;
}.

#[global] Instance Slot_eq_dec : EqDecision Slot.
Proof. solve_decision. Defined.

(** Modelled from the spec: the order of the engine's sort, descending
    by total, and on equal totals the lower roster position first. *)
Definition ahead (a b : Slot) : Prop :=
  total b < total a \/ (total a = total b /\ (position a <= position b)%nat).

#[global] Instance ahead_dec a b : Decision (ahead a b).
Proof. unfold ahead. apply _. Defined.

Definition sumTotals (l : list Slot) : Z :=
  foldr (fun s acc => total s + acc) 0 l.

(** Modelled from the spec: the roster as the engine receives it, the
    players in roster order, each with the period total the archive
    yields. *)
Definition slots (roster : list (N * Z)) : list Slot :=
  imap (fun i '(pid, t) => mkSlot i pid t) roster.

(** Modelled from the spec: the Scoring Engine is not part of the
    sources at hand.  In the words of section 4.4: sort the per-player
    totals descending; sum the top 7; record which player was excluded,
    ties broken by roster position order, the lowest position winning
    inclusion. *)
Definition scoreRoster (roster : list (N * Z)) : ScoreRecord :=
  let sorted := merge_sort ahead (slots roster) in
  mkScoreRecord (sumTotals (take 7 sorted))
    (position <$> sorted !! 7%nat)
    (playerId <$> sorted !! 7%nat).

End Scoring.

Module Leaderboard.

(** Modelled from the spec: the LeaderboardEntry of section 3, less the
    leaderboard type, period and time it is filed under. *)
Record Entry := mkEntry {
  rosterId : N;
  totalHrs : Z;
  rank : nat;
}.

(** Modelled from the spec: the order of the builder's sort, descending
    by [totalHrs]. *)
Definition notBehind (a b : N * Z) : Prop := snd b <= snd a.

#[global] Instance notBehind_dec a b : Decision (notBehind a b).
Proof. unfold notBehind. apply _. Defined.

(** Modelled from the spec: ranks along the sorted standings.  An entry
    tied with the one before it shares its rank, any other entry takes
    the number of entries ahead of it plus 1.  [prev] is the total and
    rank of the entry before, [index] the number of entries ahead. *)
Fixpoint assignRanks (prev : option (Z * nat)) (index : nat)
    (standings : list (N * Z)) : list Entry :=
  match standings with
  | [] => []
  | (rid, t) :: rest =>
      let r := match prev with
               | Some (pt, pr) => if pt =? t then pr else S index
               | None => S index
               end in
      mkEntry rid t r :: assignRanks (Some (t, r)) (S index) rest
  end.

(** Modelled from the spec: the Leaderboard Builder is not part of the
    sources at hand.  In the words of section 4.5: collect (rosterId,
    totalHrs); sort descending by totalHrs; assign ranks with standard
    competition ranking. *)
Definition buildLeaderboard (scores : list (N * Z)) : list Entry :=
  assignRanks None 0 (merge_sort notBehind scores).

(** The number of scores strictly greater than [t]. *)
Definition strictlyAhead (t : Z) (scores : list (N * Z)) : nat :=
  length (List.filter (fun s => t <? snd s) scores).

End Leaderboard.

(** The sum of the period totals of a roster. *)
Definition rosterSum (roster : list (N * Z)) : Z :=
  foldr (fun e acc => snd e + acc) 0 roster.

(** The roster of the specification's end-to-end scenario. *)
Definition scenarioRoster : list (N * Z) :=
  [(11%N, 30); (12%N, 25); (13%N, 20); (14%N, 18);
   (15%N, 15); (16%N, 10); (17%N, 5); (18%N, 0)].

(** The roster and total an entry stands for. *)
Definition scoreOf (e : Leaderboard.Entry) : N * Z :=
  (Leaderboard.rosterId e, Leaderboard.totalHrs e).

(** The totals of the specification's ranking example. *)
Definition exampleScores : list (N * Z) :=
  [(1%N, 50); (2%N, 50); (3%N, 40); (4%N, 30)].

(* ===================================================================== *)
(** ** Notions used to state further properties of the fetchers *)
(* ===================================================================== *)

(** A data line as the export writes it, in the format the fetcher's
    comment gives: the quoted name, last name first, then player id,
    year and home runs. *)
Definition exportLine (lastName firstName playerId year homeRuns : jsstring)
  : jsstring :=
  [QUOTE] ++ lastName ++ [COMMA; SPACE] ++ firstName ++ [QUOTE]
  ++ [COMMA] ++ playerId ++ [COMMA] ++ year ++ [COMMA] ++ homeRuns.

(** A name part that holds neither a quote nor a comma. *)
Definition plain (s : jsstring) : bool :=
  forallb (fun c => negb (c =? QUOTE)%N && negb (c =? COMMA)%N) s.

(** A non-empty run of decimal digits, and the number it writes. *)
Definition isNumber (s : jsstring) : bool := truthy s && forallb isDigit s.

Definition decimalValue (s : jsstring) : Z :=
  fold_left (fun acc c => 10 * acc + (Z.of_N c - 48)) s 0.

(** No white space at either end. *)
Definition trimmed (s : jsstring) : Prop := trim s = s.

(** What follows the match of the line pattern does not go on with a
    digit. *)
Definition noDigitAhead (s : jsstring) : bool :=
  match s with
  | c :: _ => negb (isDigit c)
  | [] => true
  end.

(** Two hyphens in a row somewhere in the string. *)
Definition doubledHyphen (s : jsstring) : Prop :=
  exists a b, s = a ++ HYPHEN :: HYPHEN :: b.

(* ===================================================================== *)
(** ** Notions used to state what a run leaves alone *)
(* ===================================================================== *)

(** Whatever the fault schedule, the computation takes the store only
    to stores related by [R], and leaves the upstream site alone. *)
Definition keeps {S A} (R : S -> S -> Prop) (m : Async (W := World S) A)
  : Prop :=
  forall w, R (store w) (store (snd (m w)))
            /\ upstream (snd (m w)) = upstream w.

(** What a run over the records [l] may do to a Player row: nothing,
    or, if a record carries the row's external id, anything that keeps
    its id, external id, name, photo and creation time. *)
Definition touchedOnly (l : list PlayerData) (x y : PlayerRow) : Prop :=
  x = y
  \/ (permanent x = permanent y /\ exists p, p ∈ l /\ mlbId p = row_mlbId x).

(** The rows of [rows] are still there, in their places, touched only
    as [touchedOnly] allows; the rows that follow them are new and
    carry external ids of the records. *)
Definition extends (l : list PlayerData) (rows rows' : list PlayerRow)
  : Prop :=
  exists kept new,
    rows' = kept ++ new
    /\ Forall2 (touchedOnly l) rows kept
    /\ Forall (fun r => exists p, p ∈ l /\ mlbId p = row_mlbId r) new.

(** A world whose store knows Judge with his team, while the site
    serves the sample export. *)
Definition judgeWorld : World Store :=
  mkWorld storeWithJudge 0 [] (fun _ => Resolved (TextData dupBody)).

(* ===================================================================== *)
(** ** The player import script: CSV file and Prisma client *)
(* ===================================================================== *)

Module ImportCsv.

Section ImportLoop.

(** [String.prototype.toLowerCase] *)
Variable toLowerCase : jsstring -> jsstring.

(** The body of the loop of [importPlayers], with its [try]/[catch].
    The external id is computed as in the season import
    ([Import2025.slugOf]); the payloads carry no photo. *)
Definition importOne (c : Counts) (player : Import2025.CSVPlayer)
  : Async (W := World Prisma.Store) Counts :=
  tryCatch
    (let mlbId := Import2025.slugOf toLowerCase (Import2025.csv_name player) in
     now <- newDate ;;
     Prisma.player_upsert mlbId
       (Prisma.mkPlayerUpdate (Import2025.csv_name player)
          (Import2025.csv_team player) (Import2025.csv_homeRuns player)
          (10 <=? Import2025.csv_homeRuns player) None now)
       (Prisma.mkPlayerCreate mlbId (Import2025.csv_name player)
          (Import2025.csv_team player) 2025 (Import2025.csv_homeRuns player)
          (10 <=? Import2025.csv_homeRuns player) None) ;;;
     ret (mkCounts (createdCount c + 1) (updatedCount c) (skippedCount c)))
    (fun error =>
       ret (mkCounts (createdCount c) (updatedCount c) (skippedCount c + 1))).

(** [importPlayers()]: [csvContent] is what [readFileSync] returns, and
    [parseCSV] is, word for word, the function of the season import;
    the counters are what the function logs when the loop is over. *)
Definition importPlayers (csvContent : jsstring)
  : Async (W := World Prisma.Store) Counts :=
  forOf (Import2025.parseCSV csvContent) (mkCounts 0 0 0) importOne.

End ImportLoop.

End ImportCsv.

(** A row the player import wrote: eligible, with the home runs that
    make it so. *)
Definition eligibleRow (r : Prisma.PlayerRow) : Prop :=
  Prisma.l_isEligible r = true /\ 10 <= Prisma.l_hrsPreviousSeason r.

(* ===================================================================== *)
(** ** The cumulative archive import script *)
(* ===================================================================== *)

Module Archive.

(** Seasons to import for the cumulative archive. *)
Definition SEASONS_TO_IMPORT : list Z := [2024; 2025].

(** The entries of [seasonResults], and the two variables the loop
    updates. *)
Record SeasonResult := mkSeasonResult {
  count : Z;
  topPlayer : jsstring;
}.

Record Progress := mkProgress {
  totalImported : Z;
  seasonResults : gmap Z SeasonResult;
}.

(** [players.reduce((top, current) => current.homeRuns > top.homeRuns ?
    current : top)]: with no initial value the first element starts the
    fold, and an empty array is a [TypeError]. *)
Definition reduceTop (players : list PlayerData) : Outcome PlayerData :=
  match players with
  | [] => Threw (ErrorObj (js "Reduce of empty array with no initial value"))
  | first :: rest =>
      Returned (fold_left (fun top current =>
                  if homeRuns top <? homeRuns current then current else top)
                  rest first)
  end.

(** [await new Promise((resolve) => setTimeout(resolve, ms))] *)
Definition sleep {S} (ms : Z) : Async (W := World S) unit :=
  fun w => (Returned tt, mkWorld (store w) (clock w + ms) (faults w) (upstream w)).

(** The body of the loop over the seasons, with its [try]/[catch]. *)
Definition importSeason (acc : Progress) (seasonYear : Z)
  : Async (W := World Store) Progress :=
  tryCatch
    (players <- scrapePlayerStats seasonYear ;;
     match players with
     | [] => ret acc
     | _ :: _ =>
         seedPlayersToDatabase players seasonYear ;;;
         match reduceTop players with
         | Threw e => throw e
         | Returned top =>
             let acc' :=
               mkProgress
                 (totalImported acc + Z.of_nat (length players))
                 (<[seasonYear :=
                      mkSeasonResult (Z.of_nat (length players))
                        (name top ++ js " (" ++ teamAbbr top ++ js ") - "
                         ++ numberToString (homeRuns top) ++ js " HRs")]>
                    (seasonResults acc)) in
             if bool_decide (Some seasonYear <> last SEASONS_TO_IMPORT)
             then sleep 2000 ;;; ret acc'
             else ret acc'
         end
     end)
    (fun error => ret acc).

(** The loop of [importCumulativePlayerArchive] over the seasons.  The
    summary that follows it reads the archive through
    [db.playerSeasonStats], which the service layer at hand does not
    have. *)
Definition importSeasons : Async (W := World Store) Progress :=
  forOf SEASONS_TO_IMPORT (mkProgress 0 ∅) importSeason.

End Archive.

(** The number of records a season's fetch yields: none when the fetch
    fails. *)
Definition fetched (seasonYear : Z) (w : World Store) : Z :=
  match fst (scrapePlayerStats seasonYear w) with
  | Returned players => Z.of_nat (length players)
  | Threw _ => 0
  end.

(** A site that serves the sample export for 2025 and nothing else. *)
Definition only2025 : jsstring -> HttpReply :=
  fun url => if bool_decide (url = csvUrl 2025)
             then Resolved (TextData dupBody)
             else Rejected (ErrorObj (js "Request failed with status code 404")).

(* ===================================================================== *)
(** ** Notions used to state the properties of the season import *)
(* ===================================================================== *)

Definition tallyUpdated (c : Import2025.ImportCounts) : Import2025.ImportCounts :=
  Import2025.mkImportCounts (Import2025.created c) (Import2025.updated c + 1)
    (Import2025.skipped c) (Import2025.missingPlayer c).

Definition tallySkipped (c : Import2025.ImportCounts) : Import2025.ImportCounts :=
  Import2025.mkImportCounts (Import2025.created c) (Import2025.updated c)
    (Import2025.skipped c + 1) (Import2025.missingPlayer c).

Definition tallyMissing (c : Import2025.ImportCounts) : Import2025.ImportCounts :=
  Import2025.mkImportCounts (Import2025.created c) (Import2025.updated c)
    (Import2025.skipped c) (Import2025.missingPlayer c + 1).

(** The key of the snapshot the import writes for a Player. *)
Definition seasonEndKey (e : Prisma.PlayerRow) : N * Z * Z :=
  (Prisma.l_id e, 2025, Import2025.seasonEndDate).

(** The snapshot carries the home runs of the CSV row: all of them
    regular season. *)
Definition holds (hr : Z) (row : Prisma.StatRow) : Prop :=
  Prisma.st_hrsTotal row = hr
  /\ Prisma.st_hrsRegularSeason row = hr
  /\ Prisma.st_hrsPostseason row = 0.

(** What an import of players with the external ids [ids] may do to a
    store: the Player table stays as it is, no snapshot is removed, and
    a snapshot is written only under the season-end key of a Player on
    record whose external id is among [ids]. *)
Definition importFrame (ids : list jsstring) (s s' : Prisma.Store) : Prop :=
  Prisma.Player s' = Prisma.Player s
  /\ (forall k, is_Some (Prisma.PlayerStats s !! k) ->
                is_Some (Prisma.PlayerStats s' !! k))
  /\ (forall k,
        (forall e, e ∈ Prisma.Player s -> Prisma.l_mlbId e ∈ ids ->
                   k <> seasonEndKey e) ->
        Prisma.PlayerStats s' !! k = Prisma.PlayerStats s !! k).

(** A CSV file whose only data row names a player nobody knows. *)
Definition csvStranger : Import2025.CSVPlayer :=
  Import2025.mkCSVPlayer (js "Juan Soto") (js "NYM") 41.

(** The external ids the import computes for the players of a list. *)
Definition slugs (toLowerCase : jsstring -> jsstring)
    (l : list Import2025.CSVPlayer) : list jsstring :=
  (fun p => Import2025.slugOf toLowerCase (Import2025.csv_name p)) <$> l.

(** A file with two rows for Judge, 30 home runs first and 45 last. *)
Definition csvTwoJudges : jsstring :=
  js "name,team,hr" ++ [LF] ++ js "Aaron Judge,NYY,30" ++ [LF]
  ++ js "Aaron Judge,NYY,45".

Definition archiveJudge : Prisma.PlayerRow :=
  Prisma.mkPlayerRow 7 (js "aaron-judge") (js "Aaron Judge") (js "NYY")
    2025 58 true None 0 0.

(** The three counts of a snapshot. *)
Definition counts (r : Prisma.StatRow) : Z * Z * Z :=
  (Prisma.st_hrsTotal r, Prisma.st_hrsRegularSeason r, Prisma.st_hrsPostseason r).

(** The home runs of the last player of the list whose computed
    external id resolves to a Player with the snapshot key [k]. *)
Fixpoint lastWritten (toLowerCase : jsstring -> jsstring)
    (rows : list Prisma.PlayerRow) (l : list Import2025.CSVPlayer)
    (k : N * Z * Z) : option Z :=
  match l with
  | [] => None
  | p :: l' =>
      match lastWritten toLowerCase rows l' k with
      | Some hr => Some hr
      | None =>
          match List.find
                  (Prisma.hasMlbId
                     (Import2025.slugOf toLowerCase (Import2025.csv_name p)))
                  rows with
          | Some e =>
              if bool_decide (seasonEndKey e = k)
              then Some (Import2025.csv_homeRuns p) else None
          | None => None
          end
      end
  end.

(* ===================================================================== *)
(** ** Notions used to state what the earlier resolver leaves alone *)
(* ===================================================================== *)

(** What a run of the earlier resolver over the records [l] may do to a
    Player row: nothing, or, if a record carries the row's external id,
    anything that keeps its id, external id, season and creation
    time. *)
Definition legacyTouched (l : list PlayerData) (x y : Prisma.PlayerRow) : Prop :=
  x = y
  \/ (Prisma.l_id y = Prisma.l_id x
      /\ Prisma.l_mlbId y = Prisma.l_mlbId x
      /\ Prisma.l_seasonYear y = Prisma.l_seasonYear x
      /\ Prisma.l_createdAt y = Prisma.l_createdAt x
      /\ exists p, p ∈ l /\ mlbId p = Prisma.l_mlbId x).

(** The snapshots are untouched; the Player rows are still there, in
    their places, touched only as [legacyTouched] allows, and the rows
    that follow them are new and carry external ids of the records. *)
Definition legacyExtends (l : list PlayerData) (s s' : Prisma.Store) : Prop :=
  Prisma.PlayerStats s' = Prisma.PlayerStats s
  /\ exists kept new,
       Prisma.Player s' = kept ++ new
       /\ Forall2 (legacyTouched l) (Prisma.Player s) kept
       /\ Forall (fun r => exists p, p ∈ l /\ mlbId p = Prisma.l_mlbId r) new.

(** A line of the import scripts' CSV file. *)
Definition csvFileLine (playerName team homeRuns : jsstring) : jsstring :=
  playerName ++ [COMMA] ++ team ++ [COMMA] ++ homeRuns.

(** Judge as fetched for 2024, while the store holds him for 2025. *)
Definition judge2024 : PlayerData :=
  mkPlayerData (js "Aaron Judge") (js "mlb-592450") (js "NYY") 37 None.

(* ===================================================================== *)
(** ** Notions used to state what a fetch returns *)
(* ===================================================================== *)

(** A row of the export, field by field, as the site writes it. *)
Record ExportRow := mkExportRow {
  x_lastName : jsstring;
  x_firstName : jsstring;
  x_playerId : jsstring;
  x_year : jsstring;
  x_homeRuns : jsstring;
}.

Definition notLF (c : N) : bool := negb (c =? LF)%N.

(** The name parts hold no quote, comma or line feed and no white space
    at either end; the three numbers are non-empty runs of digits, the
    home runs small enough for a double to hold them exactly. *)
Definition wellFormedRow (x : ExportRow) : Prop :=
  plain (x_lastName x) = true /\ plain (x_firstName x) = true
  /\ forallb notLF (x_lastName x) = true
  /\ forallb notLF (x_firstName x) = true
  /\ trimmed (x_lastName x) /\ trimmed (x_firstName x)
  /\ isNumber (x_playerId x) = true
  /\ isNumber (x_year x) = true
  /\ isNumber (x_homeRuns x) = true
  /\ decimalValue (x_homeRuns x) < 2 ^ 53.

Definition rowLine (x : ExportRow) : jsstring :=
  exportLine (x_lastName x) (x_firstName x) (x_playerId x) (x_year x)
    (x_homeRuns x).

(** The export: the header line, then one line per row, each ended by
    a line feed. *)
Definition exportBody (hdr : jsstring) (rows : list ExportRow) : jsstring :=
  hdr ++ [LF] ++ concat ((fun x => rowLine x ++ [LF]) <$> rows).

(** The normalized record of a row, if the row reaches 10 home runs. *)
Definition recordOf (x : ExportRow) : option PlayerData :=
  if 10 <=? decimalValue (x_homeRuns x)
  then Some (mkPlayerData (x_firstName x ++ [SPACE] ++ x_lastName x)
               (js "mlb-" ++ x_playerId x) (js "UNK")
               (decimalValue (x_homeRuns x)) None)
  else None.

(** A world whose site answers every request with the given text. *)
Definition servingWorld (body : jsstring) : World Store :=
  mkWorld emptyStore 0 [] (fun _ => Resolved (TextData body)).

(** An export of two rows that the connection cut in the middle of the
    second row, the same export whole, and an error page sent in place
    of the export. *)
Definition cutBody : jsstring :=
  header ++ [LF]
  ++ csvRow "Judge, Aaron" ",592450,2025,58" ++ [LF]
  ++ csvRow "Soto, Juan" ",665742,20".

Definition wholeBody : jsstring := cutBody ++ js "25,41" ++ [LF].

Definition errorPage : jsstring :=
  js "<html><body><h1>503 Service Unavailable</h1></body></html>".

(** The rows of the sample export [dupBody]. *)
Definition dupRows : list ExportRow :=
  [mkExportRow (js "Judge") (js "Aaron") (js "592450") (js "2025") (js "58");
   mkExportRow (js "Doe") (js "John") (js "123") (js "2025") (js "9");
   mkExportRow (js "Judge") (js "Aaron") (js "592450") (js "2025") (js "60")].
Example parseInt_hex : parseInt (js " 0x1A rest") = Some 26.
Proof. reflexivity. Qed.
Example parseInt_nan : parseInt (js "HR") = None.
Proof. reflexivity. Qed.
Example parseLine_judge :
  Csv.parseLine (csvRow "Judge, Aaron" ",592450,2025,58")
  = Some (mkPlayerData (js "Aaron Judge") (js "mlb-592450") (js "UNK") 58 None).
Proof. vm_compute. reflexivity. Qed.
Example csvUrl_2025 :
  csvUrl 2025 =
  js "https://baseballsavant.mlb.com/leaderboard/custom?year=2025&type=batter&filter=&min=q&selections=home_run&chart=false&x=home_run&y=home_run&r=no&chartType=beeswarm&sort=home_run&sortDir=desc&csv=true".
Proof. vm_compute. reflexivity. Qed.

Example regexMatch_leftmost :
  Csv.fullName <$> Csv.regexMatch
    (js "x" ++ [QUOTE] ++ js "a" ++ [QUOTE] ++ js "b" ++ [QUOTE] ++ js "c"
     ++ [QUOTE] ++ js ",1,2,30 trailing")
  = Some (js "c").
Proof. vm_compute. reflexivity. Qed.

Example parseLine_below_ten :
  Csv.parseLine (csvRow "Doe, John" ",123,2025,9") = None.
Proof. vm_compute. reflexivity. Qed.
Example parseCsv_header_skipped :
  Csv.parseCsv (csvRow "Judge, Aaron" ",592450,2025,58") = [].
Proof. vm_compute. reflexivity. Qed.

(* ===================================================================== *)
(** ** Source fetcher: what a fetch returns *)
(* ===================================================================== *)

Lemma scrape_text {S} year (w : World S) body :
  upstream w (csvUrl year) = Resolved (TextData body) ->
  scrapePlayerStats year w = (Returned (Csv.parseCsv body), w).
Proof.
  intros Hup. unfold scrapePlayerStats, tryCatch, bind, axios_get.
  rewrite Hup. reflexivity.
Qed.

Lemma scrape_other {S} year (w : World S) msg :
  upstream w (csvUrl year) = Resolved (OtherData msg) ->
  scrapePlayerStats year w = (Threw (scrapeFailure msg), w).
Proof.
  intros Hup. unfold scrapePlayerStats, tryCatch, bind, axios_get.
  rewrite Hup. reflexivity.
Qed.

Lemma scrape_rejected {S} year (w : World S) e :
  upstream w (csvUrl year) = Rejected e ->
  scrapePlayerStats year w =
    (Threw (scrapeFailure match e with
                          | ErrorObj m => m
                          | NonError => js "Unknown error"
                          end), w).
Proof.
  intros Hup. unfold scrapePlayerStats, tryCatch, bind, axios_get.
  rewrite Hup. reflexivity.
Qed.

Lemma scrape_returned_inv {S} year (w : World S) players w' :
  scrapePlayerStats year w = (Returned players, w') ->
  exists body, upstream w (csvUrl year) = Resolved (TextData body)
               /\ players = Csv.parseCsv body /\ w' = w.
Proof.
  intros Hrun. destruct (upstream w (csvUrl year)) as [e | [body | msg]] eqn:Hup.
  - rewrite (scrape_rejected _ _ _ Hup) in Hrun. discriminate.
  - rewrite (scrape_text _ _ _ Hup) in Hrun. inversion Hrun. eauto.
  - rewrite (scrape_other _ _ _ Hup) in Hrun. discriminate.
Qed.

Lemma parseLine_inv line p :
  Csv.parseLine line = Some p ->
  exists g hr,
    Csv.regexMatch line = Some g
    /\ parseInt (Csv.homeRunsStr g) = Some hr
    /\ 10 <= hr
    /\ homeRuns p = hr
    /\ mlbId p = js "mlb-" ++ Csv.playerId g.
Proof.
  unfold Csv.parseLine. intros H.
  destruct (Csv.regexMatch line) as [g|]; [|discriminate].
  destruct (parseInt (Csv.homeRunsStr g)) as [hr|] eqn:Hhr; [|discriminate].
  destruct (Z.leb_spec 10 hr) as [Hle|Hlt]; [|discriminate].
  injection H as <-. exists g, hr. simpl. auto.
Qed.

Lemma parseLine_below line g hr :
  Csv.regexMatch line = Some g ->
  parseInt (Csv.homeRunsStr g) = Some hr ->
  hr < 10 ->
  Csv.parseLine line = None.
Proof.
  intros Hm Hp Hlt. unfold Csv.parseLine. rewrite Hm, Hp.
  destruct (Z.leb_spec 10 hr); [lia | reflexivity].
Qed.

Lemma parseCsv_eligible data :
  Forall (fun p => 10 <= homeRuns p) (Csv.parseCsv data).
Proof.
  unfold Csv.parseCsv. apply Forall_forall. intros p Hin.
  apply list_elem_of_omap in Hin as (line & _ & Hline).
  apply parseLine_inv in Hline as (g & hr & _ & _ & Hle & Hhr & _).
  lia.
Qed.

Lemma omap_length_le {A B} (f : A -> option B) (l : list A) :
  (length (omap f l) <= length l)%nat.
Proof.
  induction l as [|x l IH]; simpl; [lia|].
  change (list_omap A B f l) with (omap f l).
  destruct (f x); simpl; lia.
Qed.

Lemma omap_drops {A B} (f : A -> option B) (l : list A) x :
  x ∈ l -> f x = None -> (length (omap f l) < length l)%nat.
Proof.
  induction 1 as [x l | x y l Hin IH]; intros Hnone; simpl.
  - rewrite Hnone. change (list_omap A B f l) with (omap f l).
    pose proof (omap_length_le f l). lia.
  - specialize (IH Hnone). change (list_omap A B f l) with (omap f l).
    destruct (f y); simpl; lia.
Qed.

(* ===================================================================== *)
(** ** Identity resolver: an iteration whose requests are all served *)
(* ===================================================================== *)

Lemma request_served {A} (serve : Store -> Outcome A * Store) w :
  faults w = [] ->
  request serve w =
    (fst (serve (store w)),
     mkWorld (snd (serve (store w))) (clock w + 1) [] (upstream w)).
Proof.
  intros Hf. unfold request. rewrite Hf. simpl.
  destruct (serve (store w)); reflexivity.
Qed.

Lemma find_hasMlbId_Some m rows e :
  List.find (hasMlbId m) rows = Some e -> e ∈ rows /\ row_mlbId e = m.
Proof.
  intros H. apply find_some in H as [Hin Hm].
  split; [by apply list_elem_of_In|].
  unfold hasMlbId in Hm. by apply bool_decide_eq_true in Hm.
Qed.

Lemma find_hasMlbId_None m rows :
  List.find (hasMlbId m) rows = None ->
  existsb (hasMlbId m) rows = false.
Proof.
  intros H. destruct (existsb (hasMlbId m) rows) eqn:Hex; [|reflexivity].
  apply existsb_exists in Hex as (x & Hin & Hx).
  by rewrite (find_none _ _ H x Hin) in Hx.
Qed.

Lemma find_hasMlbId_None_iff m rows :
  List.find (hasMlbId m) rows = None <-> ~ (exists r, r ∈ rows /\ row_mlbId r = m).
Proof.
  split.
  - intros H (r & Hin & Hm). apply list_elem_of_In in Hin.
    pose proof (find_none _ _ H r Hin) as Hr. unfold hasMlbId in Hr.
    apply bool_decide_eq_false in Hr. contradiction.
  - intros H. destruct (List.find (hasMlbId m) rows) as [e|] eqn:He; [|done].
    apply find_hasMlbId_Some in He. exfalso. apply H. eauto.
Qed.

Lemma filter_hasId_unique rows e :
  NoDup (row_id <$> rows) -> e ∈ rows ->
  List.filter (hasId (row_id e)) rows = [e].
Proof.
  induction rows as [|x rows IH]; intros Hnd Hin; [by apply elem_of_nil in Hin|].
  rewrite fmap_cons in Hnd. apply NoDup_cons in Hnd as [Hx Hnd].
  assert (Hnone : forall y, y ∈ rows -> row_id y = row_id x -> False).
  { intros y Hy Heq. apply Hx. rewrite <- Heq. apply list_elem_of_fmap. eauto. }
  apply elem_of_cons in Hin as [-> | Hin]; simpl.
  - unfold hasId at 1. rewrite N.eqb_refl. f_equal.
    clear IH Hx Hnd. induction rows as [|y rows IH]; [reflexivity|]. simpl.
    destruct (hasId (row_id x) y) eqn:Hy.
    + exfalso. apply (Hnone y); [left|]. by apply N.eqb_eq in Hy.
    + apply IH. intros z Hz. apply Hnone. by right.
  - destruct (hasId (row_id e) x) eqn:Hxe.
    + exfalso. apply N.eqb_eq in Hxe. by apply (Hnone e).
    + by apply IH.
Qed.

Lemma playerDb_upsert_served now p w :
  faults w = [] ->
  NoDup (row_id <$> Player (store w)) ->
  playerDb.upsert (mlbId p) (seedCreate now p) (seedPatch now p) w =
    (Returned (fst (servedPlayer now p (store w))),
     mkWorld (snd (servedPlayer now p (store w))) (clock w + 2) []
       (upstream w)).
Proof.
  intros Hf Hnd. unfold playerDb.upsert, bind, playerDb.findFirst.
  rewrite (request_served _ _ Hf). cbn [fst snd]. unfold servedPlayer.
  destruct (List.find (hasMlbId (mlbId p)) (Player (store w))) as [e|] eqn:He.
  - unfold playerDb.update. rewrite request_served by reflexivity.
    cbn [store clock upstream].
    apply find_hasMlbId_Some in He as [Hin _].
    rewrite (filter_hasId_unique _ _ Hnd Hin). cbn [fst snd].
    do 2 f_equal. lia.
  - unfold playerDb.create. rewrite request_served by reflexivity.
    cbn [store clock upstream c_mlbId seedCreate].
    rewrite (find_hasMlbId_None _ _ He). cbn [fst snd].
    do 2 f_equal. lia.
Qed.

(** An iteration whose requests are served: the Player upsert is
    applied, then step 2 throws and the record is counted as skipped. *)
Lemma seedOne_served yr c p w :
  faults w = [] ->
  NoDup (row_id <$> Player (store w)) ->
  seedOne yr c p w =
    (Returned (skipped c),
     mkWorld (servedStore (clock w) p (store w)) (clock w + 2) []
       (upstream w)).
Proof.
  intros Hf Hnd. unfold seedOne, tryCatch, bind at 1, newDate.
  unfold bind at 1.
  change (mkPlayerCreate (mlbId p) (name p) (teamAbbr p) (photoOrNull p)
            (clock w) (clock w)) with (seedCreate (clock w) p).
  change (mkPlayerPatch None (Some (teamAbbr p)) None (Some (clock w)))
    with (seedPatch (clock w) p).
  rewrite (playerDb_upsert_served _ _ _ Hf Hnd).
  reflexivity.
Qed.

(* ===================================================================== *)
(** ** Identity resolver: what a served iteration does to the store *)
(* ===================================================================== *)

Lemma NoDup_fmap_eq {A B} (f : A -> B) (l : list A) x y :
  NoDup (f <$> l) -> x ∈ l -> y ∈ l -> f x = f y -> x = y.
Proof.
  induction l as [|a l IH]; intros Hnd Hx Hy Hxy; [by apply elem_of_nil in Hx|].
  rewrite fmap_cons in Hnd. apply NoDup_cons in Hnd as [Ha Hnd].
  apply elem_of_cons in Hx as [-> | Hx]; apply elem_of_cons in Hy as [-> | Hy].
  - reflexivity.
  - exfalso. apply Ha. rewrite Hxy. apply list_elem_of_fmap. eauto.
  - exfalso. apply Ha. rewrite <- Hxy. apply list_elem_of_fmap. eauto.
  - by apply IH.
Qed.

(** The rows of [Player] after a served upsert, case by case. *)
Lemma servedPlayer_rows now p s :
  match List.find (hasMlbId (mlbId p)) (Player s) with
  | Some e =>
      Player (snd (servedPlayer now p s)) =
        (fun x => if hasId (row_id e) x
                  then applyPatch (seedPatch now p) x else x) <$> Player s
      /\ fst (servedPlayer now p s) = applyPatch (seedPatch now p) e
      /\ nextId (snd (servedPlayer now p s)) = nextId s
      /\ PlayerSeasonStats (snd (servedPlayer now p s)) = PlayerSeasonStats s
      /\ writes (snd (servedPlayer now p s)) =
           writes s ++ [Updated TPlayer (row_id e)]
  | None =>
      Player (snd (servedPlayer now p s)) =
        Player s ++ [mkPlayerRow (nextId s) (mlbId p) (name p) (teamAbbr p)
                       (photoOrNull p) now now]
      /\ fst (servedPlayer now p s) =
           mkPlayerRow (nextId s) (mlbId p) (name p) (teamAbbr p)
             (photoOrNull p) now now
      /\ nextId (snd (servedPlayer now p s)) = N.succ (nextId s)
      /\ PlayerSeasonStats (snd (servedPlayer now p s)) = PlayerSeasonStats s
      /\ writes (snd (servedPlayer now p s)) =
           writes s ++ [Inserted TPlayer (nextId s)]
  end.
Proof.
  unfold servedPlayer.
  destruct (List.find (hasMlbId (mlbId p)) (Player s)); cbn; auto.
Qed.

Lemma patched_ids (f : PlayerRow -> PlayerRow) (test : PlayerRow -> bool) (rows : list PlayerRow) :
  (forall x, row_id (f x) = row_id x) ->
  row_id <$> ((fun x => if test x then f x else x) <$> rows) = row_id <$> rows.
Proof.
  intros Hf. rewrite <- list_fmap_compose. apply list_fmap_ext.
  intros i x _. cbn. destruct (test x); [apply Hf | reflexivity].
Qed.

Lemma patched_mlbIds (f : PlayerRow -> PlayerRow) (test : PlayerRow -> bool) (rows : list PlayerRow) :
  (forall x, row_mlbId (f x) = row_mlbId x) ->
  row_mlbId <$> ((fun x => if test x then f x else x) <$> rows)
  = row_mlbId <$> rows.
Proof.
  intros Hf. rewrite <- list_fmap_compose. apply list_fmap_ext.
  intros i x _. cbn. destruct (test x); [apply Hf | reflexivity].
Qed.

(** The two ways the resolver changes table [Player] keep the schema
    constraints: rewriting rows in place, and appending a row with a
    fresh id and an unseen external id. *)
Lemma wf_store_patched (f : PlayerRow -> PlayerRow) (test : PlayerRow -> bool)
    s seasons journal_ :
  (forall x, row_id (f x) = row_id x) ->
  (forall x, row_mlbId (f x) = row_mlbId x) ->
  wf_store s ->
  wf_store (mkStore ((fun x => if test x then f x else x) <$> Player s)
              seasons (nextId s) journal_).
Proof.
  intros Hfid Hfml (Hid & Hml & Hlt). unfold wf_store. cbn [Player nextId].
  rewrite patched_ids, patched_mlbIds by done.
  split; [done|]. split; [done|].
  apply Forall_fmap. eapply Forall_impl; [exact Hlt|].
  intros x Hx. cbn. destruct (test x); [by rewrite Hfid | done].
Qed.

Lemma wf_store_appended r s seasons journal_ :
  row_id r = nextId s ->
  existsb (hasMlbId (row_mlbId r)) (Player s) = false ->
  wf_store s ->
  wf_store (mkStore (Player s ++ [r]) seasons (N.succ (nextId s)) journal_).
Proof.
  intros Hr Hnew (Hid & Hml & Hlt). unfold wf_store. cbn [Player nextId].
  rewrite !fmap_app. cbn. repeat split.
  - apply NoDup_app. split; [done|]. split; [|apply NoDup_singleton].
    intros i Hi Hi'. apply list_elem_of_singleton in Hi' as ->.
    apply list_elem_of_fmap in Hi as (x & Hx & Hin).
    rewrite Forall_forall in Hlt. specialize (Hlt x Hin). lia.
  - apply NoDup_app. split; [done|]. split; [|apply NoDup_singleton].
    intros m Hm Hm'. apply list_elem_of_singleton in Hm' as ->.
    apply list_elem_of_fmap in Hm as (x & Hx & Hin).
    assert (existsb (hasMlbId (row_mlbId r)) (Player s) = true); [|congruence].
    apply existsb_exists. exists x. split; [by apply list_elem_of_In|].
    unfold hasMlbId. by apply bool_decide_eq_true.
  - apply Forall_app. split.
    + eapply Forall_impl; [exact Hlt|]. intros x Hx. cbn in *. lia.
    + apply Forall_singleton. lia.
Qed.

Lemma servedPlayer_wf now p s :
  wf_store s -> wf_store (snd (servedPlayer now p s)).
Proof.
  intros Hwf. unfold servedPlayer.
  destruct (List.find (hasMlbId (mlbId p)) (Player s)) as [e|] eqn:He;
    cbn [snd].
  - by apply wf_store_patched.
  - apply wf_store_appended; [done | | done].
    by apply find_hasMlbId_None.
Qed.

Lemma servedStore_wf now p s :
  wf_store s -> wf_store (servedStore now p s).
Proof. apply servedPlayer_wf. Qed.

Lemma servedRun_wf l : forall now s,
  wf_store s -> wf_store (servedRun now l s).
Proof.
  induction l as [|p l IH]; intros now s Hwf; [done|].
  cbn. apply IH. by apply servedStore_wf.
Qed.

Lemma servedRun_snoc l p : forall now s,
  servedRun now (l ++ [p]) s =
    servedStore (now + 2 * Z.of_nat (length l)) p (servedRun now l s).
Proof.
  induction l as [|x l IH]; intros now s; cbn [servedRun app length].
  - f_equal. lia.
  - rewrite IH. f_equal. lia.
Qed.

(** A run whose requests are all served is [servedRun]; every record
    ends in the [catch] clause. *)
Lemma forOf_seedOne_served yr l : forall c w,
  faults w = [] -> wf_store (store w) ->
  exists c',
    forOf l c (seedOne yr) w =
      (Returned c',
       mkWorld (servedRun (clock w) l (store w))
         (clock w + 2 * Z.of_nat (length l)) [] (upstream w))
    /\ createdCount c' = createdCount c
    /\ updatedCount c' = updatedCount c
    /\ skippedCount c' = skippedCount c + Z.of_nat (length l).
Proof.
  induction l as [|p l IH]; intros c w Hf Hwf.
  - exists c. cbn. unfold ret. destruct w; cbn in *; subst.
    repeat split; try lia. do 2 f_equal. lia.
  - cbn [forOf]. unfold bind.
    rewrite (seedOne_served _ _ _ _ Hf (proj1 Hwf)).
    destruct (IH (skipped c)
                (mkWorld (servedStore (clock w) p (store w)) (clock w + 2)
                   [] (upstream w)) eq_refl
                (servedStore_wf _ _ _ Hwf)) as (c' & Hrun & Hc & Hu & Hs).
    exists c'. rewrite Hrun. cbn in *. repeat split; try lia.
    do 2 f_equal. lia.
Qed.
Lemma servedStore_teams now p s r' :
  wf_store s ->
  r' ∈ Player (servedStore now p s) ->
  (row_mlbId r' = mlbId p -> row_teamAbbr r' = teamAbbr p)
  /\ (row_mlbId r' <> mlbId p -> r' ∈ Player s).
Proof.
  intros (Hid & Hml & _). unfold servedStore.
  pose proof (servedPlayer_rows now p s) as H.
  destruct (List.find (hasMlbId (mlbId p)) (Player s)) as [e|] eqn:He.
  - destruct H as (-> & _). apply find_hasMlbId_Some in He as [Hein Hem].
    intros Hin. apply list_elem_of_fmap in Hin as (x & -> & Hx).
    destruct (hasId (row_id e) x) eqn:Hxe.
    + split; [reflexivity|]. intros Hne. exfalso. apply Hne. cbn.
      apply N.eqb_eq in Hxe.
      by rewrite (NoDup_fmap_eq row_id _ x e Hid Hx Hein Hxe).
    + split; [|done]. intros Hm. exfalso.
      rewrite <- Hem in Hm.
      rewrite (NoDup_fmap_eq row_mlbId _ x e Hml Hx Hein Hm) in Hxe.
      unfold hasId in Hxe. by rewrite N.eqb_refl in Hxe.
  - destruct H as (-> & _). intros Hin.
    apply elem_of_app in Hin as [Hin | Hin].
    + split; [|done]. intros Hm. exfalso.
      apply find_hasMlbId_None_iff in He. apply He. eauto.
    + apply list_elem_of_singleton in Hin as ->. split; [reflexivity|].
      intros Hne. by exfalso.
Qed.

(** A served iteration keeps every row, under its id and external id. *)
Lemma servedStore_keeps now p s r :
  r ∈ Player s ->
  exists r', r' ∈ Player (servedStore now p s)
             /\ row_id r' = row_id r /\ row_mlbId r' = row_mlbId r.
Proof.
  intros Hin. unfold servedStore.
  pose proof (servedPlayer_rows now p s) as H.
  destruct (List.find (hasMlbId (mlbId p)) (Player s)) as [e|].
  - destruct H as (-> & _). eexists. split; [apply list_elem_of_fmap_2, Hin|].
    cbn. by destruct (hasId (row_id e) r).
  - destruct H as (-> & _). exists r. split; [|done].
    apply elem_of_app. by left.
Qed.

Lemma servedStore_known_mono now p s m :
  known m s -> known m (servedStore now p s).
Proof.
  intros (r & Hr & Hm).
  destruct (servedStore_keeps now p s r Hr) as (r' & Hr' & _ & Hml).
  exists r'. split; [done|congruence].
Qed.

(** A served iteration leaves the record's player on record. *)
Lemma servedStore_known_self now p s :
  known (mlbId p) (servedStore now p s).
Proof.
  unfold known, servedStore.
  pose proof (servedPlayer_rows now p s) as H.
  destruct (List.find (hasMlbId (mlbId p)) (Player s)) as [e|] eqn:He.
  - destruct H as (-> & _). apply find_hasMlbId_Some in He as [Hein Hem].
    eexists. split; [apply list_elem_of_fmap_2, Hein|].
    cbn. by destruct (hasId (row_id e) e).
  - destruct H as (-> & _). eexists. split.
    + apply elem_of_app. right. by apply list_elem_of_singleton.
    + reflexivity.
Qed.

Lemma lastTeam_snoc l p m :
  lastTeam (l ++ [p]) m =
    if bool_decide (mlbId p = m) then Some (teamAbbr p) else lastTeam l m.
Proof.
  induction l as [|x l IH]; cbn.
  - by destruct (bool_decide (mlbId p = m)).
  - rewrite IH. destruct (bool_decide (mlbId p = m)); [done|].
    reflexivity.
Qed.

Lemma lastTeam_elem l p :
  p ∈ l -> is_Some (lastTeam l (mlbId p)).
Proof.
  induction 1 as [p l | p x l Hin IH]; cbn.
  - destruct (lastTeam l (mlbId p)); [done|].
    rewrite bool_decide_eq_true_2 by done. done.
  - destruct IH as [t ->]. done.
Qed.

Lemma servedRun_settled l : forall now s,
  wf_store s -> settled l (servedRun now l s).
Proof.
  induction l as [|p l IH] using rev_ind; intros now s Hwf r t Hin Hlast.
  - discriminate.
  - rewrite servedRun_snoc in Hin. rewrite lastTeam_snoc in Hlast.
    pose proof (servedRun_wf l now s Hwf) as Hwf'.
    destruct (servedStore_teams _ _ _ _ Hwf' Hin) as [Hsame Hother].
    destruct (bool_decide (mlbId p = row_mlbId r)) eqn:Hd.
    + apply bool_decide_eq_true in Hd. injection Hlast as <-.
      by apply Hsame.
    + apply bool_decide_eq_false in Hd.
      apply (IH now s Hwf); [|done]. apply Hother. congruence.
Qed.

(** After a served run every record's player is on record. *)
Lemma servedRun_known l : forall now s,
  Forall (fun p => known (mlbId p) (servedRun now l s)) l.
Proof.
  induction l as [|p l IH] using rev_ind; intros now s; [constructor|].
  rewrite servedRun_snoc. apply Forall_app. split.
  - eapply Forall_impl; [apply (IH now s)|].
    intros p0 Hp0. by apply servedStore_known_mono.
  - apply Forall_singleton. apply servedStore_known_self.
Qed.

(* ===================================================================== *)
(** ** Identity resolver: iterations under an arbitrary fault schedule *)
(* ===================================================================== *)


Lemma triple_bind {A B} (P : World Store -> Prop) (m : Async A) (k : A -> Async B)
    (Q' : A -> World Store -> Prop) (Q : B -> World Store -> Prop) (E : World Store -> Prop) :
  triple P m Q' E -> (forall a, triple (Q' a) (k a) Q E) ->
  triple P (bind m k) Q E.
Proof.
  intros Hm Hk w Hw. unfold bind. specialize (Hm w Hw).
  destruct (m w) as [[a|e] w']; [|done]. by apply Hk.
Qed.



Lemma triple_weaken {A} (P P' : World Store -> Prop) (m : Async A)
    (Q Q' : A -> World Store -> Prop) (E E' : World Store -> Prop) :
  triple P' m Q' E' ->
  (forall w, P w -> P' w) -> (forall a w, Q' a w -> Q a w) ->
  (forall w, E' w -> E w) ->
  triple P m Q E.
Proof.
  intros Hm HP HQ HE w Hw. specialize (Hm w (HP w Hw)).
  destruct (m w) as [[a|e] w']; auto.
Qed.

Lemma pending_struck {S} (w : World S) e fs (s : S) :
  faults w = Some e :: fs ->
  pending (mkWorld s (clock w + 1) fs (upstream w)) + 1 = pending w.
Proof.
  intros Hf. unfold pending. rewrite Hf. cbn [faults List.filter].
  rewrite bool_decide_eq_true_2 by done. cbn [length]. lia.
Qed.

Lemma pending_served {S} (w : World S) (s : S) c u fs0 :
  faults w = fs0 -> (forall e fs, fs0 <> Some e :: fs) ->
  pending (mkWorld s c (tail fs0) u) = pending w.
Proof.
  intros Hf Hno. unfold pending. rewrite Hf. cbn [faults].
  destruct fs0 as [|[e|] fs]; [done | by destruct (Hno e fs) |].
  cbn [tail List.filter]. rewrite bool_decide_eq_false_2; [done|].
  intros [x Hx]. discriminate.
Qed.

(** The rule for one request: a store transformer that answers, keeps
    the schema constraints and keeps the ids on record. *)
Lemma triple_request {A} (serve : Store -> Outcome A * Store) n K
    (pre : Store -> Prop) (post : A -> Store -> Prop) :
  (forall s, wf_store s -> pre s ->
     exists a s', serve s = (Returned a, s') /\ wf_store s' /\ post a s'
                  /\ forall m, known m s -> known m s') ->
  triple (fun w => steady n K w /\ pre (store w)) (request serve)
    (fun a w => steady n K w /\ post a (store w))
    (struck n K).
Proof.
  intros Hserve w [(Hwf & Hn & HK) Hpre]. unfold request.
  destruct (faults w) as [|[e|] fs] eqn:Hf.
  - destruct (Hserve _ Hwf Hpre) as (a & s' & -> & Hwf' & Hpost & Hkn).
    split; [|exact Hpost]. split; [exact Hwf'|]. split; [|by auto].
    rewrite <- Hn. by apply (pending_served w s' _ _ []).
  - split; [exact Hwf|]. split; [|by auto].
    rewrite <- Hn. by apply (pending_struck w e).
  - destruct (Hserve _ Hwf Hpre) as (a & s' & -> & Hwf' & Hpost & Hkn).
    split; [|exact Hpost]. split; [exact Hwf'|]. split; [|by auto].
    rewrite <- Hn. by apply (pending_served w s' _ _ (None :: fs)).
Qed.

Lemma triple_assume {A} (phi : Prop) (P : World Store -> Prop) (m : Async A)
    (Q : A -> World Store -> Prop) (E : World Store -> Prop) :
  (phi -> triple P m Q E) -> triple (fun w => phi /\ P w) m Q E.
Proof. intros H w [Hphi Hw]. by apply H. Qed.

Lemma triple_findFirst m n K :
  triple (steady n K) (playerDb.findFirst m)
    (fun o w => steady n K w
                /\ match o with
                   | Some e => e ∈ Player (store w) /\ row_mlbId e = m
                   | None => existsb (hasMlbId m) (Player (store w)) = false
                   end)
    (struck n K).
Proof.
  eapply triple_weaken;
    [apply (triple_request _ n K (fun _ => True)
              (fun o s => match o with
                          | Some e => e ∈ Player s /\ row_mlbId e = m
                          | None => existsb (hasMlbId m) (Player s) = false
                          end)) | cbn; auto ..].
  intros s Hwf _. eexists _, s. split; [reflexivity|].
  split; [done|]. split; [|done].
  destruct (List.find (hasMlbId m) (Player s)) eqn:He.
  - by apply find_hasMlbId_Some.
  - by apply find_hasMlbId_None.
Qed.

Lemma known_patched (f : PlayerRow -> PlayerRow) (test : PlayerRow -> bool)
    (s s' : Store) m :
  (forall x, row_mlbId (f x) = row_mlbId x) ->
  Player s' = (fun x => if test x then f x else x) <$> Player s ->
  known m s -> known m s'.
Proof.
  intros Hf HP (r & Hin & Hm). unfold known. rewrite HP.
  eexists. split; [apply list_elem_of_fmap_2, Hin|].
  cbn. destruct (test r); [by rewrite Hf | done].
Qed.

Lemma triple_update e d n K :
  triple (fun w => steady n K w /\ e ∈ Player (store w))
    (playerDb.update (row_id e) d)
    (fun r w => steady n K w
                /\ r ∈ Player (store w) /\ row_mlbId r = row_mlbId e)
    (struck n K).
Proof.
  apply (triple_request _ n K (fun s => e ∈ Player s)
           (fun r s => r ∈ Player s /\ row_mlbId r = row_mlbId e)).
  intros s Hwf Hin.
  rewrite (filter_hasId_unique _ _ (proj1 Hwf) Hin). eexists _, _.
  split; [reflexivity|]. split; [|split].
  - by apply wf_store_patched.
  - split; [|reflexivity]. cbn [journal Player].
    apply list_elem_of_fmap. exists e. split; [|done].
    unfold hasId. by rewrite N.eqb_refl.
  - intros m. by apply known_patched with (f := applyPatch d)
                                          (test := hasId (row_id e)).
Qed.

Lemma triple_create c n K :
  triple (fun w => steady n K w
                   /\ existsb (hasMlbId (c_mlbId c)) (Player (store w)) = false)
    (playerDb.create c)
    (fun r w => steady n K w
                /\ r ∈ Player (store w) /\ row_mlbId r = c_mlbId c)
    (struck n K).
Proof.
  apply (triple_request _ n K
           (fun s => existsb (hasMlbId (c_mlbId c)) (Player s) = false)
           (fun r s => r ∈ Player s /\ row_mlbId r = c_mlbId c)).
  intros s Hwf Hex. rewrite Hex. eexists _, _.
  split; [reflexivity|]. split; [|split].
  - by apply wf_store_appended.
  - split; [|reflexivity]. cbn [Player].
    apply elem_of_app. right. by apply list_elem_of_singleton.
  - intros m (r & Hin & Hm). exists r. split; [|done].
    cbn [Player]. apply elem_of_app. by left.
Qed.

Lemma triple_upsert m c u n K :
  c_mlbId c = m ->
  triple (steady n K) (playerDb.upsert m c u)
    (fun r w => steady n K w /\ r ∈ Player (store w) /\ row_mlbId r = m)
    (struck n K).
Proof.
  intros Hc. unfold playerDb.upsert.
  eapply triple_bind; [apply triple_findFirst|].
  intros [e|].
  - apply triple_weaken with
      (P' := fun w => row_mlbId e = m
                      /\ (steady n K w /\ e ∈ Player (store w)))
      (Q' := fun r w => steady n K w /\ r ∈ Player (store w)
                        /\ row_mlbId r = m)
      (E' := struck n K); [|by intros w (Hs & Hin & Hm) | done | done].
    apply triple_assume. intros Hm.
    eapply triple_weaken; [apply (triple_update e u n K) | done | | done].
    intros r w (Hs & Hin & Hr). rewrite <- Hm. auto.
  - eapply triple_weaken; [apply (triple_create c n K) | cbn ..].
    + intros w (Hs & Hex). rewrite Hc. auto.
    + intros r w (Hs & Hin & Hm). rewrite <- Hc. auto.
    + auto.
Qed.

Lemma wf_store_same_players s s' :
  Player s' = Player s -> (nextId s <= nextId s')%N ->
  wf_store s -> wf_store s'.
Proof.
  intros HP Hn (Hid & Hml & Hlt). unfold wf_store. rewrite HP.
  split; [done|]. split; [done|].
  eapply Forall_impl; [exact Hlt|]. intros x Hx. cbn in *. lia.
Qed.

Lemma known_same_players s s' m :
  Player s' = Player s -> known m s -> known m s'.
Proof. unfold known. by intros ->. Qed.



Lemma forOf_app {W A X} (body : A -> X -> Async (W := W) A) l1 : forall l2 acc w,
  forOf (l1 ++ l2) acc body w =
    match forOf l1 acc body w with
    | (Returned acc', w') => forOf l2 acc' body w'
    | (Threw e, w') => (Threw e, w')
    end.
Proof.
  induction l1 as [|x l1 IH]; intros l2 acc w; [reflexivity|].
  cbn [app forOf]. unfold bind.
  destruct (body acc x w) as [[acc'|e] w']; [apply IH | reflexivity].
Qed.


(* ===================================================================== *)
(** ** Identity resolver: running it again on the same records *)
(* ===================================================================== *)

Lemma sameButTeam_refl l x : sameButTeam l x x.
Proof. split; auto. Qed.

Lemma sameButTeam_mono l l' x y :
  (forall p, p ∈ l -> p ∈ l') -> sameButTeam l x y -> sameButTeam l' x y.
Proof.
  intros Hsub [Hperm [Hteam | (p & Hp & Hm)]]; split; auto.
  right. exists p. auto.
Qed.

Lemma sameButTeam_trans l x y z :
  sameButTeam l x y -> sameButTeam l y z -> sameButTeam l x z.
Proof.
  intros [Hxy Txy] [Hyz Tyz]. split; [congruence|].
  assert (Hm : row_mlbId y = row_mlbId x).
  { unfold permanent in Hxy. congruence. }
  destruct Txy as [Txy | ?]; [|by right].
  destruct Tyz as [Tyz | (p & Hp & Hpm)]; [left; congruence|].
  right. exists p. split; [done|]. congruence.
Qed.

Lemma servedStore_existing now p s :
  wf_store s -> known (mlbId p) s ->
  Forall2 (sameButTeam [p]) (Player s) (Player (servedStore now p s))
  /\ exists r,
       r ∈ Player s /\ row_mlbId r = mlbId p
       /\ writes (servedStore now p s) = writes s ++ rerunJournal [row_id r].
Proof.
  intros (Hid & Hml & Hlt) (r & Hr & Hm).
  pose proof (servedPlayer_rows now p s) as H.
  destruct (List.find (hasMlbId (mlbId p)) (Player s)) as [e|] eqn:He.
  2:{ apply find_hasMlbId_None_iff in He. exfalso. apply He. eauto. }
  apply find_hasMlbId_Some in He as [Hein Hem].
  assert (e = r) as ->.
  { apply (NoDup_fmap_eq row_mlbId (Player s)); auto. congruence. }
  destruct H as (HP & Hfst & Hn & Hss & Hwr).
  unfold servedStore. split.
  - rewrite HP. apply Forall2_fmap_r.
    apply Forall_Forall2_diag. apply Forall_forall. intros x Hx. cbn.
    destruct (hasId (row_id r) x) eqn:Hxr; [|apply sameButTeam_refl].
    split; [reflexivity|]. right. exists p. split; [by left|].
    apply N.eqb_eq in Hxr.
    by rewrite (NoDup_fmap_eq row_id _ x r Hid Hx Hr Hxr).
  - exists r. split; [done|]. split; [done|]. exact Hwr.
Qed.

Lemma Forall2_elem_r {A B} (R : A -> B -> Prop) (l : list A) (k : list B) y :
  Forall2 R l k -> y ∈ k -> exists x, x ∈ l /\ R x y.
Proof.
  induction 1 as [|x y' l k Hxy _ IH]; intros Hy;
    [by apply elem_of_nil in Hy|].
  apply elem_of_cons in Hy as [-> | Hy].
  - exists x. split; [by left | done].
  - destruct (IH Hy) as (x' & Hx' & HR). exists x'. split; [by right | done].
Qed.

Lemma servedRun_rerun l : forall now s,
  wf_store s -> Forall (fun p => known (mlbId p) s) l ->
  Forall2 (sameButTeam l) (Player s) (Player (servedRun now l s))
  /\ exists ids,
       writes (servedRun now l s) = writes s ++ rerunJournal ids
       /\ Forall2 (fun p i => exists r, r ∈ Player s
                                        /\ row_mlbId r = mlbId p
                                        /\ row_id r = i) l ids.
Proof.
  induction l as [|p l IH]; intros now s Hwf Hknown.
  - cbn. split.
    + apply Forall_Forall2_diag, Forall_forall. intros. apply sameButTeam_refl.
    + exists []. cbn. by rewrite app_nil_r.
  - apply Forall_cons in Hknown as [Hp Hknown]. cbn [servedRun].
    destruct (servedStore_existing now p s Hwf Hp)
      as (H1 & r & Hr & Hrm & Hw1).
    assert (Hwf1 := servedStore_wf now p s Hwf).
    assert (Hknown1 : Forall (fun p0 => known (mlbId p0) (servedStore now p s)) l).
    { eapply Forall_impl; [exact Hknown|].
      intros p0. apply servedStore_known_mono. }
    destruct (IH (now + 2) _ Hwf1 Hknown1) as (H2 & ids & Hw2 & Hids).
    split.
    + eapply Forall2_trans; [|exact H1|exact H2].
      intros x y z Hxy Hyz. apply sameButTeam_trans with y.
      * eapply sameButTeam_mono; [|exact Hxy].
        intros p0 Hp0. apply list_elem_of_singleton in Hp0 as ->. by left.
      * eapply sameButTeam_mono; [|exact Hyz]. intros p0 Hp0. by right.
    + exists (row_id r :: ids).
      rewrite Hw2, Hw1, <- app_assoc. split; [done|].
      constructor; [by exists r|].
      eapply Forall2_impl; [exact Hids|].
      intros p0 i (r1 & Hr1 & Hm1 & Hi1).
      destruct (Forall2_elem_r _ _ _ _ H1 Hr1) as (r0 & Hr0 & Hperm & _).
      exists r0. unfold permanent in Hperm.
      split; [done|]. split; congruence.
Qed.

Lemma Forall2_elems {A B} (R : A -> B -> Prop) (l : list A) (k : list B) :
  Forall2 R l k -> Forall2 (fun x y => x ∈ l /\ y ∈ k /\ R x y) l k.
Proof.
  induction 1 as [|x y l k Hxy Hlk IH]; constructor.
  - split; [by left|]. split; [by left|]. done.
  - eapply Forall2_impl; [exact IH|].
    intros a b (Ha & Hb & Hab). split; [by right|]. split; [by right|]. done.
Qed.

Lemma settled_identity l s1 s2 :
  settled l s1 -> settled l s2 ->
  Forall2 (sameButTeam l) (Player s1) (Player s2) ->
  identity <$> Player s2 = identity <$> Player s1.
Proof.
  intros H1 H2 HF. symmetry. apply list_eq_Forall2, Forall2_fmap.
  eapply Forall2_impl; [apply Forall2_elems, HF|].
  intros x y (Hx & Hy & Hperm & Hteam). cbn.
  assert (Ht : row_teamAbbr x = row_teamAbbr y).
  { destruct Hteam as [Ht | (p & Hp & Hm)]; [done|].
    destruct (lastTeam_elem l p Hp) as [t Ht].
    assert (Hmy : row_mlbId y = row_mlbId x).
    { unfold permanent in Hperm. congruence. }
    rewrite (H1 x t Hx) by congruence.
    rewrite (H2 y t Hy) by congruence. done. }
  unfold identity, permanent in *. congruence.
Qed.

(* ===================================================================== *)
(** ** Identity resolver: the properties of the specification *)
(* ===================================================================== *)

(** The spec's sentence on repeated runs, as it stands, fails: on an
    empty store the second run over the same single record writes once
    more, and moves the row's [updatedAt]. *)
Lemma resolver_second_run_writes :
  let w1 := snd (seedPlayersToDatabase [judge] 2025 (quietWorld emptyStore)) in
  let w2 := snd (seedPlayersToDatabase [judge] 2025 w1) in
  writes (store w1) = [Inserted TPlayer 0]
  /\ writes (store w2) = writes (store w1) ++ [Updated TPlayer 0]
  /\ row_updatedAt <$> Player (store w1) = [0]
  /\ row_updatedAt <$> Player (store w2) = [2]
  /\ store w2 <> store w1.
Proof.
  cbv zeta. repeat split; try (vm_compute; reflexivity).
  vm_compute. discriminate.
Qed.

(** C3, amended.  When the storage service answers every request, a
    second run of the identity resolver over the same fetched records
    creates no Player and leaves every Player row as the first run left
    it but for [updatedAt]: same rows, same external ids without
    duplicates, same names and the same [teamAbbr].  It is not free of
    writes: record by record it issues one update of the record's
    [Player] row, and no insert; these updates are all the second run
    adds to the journal. *)
Theorem resolver_rerun players yr w :
  faults w = [] -> wf_store (store w) ->
  exists c1 w1 c2 w2,
    seedPlayersToDatabase players yr w = (Returned c1, w1)
    /\ seedPlayersToDatabase players yr w1 = (Returned c2, w2)
    /\ identity <$> Player (store w2) = identity <$> Player (store w1)
    /\ NoDup (row_mlbId <$> Player (store w1))
    /\ exists ids,
         writes (store w2) = writes (store w1) ++ rerunJournal ids
         /\ Forall2 (fun p i => exists r, r ∈ Player (store w1)
                                          /\ row_mlbId r = mlbId p
                                          /\ row_id r = i) players ids.
Proof.
  intros Hf Hwf. unfold seedPlayersToDatabase.
  destruct (forOf_seedOne_served yr players noCounts w Hf Hwf)
    as (c1 & Hrun1 & _).
  set (s1 := servedRun (clock w) players (store w)) in *.
  set (w1 := mkWorld s1 (clock w + 2 * Z.of_nat (length players)) []
               (upstream w)) in *.
  assert (Hwf1 : wf_store (store w1)) by by apply servedRun_wf.
  destruct (forOf_seedOne_served yr players noCounts w1 eq_refl Hwf1)
    as (c2 & Hrun2 & _).
  eexists c1, w1, c2, _. split; [exact Hrun1|]. split; [exact Hrun2|].
  cbn [store clock].
  destruct (servedRun_rerun players (clock w1) s1 Hwf1
              (servedRun_known players (clock w) (store w)))
    as (Hrel & ids & Hj).
  split; [|split; [apply Hwf1 | by exists ids]].
  apply (settled_identity players); [| |exact Hrel].
  - by apply servedRun_settled.
  - by apply servedRun_settled.
Qed.

Lemma resolver_rerun_witness :
  exists c1 w1 c2 w2,
    seedPlayersToDatabase [judge; soto; judge] 2025 (quietWorld emptyStore)
      = (Returned c1, w1)
    /\ seedPlayersToDatabase [judge; soto; judge] 2025 w1 = (Returned c2, w2)
    /\ identity <$> Player (store w2) = identity <$> Player (store w1)
    /\ NoDup (row_mlbId <$> Player (store w1))
    /\ exists ids,
         writes (store w2) = writes (store w1) ++ rerunJournal ids
         /\ Forall2 (fun p i => exists r, r ∈ Player (store w1)
                                          /\ row_mlbId r = mlbId p
                                          /\ row_id r = i)
              [judge; soto; judge] ids.
Proof.
  apply (resolver_rerun [judge; soto; judge] 2025 (quietWorld emptyStore)).
  - reflexivity.
  - repeat split; constructor.
Defined.

(** The two runs of the witness: one insert per new player, then one
    update per record, and every record counted as skipped. *)
Example resolver_rerun_journal :
  let w1 := snd (seedPlayersToDatabase [judge; soto; judge] 2025
                   (quietWorld emptyStore)) in
  writes (store w1)
  = [Inserted TPlayer 0; Inserted TPlayer 1; Updated TPlayer 0]
  /\ writes (store (snd (seedPlayersToDatabase [judge; soto; judge] 2025 w1)))
     = writes (store w1) ++ rerunJournal [0; 1; 0]%N
  /\ fst (seedPlayersToDatabase [judge; soto; judge] 2025 w1)
     = Returned (mkCounts 0 0 3).
Proof. cbv zeta. repeat split; vm_compute; reflexivity. Qed.

(** The spec's sentence on name corrections, as it stands, fails: the
    fetched record spells the name differently, the stored name stays;
    only the team is rewritten. *)
Lemma resolver_keeps_stored_name :
  let w' := snd (seedOne 2025 noCounts judge (quietWorld storeWithJudge)) in
  row_name <$> Player (store w') = [js "A. Judge"]
  /\ row_name <$> Player (store w') <> [name judge]
  /\ row_teamAbbr <$> Player (store w') = [js "UNK"].
Proof.
  cbv zeta. repeat split; try (vm_compute; reflexivity).
  vm_compute. discriminate.
Qed.

Lemma legacy_find_None m rows :
  List.find (Prisma.hasMlbId m) rows = None ->
  ~ (exists r, r ∈ rows /\ Prisma.l_mlbId r = m).
Proof.
  intros H (r & Hin & Hm). apply list_elem_of_In in Hin.
  pose proof (find_none _ _ H r Hin) as Hr. unfold Prisma.hasMlbId in Hr.
  apply bool_decide_eq_false in Hr. contradiction.
Qed.

(** A served [prisma.player.upsert], case by case. *)
Lemma prisma_player_upsert_served m u c (w : World Prisma.Store) :
  faults w = [] ->
  Prisma.player_upsert m u c w =
    match List.find (Prisma.hasMlbId m) (Prisma.Player (store w)) with
    | Some e =>
        (Returned (Prisma.applyUpdate u e),
         mkWorld
           (Prisma.mkStore
              ((fun x => if Prisma.hasMlbId m x
                         then Prisma.applyUpdate u x else x)
                 <$> Prisma.Player (store w))
              (Prisma.PlayerStats (store w)) (Prisma.nextId (store w)))
           (clock w + 1) [] (upstream w))
    | None =>
        let r := Prisma.mkPlayerRow (Prisma.nextId (store w)) (Prisma.pc_mlbId c)
                   (Prisma.pc_name c) (Prisma.pc_teamAbbr c)
                   (Prisma.pc_seasonYear c) (Prisma.pc_hrsPreviousSeason c)
                   (Prisma.pc_isEligible c) (Prisma.pc_photoUrl c)
                   (clock w) (clock w) in
        (Returned r,
         mkWorld
           (Prisma.mkStore (Prisma.Player (store w) ++ [r])
              (Prisma.PlayerStats (store w)) (N.succ (Prisma.nextId (store w))))
           (clock w + 1) [] (upstream w))
    end.
Proof.
  intros Hf. unfold Prisma.player_upsert, bind, newDate, request.
  rewrite Hf. cbn [tail].
  by destruct (List.find (Prisma.hasMlbId m) (Prisma.Player (store w))).
Qed.

(** A served look-up answers and leaves the store alone. *)
Lemma prisma_player_findUnique_served m (w : World Prisma.Store) :
  faults w = [] ->
  exists o, Prisma.player_findUnique m w =
              (Returned o, mkWorld (store w) (clock w + 1) [] (upstream w)).
Proof.
  intros Hf. unfold Prisma.player_findUnique, request. rewrite Hf.
  eexists. reflexivity.
Qed.

(** Whatever it counts, a served iteration of the earlier resolver
    leaves the store its upsert left. *)
Lemma legacy_seedOne_store yr c p (w : World Prisma.Store) :
  faults w = [] ->
  exists c' w',
    Legacy.seedOne yr c p w = (Returned c', w')
    /\ store w' =
         store (snd (Prisma.player_upsert (mlbId p)
                       (Prisma.mkPlayerUpdate (name p) (teamAbbr p) (homeRuns p)
                          (10 <=? homeRuns p) (photoUrl p) (clock w))
                       (Prisma.mkPlayerCreate (mlbId p) (name p) (teamAbbr p)
                          yr (homeRuns p) (10 <=? homeRuns p) (photoUrl p))
                       w)).
Proof.
  intros Hf. unfold Legacy.seedOne, tryCatch, bind at 1, newDate.
  unfold bind at 1. rewrite (prisma_player_upsert_served _ _ _ _ Hf).
  destruct (List.find (Prisma.hasMlbId (mlbId p)) (Prisma.Player (store w)));
    cbv zeta; unfold bind;
    match goal with
    | |- context [Prisma.player_findUnique ?m ?w1] =>
        destruct (prisma_player_findUnique_served m w1 eq_refl) as [o ->]
    end;
    destruct o as [e'|]; try destruct (_ =? _);
    eexists _, _; split; reflexivity.
Qed.

Lemma legacy_seedOne_served yr c p (w : World Prisma.Store) :
  faults w = [] ->
  exists c' w',
    Legacy.seedOne yr c p w = (Returned c', w')
    /\ (Legacy.known (mlbId p) (store w) ->
        Prisma.Player (store w') =
          Legacy.overwritten (clock w) p <$> Prisma.Player (store w))
    /\ (~ Legacy.known (mlbId p) (store w) ->
        Prisma.Player (store w') =
          Prisma.Player (store w) ++
            [Prisma.mkPlayerRow (Prisma.nextId (store w)) (mlbId p) (name p)
               (teamAbbr p) yr (homeRuns p) (10 <=? homeRuns p) (photoUrl p)
               (clock w) (clock w)]).
Proof.
  intros Hf.
  destruct (legacy_seedOne_store yr c p w Hf) as (c' & w' & Hrun & Hstore).
  exists c', w'. split; [exact Hrun|]. rewrite Hstore.
  rewrite (prisma_player_upsert_served _ _ _ _ Hf).
  destruct (List.find (Prisma.hasMlbId (mlbId p)) (Prisma.Player (store w)))
    as [e|] eqn:He; cbn [snd store Prisma.Player].
  - split.
    + intros _. apply list_fmap_ext. intros i x _.
      unfold Legacy.overwritten, Prisma.hasMlbId, Prisma.applyUpdate.
      by destruct (bool_decide (Prisma.l_mlbId x = mlbId p)).
    + intros Hno. exfalso. apply Hno.
      apply find_some in He as [Hin Hm]. exists e.
      split; [by apply list_elem_of_In|].
      by apply bool_decide_eq_true in Hm.
  - apply legacy_find_None in He.
    split; [intros Hk; by exfalso | intros _; reflexivity].
Qed.

(** C4, amended.  When the storage service answers every request: for a
    fetched record whose external id matches a Player, the resolver
    rewrites that Player's [teamAbbr] with the fetched team (changed or
    not) and its [updatedAt], keeps the stored name, photo, id and
    creation time, changes no other row and creates no Player; for a
    record with an unseen external id it appends one Player with the
    fetched name and team and the fetched photo (none when the photo is
    missing or empty).  Only the earlier, Prisma-based resolver
    overwrites the stored name with the fetched one. *)
Theorem resolver_record yr c p (w : World Store) (lw : World Prisma.Store) :
  faults w = [] -> wf_store (store w) -> faults lw = [] ->
  (exists c' w',
     seedOne yr c p w = (Returned c', w')
     /\ (known (mlbId p) (store w) ->
         Player (store w') = retagged (clock w) p <$> Player (store w))
     /\ (~ known (mlbId p) (store w) ->
         Player (store w') =
           Player (store w) ++
             [mkPlayerRow (nextId (store w)) (mlbId p) (name p) (teamAbbr p)
                (photoOrNull p) (clock w) (clock w)]))
  /\ (exists c' lw',
        Legacy.seedOne yr c p lw = (Returned c', lw')
        /\ (Legacy.known (mlbId p) (store lw) ->
            Prisma.Player (store lw') =
              Legacy.overwritten (clock lw) p <$> Prisma.Player (store lw))
        /\ (~ Legacy.known (mlbId p) (store lw) ->
            Prisma.Player (store lw') =
              Prisma.Player (store lw) ++
                [Prisma.mkPlayerRow (Prisma.nextId (store lw)) (mlbId p)
                   (name p) (teamAbbr p) yr (homeRuns p) (10 <=? homeRuns p)
                   (photoUrl p) (clock lw) (clock lw)])).
Proof.
  intros Hf Hwf Hlf. split; [|by apply legacy_seedOne_served].
  rewrite (seedOne_served _ _ _ _ Hf (proj1 Hwf)).
  eexists _, _. split; [reflexivity|]. cbn [store].
  unfold servedStore.
  pose proof (servedPlayer_rows (clock w) p (store w)) as H.
  destruct Hwf as (Hid & Hml & _).
  destruct (List.find (hasMlbId (mlbId p)) (Player (store w))) as [e|] eqn:He.
  - destruct H as (-> & _). apply find_hasMlbId_Some in He as [Hein Hem].
    split.
    + intros _. apply list_fmap_ext. intros i x Hx.
      apply list_elem_of_lookup_2 in Hx. unfold retagged.
      destruct (hasId (row_id e) x) eqn:Hxe.
      * apply N.eqb_eq in Hxe.
        rewrite (NoDup_fmap_eq row_id _ x e Hid Hx Hein Hxe).
        by rewrite bool_decide_eq_true_2.
      * rewrite bool_decide_eq_false_2; [done|]. intros Hm.
        rewrite <- Hem in Hm.
        rewrite (NoDup_fmap_eq row_mlbId _ x e Hml Hx Hein Hm) in Hxe.
        unfold hasId in Hxe. by rewrite N.eqb_refl in Hxe.
    + intros Hno. exfalso. apply Hno. by exists e.
  - destruct H as (-> & _). apply find_hasMlbId_None_iff in He.
    split; [|done]. intros Hk. by exfalso.
Qed.

Lemma resolver_record_witness :
  (exists c' w',
     seedOne 2025 noCounts judge (quietWorld storeWithJudge) = (Returned c', w')
     /\ (known (mlbId judge) storeWithJudge ->
         Player (store w') = retagged 0 judge <$> Player storeWithJudge)
     /\ (~ known (mlbId judge) storeWithJudge ->
         Player (store w') =
           Player storeWithJudge ++
             [mkPlayerRow 1 (mlbId judge) (name judge) (teamAbbr judge)
                (photoOrNull judge) 0 0]))
  /\ (exists c' lw',
        Legacy.seedOne 2025 noCounts judge (quietWorld legacyStoreWithJudge)
          = (Returned c', lw')
        /\ (Legacy.known (mlbId judge) legacyStoreWithJudge ->
            Prisma.Player (store lw') =
              Legacy.overwritten 0 judge <$> Prisma.Player legacyStoreWithJudge)
        /\ (~ Legacy.known (mlbId judge) legacyStoreWithJudge ->
            Prisma.Player (store lw') =
              Prisma.Player legacyStoreWithJudge ++
                [Prisma.mkPlayerRow 1 (mlbId judge) (name judge)
                   (teamAbbr judge) 2025 (homeRuns judge)
                   (10 <=? homeRuns judge) (photoUrl judge) 0 0])).
Proof.
  apply (resolver_record 2025 noCounts judge (quietWorld storeWithJudge)
           (quietWorld legacyStoreWithJudge)).
  - reflexivity.
  - unfold wf_store. cbn.
    split; [apply NoDup_singleton|]. split; [apply NoDup_singleton|].
    apply Forall_singleton. cbn. lia.
  - reflexivity.
Defined.

Example legacy_resolver_overwrites_name :
  let lw' := snd (Legacy.seedOne 2025 noCounts judge
                    (quietWorld legacyStoreWithJudge)) in
  Prisma.l_name <$> Prisma.Player (store lw') = [name judge].
Proof. vm_compute. reflexivity. Qed.



(** The failure strikes the look-up of the second record: its Player is
    missing at the end, the Players of the first and the third are on
    record, and all three records are counted as skipped. *)
Example seed_failure_spares_other_players :
  let '(r, w') := seedPlayersToDatabase [judge; soto; ohtani] 2025 faultyWorld in
  r = Returned (mkCounts 0 0 3)
  /\ row_mlbId <$> Player (store w') = [mlbId judge; mlbId ohtani]
  /\ PlayerSeasonStats (store w') = []
  /\ faults w' = [].
Proof. vm_compute. repeat split; reflexivity. Qed.

(* ===================================================================== *)
(** ** Source fetcher: the properties of the specification *)
(* ===================================================================== *)

Lemma legacy_parseRow_eligible toLowerCase index cells p :
  Legacy.parseRow toLowerCase index cells = Some p -> 10 <= homeRuns p.
Proof.
  unfold Legacy.parseRow. intros H.
  destruct (truthy _ && truthy _ && (10 <=? _)) eqn:Hc; [|discriminate].
  injection H as <-. cbn.
  apply andb_true_iff in Hc as [_ Hc]. by apply Z.leb_le in Hc.
Qed.

Lemma legacy_rows_eligible toLowerCase rows :
  Forall (fun p => 10 <= homeRuns p)
    (omap id (imap (Legacy.parseRow toLowerCase) rows)).
Proof.
  apply Forall_forall. intros p Hin.
  apply list_elem_of_omap in Hin as (o & Ho & Hp). unfold id in Hp. subst o.
  apply list_elem_of_lookup in Ho as [i Hi].
  rewrite list_lookup_imap in Hi.
  destruct (rows !! i) as [cells|]; [|discriminate].
  cbn in Hi. injection Hi as Hi.
  by apply legacy_parseRow_eligible in Hi.
Qed.

Lemma legacy_scrape_cases {S} cheerioRows toLowerCase year (w : World S) :
  Legacy.scrapePlayerStats cheerioRows toLowerCase year w =
    match upstream w (pageUrl year) with
    | Rejected e =>
        (Threw (scrapeFailure match e with
                              | ErrorObj m => m
                              | NonError => js "Unknown error"
                              end), w)
    | Resolved d =>
        match cheerioRows d with
        | Returned rows =>
            (Returned (omap id (imap (Legacy.parseRow toLowerCase) rows)), w)
        | Threw e =>
            (Threw (scrapeFailure match e with
                                  | ErrorObj m => m
                                  | NonError => js "Unknown error"
                                  end), w)
        end
    end.
Proof.
  unfold Legacy.scrapePlayerStats, tryCatch, bind, axios_get.
  destruct (upstream w (pageUrl year)) as [e|d]; [reflexivity|].
  destruct (cheerioRows d); reflexivity.
Qed.

(** A cycle whose fetch fails ends with the fetcher's error and never
    reaches the store. *)
Lemma failed_fetch_leaves_store year (w : World Store) e w' :
  scrapePlayerStats year w = (Threw e, w') ->
  scrapeAndSeedPlayers year w = (Threw e, w) /\ w' = w.
Proof.
  intros Hrun.
  assert (Hw : w' = w).
  { destruct (upstream w (csvUrl year)) as [e0 | [body | msg]] eqn:Hup.
    - rewrite (scrape_rejected _ _ _ Hup) in Hrun. by injection Hrun.
    - rewrite (scrape_text _ _ _ Hup) in Hrun. discriminate.
    - rewrite (scrape_other _ _ _ Hup) in Hrun. by injection Hrun. }
  subst w'. split; [|reflexivity].
  unfold scrapeAndSeedPlayers, tryCatch, bind, throw. by rewrite Hrun.
Qed.

Lemma mlbIds_of_lines (lines : list jsstring) :
  mlbId <$> omap Csv.parseLine lines =
    (fun g => js "mlb-" ++ Csv.playerId g)
      <$> List.filter reachesTen (omap Csv.regexMatch lines).
Proof.
  induction lines as [|line lines IH]; [reflexivity|].
  cbn [omap list_omap].
  change (list_omap _ _ Csv.parseLine lines) with (omap Csv.parseLine lines).
  change (list_omap _ _ Csv.regexMatch lines) with (omap Csv.regexMatch lines).
  unfold Csv.parseLine at 1.
  destruct (Csv.regexMatch line) as [g|]; [|exact IH].
  cbn [List.filter]. unfold reachesTen at 1.
  destruct (parseInt (Csv.homeRunsStr g)) as [hr|]; [|exact IH].
  destruct (10 <=? hr); [|exact IH].
  rewrite !fmap_cons. cbn [mlbId]. by rewrite IH.
Qed.

(** The spec's sentence on deduplication, as it stands, fails: two
    lines of one export carry player 592450, both records are
    returned. *)
Lemma scrape_keeps_duplicates :
  scrapePlayerStats 2025 dupWorld = (Returned [judge; judge60], dupWorld)
  /\ mlbId judge = mlbId judge60
  /\ ~ NoDup (mlbId <$> [judge; judge60]).
Proof.
  split; [|split].
  - rewrite (scrape_text 2025 dupWorld dupBody eq_refl).
    repeat f_equal; vm_compute; reflexivity.
  - reflexivity.
  - intros Hnd. apply NoDup_cons in Hnd as [Hnot _]. apply Hnot. by left.
Qed.

(** C6, amended.  The list a fetch returns is not deduplicated: it holds
    one record per data line whose home-run count reaches 10, in the
    order of the source, and the external id of each is [mlb-] followed
    by the line's player id.  So no two returned records share an
    external id exactly when no two such lines share a player id; when
    they do, all of them are returned, the last one last. *)
Theorem scrape_one_record_per_line {S} year (w : World S) players w' :
  scrapePlayerStats year w = (Returned players, w') ->
  exists body,
    upstream w (csvUrl year) = Resolved (TextData body)
    /\ mlbId <$> players =
         (fun g => js "mlb-" ++ Csv.playerId g) <$> eligibleGroups body
    /\ (NoDup (mlbId <$> players)
        <-> NoDup (Csv.playerId <$> eligibleGroups body)).
Proof.
  intros Hrun. apply scrape_returned_inv in Hrun as (body & Hup & -> & _).
  exists body. split; [exact Hup|].
  assert (Hids : mlbId <$> Csv.parseCsv body =
                 (fun g => js "mlb-" ++ Csv.playerId g) <$> eligibleGroups body)
    by apply mlbIds_of_lines.
  split; [exact Hids|]. rewrite Hids.
  rewrite (list_fmap_compose Csv.playerId (app (js "mlb-"))).
  apply NoDup_fmap. intros x y Hxy. by apply app_inv_head in Hxy.
Qed.

Lemma scrape_one_record_per_line_witness :
  exists body,
    upstream dupWorld (csvUrl 2025) = Resolved (TextData body)
    /\ mlbId <$> [judge; judge60] =
         (fun g => js "mlb-" ++ Csv.playerId g) <$> eligibleGroups body
    /\ (NoDup (mlbId <$> [judge; judge60])
        <-> NoDup (Csv.playerId <$> eligibleGroups body)).
Proof.
  apply (scrape_one_record_per_line 2025 dupWorld [judge; judge60] dupWorld).
  rewrite (scrape_text 2025 dupWorld dupBody eq_refl).
  repeat f_equal; vm_compute; reflexivity.
Defined.

(** C10.  Every record a fetch returns, in either version of the
    scraper, has at least 10 home runs.  In the CSV version a data line
    that parses with fewer is dropped without any error, and the list
    returned is then shorter than the list of data lines. *)
Theorem scrape_only_eligible {S} cheerioRows toLowerCase year (w : World S)
    players w' :
  scrapePlayerStats year w = (Returned players, w')
  \/ Legacy.scrapePlayerStats cheerioRows toLowerCase year w
     = (Returned players, w') ->
  Forall (fun p => 10 <= homeRuns p) players
  /\ forall body line g hr,
       scrapePlayerStats year w = (Returned players, w') ->
       upstream w (csvUrl year) = Resolved (TextData body) ->
       line ∈ drop 1 (Csv.csvLines body) ->
       Csv.regexMatch line = Some g ->
       parseInt (Csv.homeRunsStr g) = Some hr ->
       hr < 10 ->
       Csv.parseLine line = None
       /\ (length players < length (drop 1 (Csv.csvLines body)))%nat.
Proof.
  intros Hrun. split.
  - destruct Hrun as [Hrun | Hrun].
    + apply scrape_returned_inv in Hrun as (body & _ & -> & _).
      apply parseCsv_eligible.
    + rewrite legacy_scrape_cases in Hrun.
      destruct (upstream w (pageUrl year)) as [e|d]; [discriminate|].
      destruct (cheerioRows d) as [rows|e]; [|discriminate].
      injection Hrun as <- _. apply legacy_rows_eligible.
  - intros body line g hr Hcsv Hup Hin Hm Hp Hlt.
    pose proof (parseLine_below line g hr Hm Hp Hlt) as Hnone.
    split; [exact Hnone|].
    rewrite (scrape_text _ _ _ Hup) in Hcsv. injection Hcsv as <- _.
    unfold Csv.parseCsv. by apply omap_drops with line.
Qed.

Lemma scrape_only_eligible_witness :
  Forall (fun p => 10 <= homeRuns p) [judge; judge60]
  /\ forall body line g hr,
       scrapePlayerStats 2025 dupWorld = (Returned [judge; judge60], dupWorld) ->
       upstream dupWorld (csvUrl 2025) = Resolved (TextData body) ->
       line ∈ drop 1 (Csv.csvLines body) ->
       Csv.regexMatch line = Some g ->
       parseInt (Csv.homeRunsStr g) = Some hr ->
       hr < 10 ->
       Csv.parseLine line = None
       /\ (length [judge; judge60] < length (drop 1 (Csv.csvLines body)))%nat.
Proof.
  apply (scrape_only_eligible noRows asciiLower 2025 dupWorld
           [judge; judge60] dupWorld).
  left. rewrite (scrape_text 2025 dupWorld dupBody eq_refl).
  repeat f_equal; vm_compute; reflexivity.
Defined.

Example legacy_row_hex :
  Legacy.parseRow asciiLower 0
    [js " Aaron Judge "; js "NYY, AL"; js "0x1A"]
  = Some (mkPlayerData (js "Aaron Judge") (js "aaron-judge") (js "NYY") 26 None).
Proof. vm_compute. reflexivity. Qed.

Example legacy_row_below_ten :
  Legacy.parseRow asciiLower 3 [js "John Doe"; js "BOS"; js "9"] = None.
Proof. vm_compute. reflexivity. Qed.

Example dupBody_lines : length (drop 1 (Csv.csvLines dupBody)) = 3%nat.
Proof. vm_compute. reflexivity. Qed.

(* ===================================================================== *)
(** ** Stats archive: the snapshot write *)
(* ===================================================================== *)

(** What the snapshot write does, failure included. *)
Lemma snapshotWrite_run pid yr date t r p (w : World Prisma.Store) :
  Import2025.snapshotWrite pid yr date t r p w =
    match faults w with
    | Some e :: fs =>
        (Threw e, mkWorld (store w) (clock w + 1) fs (upstream w))
    | _ =>
        match Prisma.PlayerStats (store w) !! (pid, yr, date) with
        | Some old =>
            let row := Prisma.mkStatRow (Prisma.st_id old) t r p
                         (Prisma.st_lastUpdated old) in
            (Returned row,
             mkWorld
               (Prisma.mkStore (Prisma.Player (store w))
                  (<[(pid, yr, date) := row]> (Prisma.PlayerStats (store w)))
                  (Prisma.nextId (store w)))
               (clock w + 1) (tail (faults w)) (upstream w))
        | None =>
            let row := Prisma.mkStatRow (Prisma.nextId (store w)) t r p
                         (clock w) in
            (Returned row,
             mkWorld
               (Prisma.mkStore (Prisma.Player (store w))
                  (<[(pid, yr, date) := row]> (Prisma.PlayerStats (store w)))
                  (N.succ (Prisma.nextId (store w))))
               (clock w + 1) (tail (faults w)) (upstream w))
        end
    end.
Proof.
  unfold Import2025.snapshotWrite, Prisma.playerStats_upsert, bind, newDate,
    request.
  destruct (faults w) as [|[e|] fs]; cbn [tail];
    try reflexivity;
    destruct (Prisma.PlayerStats (store w) !! (pid, yr, date)); reflexivity.
Qed.

Lemma snapshotWrite_frame pid yr date t r p (w : World Prisma.Store) k :
  k <> (pid, yr, date) ->
  Prisma.PlayerStats
    (store (snd (Import2025.snapshotWrite pid yr date t r p w))) !! k
  = Prisma.PlayerStats (store w) !! k.
Proof.
  intros Hk. rewrite snapshotWrite_run.
  destruct (faults w) as [|[e|] fs]; try reflexivity;
    destruct (Prisma.PlayerStats (store w) !! (pid, yr, date));
    cbn; by rewrite lookup_insert_ne.
Qed.

Lemma snapshotWrite_existing pid yr date t r p (w : World Prisma.Store) old row :
  Prisma.PlayerStats (store w) !! (pid, yr, date) = Some old ->
  fst (Import2025.snapshotWrite pid yr date t r p w) = Returned row ->
  row = Prisma.mkStatRow (Prisma.st_id old) t r p (Prisma.st_lastUpdated old)
  /\ Prisma.PlayerStats
       (store (snd (Import2025.snapshotWrite pid yr date t r p w)))
       !! (pid, yr, date) = Some row.
Proof.
  rewrite snapshotWrite_run. intros Hold Hres. rewrite Hold in Hres |- *.
  destruct (faults w) as [|[e|] fs]; cbn in Hres |- *;
    try discriminate; injection Hres as <-;
    (split; [reflexivity | apply lookup_insert_eq]).
Qed.

(** C7.  A snapshot write under the key (playerId, seasonYear, date).
    Whether it is served is decided by the storage service alone.  When
    it is served it returns the snapshot that is stored under the key
    from then on, which holds the three counts given: if a snapshot
    existed under that very key, it is that snapshot with its counts
    replaced (same id, same [lastUpdated]), otherwise a new one.  When
    it is not served it throws and writes nothing.  Served or not, it
    leaves the snapshot of every earlier date of that player's season,
    indeed of every other key, and the Player table exactly as they
    were. *)
Theorem snapshot_write_replaces pid yr date t r p (w : World Prisma.Store) :
  let res := Import2025.snapshotWrite pid yr date t r p w in
  match faults w with
  | Some e :: _ => fst res = Threw e /\ store (snd res) = store w
  | _ =>
      exists row,
        fst res = Returned row
        /\ Prisma.PlayerStats (store (snd res)) !! (pid, yr, date) = Some row
        /\ Prisma.st_hrsTotal row = t
        /\ Prisma.st_hrsRegularSeason row = r
        /\ Prisma.st_hrsPostseason row = p
        /\ match Prisma.PlayerStats (store w) !! (pid, yr, date) with
           | Some old =>
               row = Prisma.mkStatRow (Prisma.st_id old) t r p
                       (Prisma.st_lastUpdated old)
           | None =>
               row = Prisma.mkStatRow (Prisma.nextId (store w)) t r p (clock w)
           end
  end
  /\ (forall old row,
        Prisma.PlayerStats (store w) !! (pid, yr, date) = Some old ->
        fst res = Returned row ->
        row = Prisma.mkStatRow (Prisma.st_id old) t r p (Prisma.st_lastUpdated old)
        /\ Prisma.PlayerStats (store (snd res)) !! (pid, yr, date) = Some row)
  /\ (forall d, d < date ->
        Prisma.PlayerStats (store (snd res)) !! (pid, yr, d)
        = Prisma.PlayerStats (store w) !! (pid, yr, d))
  /\ (forall k, k <> (pid, yr, date) ->
        Prisma.PlayerStats (store (snd res)) !! k
        = Prisma.PlayerStats (store w) !! k)
  /\ Prisma.Player (store (snd res)) = Prisma.Player (store w).
Proof.
  cbv zeta. split; [|split; [|split; [|split]]].
  - rewrite snapshotWrite_run.
    destruct (faults w) as [|[e|] fs]; [|done|];
      destruct (Prisma.PlayerStats (store w) !! (pid, yr, date)) as [old|];
      cbv zeta; eexists; cbn [fst snd store Prisma.PlayerStats];
      rewrite lookup_insert_eq; done.
  - intros old row. apply snapshotWrite_existing.
  - intros d Hd. apply snapshotWrite_frame.
    intros Heq. injection Heq as ->. lia.
  - intros k. apply snapshotWrite_frame.
  - rewrite snapshotWrite_run.
    destruct (faults w) as [|[e|] fs]; [|done|];
      by destruct (Prisma.PlayerStats (store w) !! (pid, yr, date)).
Qed.

(** A failed request leaves the stored counts; a served one replaces
    them and keeps the snapshot's id. *)
Example snapshot_write_struck_or_served :
  let s := Prisma.mkStore [] {[ (7%N, 2025, 20) := Prisma.mkStatRow 1 40 40 0 0 ]} 2 in
  Prisma.PlayerStats
    (store (snd (Import2025.snapshotWrite 7 2025 20 38 38 0
                   (mkWorld s 5 [Some NonError] offline)))) !! (7%N, 2025, 20)
  = Some (Prisma.mkStatRow 1 40 40 0 0)
  /\ Prisma.PlayerStats
       (store (snd (Import2025.snapshotWrite 7 2025 20 38 38 0
                      (mkWorld s 5 [None] offline)))) !! (7%N, 2025, 20)
     = Some (Prisma.mkStatRow 1 38 38 0 0).
Proof. vm_compute. split; reflexivity. Qed.

Example snapshot_write_correction :
  let w := quietWorld
             (Prisma.mkStore [] {[ (7%N, 2025, 20) := Prisma.mkStatRow 1 40 40 0 0;
                                   (7%N, 2025, 10) := Prisma.mkStatRow 0 30 30 0 0 ]}
                2) in
  let w' := snd (Import2025.snapshotWrite 7 2025 20 38 38 0 w) in
  Prisma.PlayerStats (store w') !! (7%N, 2025, 20) = Some (Prisma.mkStatRow 1 38 38 0 0)
  /\ Prisma.PlayerStats (store w') !! (7%N, 2025, 10) = Some (Prisma.mkStatRow 0 30 30 0 0).
Proof. vm_compute. split; reflexivity. Qed.





(* ===================================================================== *)
(** ** Scoring engine: best seven of eight *)
(* ===================================================================== *)

#[local] Instance ahead_trans : Transitive Scoring.ahead.
Proof. intros a b c. unfold Scoring.ahead. lia. Qed.

#[local] Instance ahead_total : Total Scoring.ahead.
Proof. intros a b. unfold Scoring.ahead. lia. Qed.

Lemma sumTotals_app l1 l2 :
  Scoring.sumTotals (l1 ++ l2) = Scoring.sumTotals l1 + Scoring.sumTotals l2.
Proof.
  unfold Scoring.sumTotals.
  induction l1 as [|x l1 IH]; cbn; [lia|]. rewrite IH. lia.
Qed.

Lemma sumTotals_Permutation l1 l2 :
  l1 ≡ₚ l2 -> Scoring.sumTotals l1 = Scoring.sumTotals l2.
Proof.
  unfold Scoring.sumTotals.
  induction 1 as [|x l1 l2 _ IH|x y l|l1 l2 l3 _ IH1 _ IH2]; cbn.
  - reflexivity.
  - by rewrite IH.
  - lia.
  - congruence.
Qed.

Lemma slots_lookup roster i :
  Scoring.slots roster !! i =
    (fun e => Scoring.mkSlot i (fst e) (snd e)) <$> roster !! i.
Proof.
  unfold Scoring.slots. rewrite list_lookup_imap.
  destruct (roster !! i) as [[pid t]|]; reflexivity.
Qed.

Lemma sumTotals_imap_shift (roster : list (N * Z)) : forall k,
  Scoring.sumTotals
    (imap (fun i '(pid, t) => Scoring.mkSlot (k + i) pid t) roster)
  = rosterSum roster.
Proof.
  induction roster as [|[pid t] roster IH]; intros k; [reflexivity|].
  unfold Scoring.sumTotals, rosterSum in *. cbn. f_equal.
  rewrite <- (IH (S k)). f_equal.
  apply imap_ext. intros i [pid' t'] _. cbn. f_equal. lia.
Qed.

Lemma sumTotals_slots roster :
  Scoring.sumTotals (Scoring.slots roster) = rosterSum roster.
Proof. apply (sumTotals_imap_shift roster 0). Qed.

Lemma split_last {A} (l : list A) n :
  length l = S n -> exists e, l = take n l ++ [e] /\ l !! n = Some e.
Proof.
  intros Hlen. pose proof (take_drop n l) as Htd.
  assert (Hd : length (drop n l) = 1%nat) by (rewrite length_drop; lia).
  destruct (drop n l) as [|e [|e' rest]] eqn:Hdrop; try discriminate.
  exists e. split; [by symmetry|].
  rewrite <- Htd at 1. rewrite lookup_app_r by (rewrite length_take; lia).
  rewrite length_take. replace (n `min` length l)%nat with n by lia.
  by rewrite Nat.sub_diag.
Qed.

(** C1.  For a roster of 8 players with their period totals, the engine
    excludes a player whose total is the minimum, the one in the latest
    roster position among those with that total, and [bestSevenTotal]
    is the sum of the other seven totals: the sum of all eight less the
    minimum, which no other choice of seven exceeds. *)
Theorem best_seven_of_eight roster :
  length roster = 8%nat ->
  exists i pid t,
    roster !! i = Some (pid, t)
    /\ Scoring.excludedPosition (Scoring.scoreRoster roster) = Some i
    /\ Scoring.excludedPlayerId (Scoring.scoreRoster roster) = Some pid
    /\ Scoring.bestSevenTotal (Scoring.scoreRoster roster) = rosterSum roster - t
    /\ forall j pj tj,
         roster !! j = Some (pj, tj) ->
         t <= tj
         /\ (tj = t -> (j <= i)%nat)
         /\ rosterSum roster - tj
            <= Scoring.bestSevenTotal (Scoring.scoreRoster roster).
Proof.
  intros Hlen. unfold Scoring.scoreRoster. cbn [Scoring.bestSevenTotal
    Scoring.excludedPosition Scoring.excludedPlayerId].
  set (sorted := merge_sort Scoring.ahead (Scoring.slots roster)).
  assert (Hperm : sorted ≡ₚ Scoring.slots roster)
    by apply merge_sort_Permutation.
  assert (Hsorted : StronglySorted Scoring.ahead sorted)
    by apply (StronglySorted_merge_sort _).
  assert (Hlen' : length sorted = 8%nat).
  { rewrite Hperm. unfold Scoring.slots. by rewrite length_imap. }
  destruct (split_last sorted 7 Hlen') as (e & Hsplit & Hlast).
  assert (He : e ∈ Scoring.slots roster).
  { rewrite <- Hperm. by apply list_elem_of_lookup_2 with 7%nat. }
  apply list_elem_of_lookup in He as [i Hi].
  rewrite slots_lookup in Hi.
  destruct (roster !! i) as [[pid t]|] eqn:Hri; [|discriminate].
  cbn in Hi. injection Hi as <-.
  assert (Hsum : Scoring.sumTotals (take 7 sorted) = rosterSum roster - t).
  { rewrite <- sumTotals_slots, <- (sumTotals_Permutation _ _ Hperm).
    rewrite Hsplit at 2. rewrite sumTotals_app. cbn. lia. }
  exists i, pid, t. rewrite Hlast, Hsum. cbn.
  split; [done|]. split; [done|]. split; [done|]. split; [done|].
  intros j pj tj Hj.
  assert (Hx : Scoring.mkSlot j pj tj ∈ sorted).
  { rewrite Hperm. apply list_elem_of_lookup. exists j.
    rewrite slots_lookup, Hj. reflexivity. }
  assert (Hcmp : t <= tj /\ (tj = t -> (j <= i)%nat)).
  { rewrite Hsplit in Hx, Hsorted.
    apply elem_of_app in Hx as [Hx | Hx].
    - pose proof (StronglySorted_app_1_elem_of _ _ _ _ _ Hsorted Hx
                    (list_elem_of_here _ _)) as Hahead.
      unfold Scoring.ahead in Hahead. cbn in Hahead. lia.
    - apply list_elem_of_singleton in Hx. injection Hx as -> _ ->. lia. }
  destruct Hcmp as [Hmin Htie]. split; [done|]. split; [done|]. lia.
Qed.

Lemma best_seven_of_eight_witness :
  exists i pid t,
    scenarioRoster !! i = Some (pid, t)
    /\ Scoring.excludedPosition (Scoring.scoreRoster scenarioRoster) = Some i
    /\ Scoring.excludedPlayerId (Scoring.scoreRoster scenarioRoster) = Some pid
    /\ Scoring.bestSevenTotal (Scoring.scoreRoster scenarioRoster)
       = rosterSum scenarioRoster - t
    /\ forall j pj tj,
         scenarioRoster !! j = Some (pj, tj) ->
         t <= tj
         /\ (tj = t -> (j <= i)%nat)
         /\ rosterSum scenarioRoster - tj
            <= Scoring.bestSevenTotal (Scoring.scoreRoster scenarioRoster).
Proof.
  apply (best_seven_of_eight scenarioRoster). reflexivity.
Defined.

Example scenario_score :
  Scoring.scoreRoster scenarioRoster = Scoring.mkScoreRecord 123 (Some 7%nat) (Some 18%N).
Proof. vm_compute. reflexivity. Qed.

Example tie_excludes_later_position :
  Scoring.scoreRoster
    [(1%N, 5); (2%N, 25); (3%N, 5); (4%N, 18);
     (5%N, 15); (6%N, 10); (7%N, 5); (8%N, 30)]
  = Scoring.mkScoreRecord 108 (Some 6%nat) (Some 7%N).
Proof. vm_compute. reflexivity. Qed.

(* ===================================================================== *)
(** ** Leaderboard builder: standard competition ranking *)
(* ===================================================================== *)

#[local] Instance notBehind_trans : Transitive Leaderboard.notBehind.
Proof. intros a b c. unfold Leaderboard.notBehind. lia. Qed.

#[local] Instance notBehind_total : Total Leaderboard.notBehind.
Proof. intros a b. unfold Leaderboard.notBehind. lia. Qed.

Lemma assignRanks_scores standings : forall prev index,
  scoreOf <$> Leaderboard.assignRanks prev index standings = standings.
Proof.
  induction standings as [|[rid t] rest IH]; intros prev index; [reflexivity|].
  cbn. f_equal. apply IH.
Qed.

Lemma strictlyAhead_app t l1 l2 :
  Leaderboard.strictlyAhead t (l1 ++ l2) =
    (Leaderboard.strictlyAhead t l1 + Leaderboard.strictlyAhead t l2)%nat.
Proof.
  unfold Leaderboard.strictlyAhead.
  by rewrite List.filter_app, length_app.
Qed.

Lemma strictlyAhead_Permutation t l1 l2 :
  l1 ≡ₚ l2 -> Leaderboard.strictlyAhead t l1 = Leaderboard.strictlyAhead t l2.
Proof.
  unfold Leaderboard.strictlyAhead.
  induction 1 as [|x l1 l2 _ IH|x y l|l1 l2 l3 _ IH1 _ IH2]; cbn.
  - reflexivity.
  - destruct (t <? snd x); cbn; by rewrite IH.
  - destruct (t <? snd x), (t <? snd y); reflexivity.
  - congruence.
Qed.

Lemma strictlyAhead_all t l :
  Forall (fun s => t < snd s) l -> Leaderboard.strictlyAhead t l = length l.
Proof.
  unfold Leaderboard.strictlyAhead. induction 1 as [|x l Hx _ IH]; cbn.
  - reflexivity.
  - apply Z.ltb_lt in Hx. rewrite Hx. cbn. by rewrite IH.
Qed.

Lemma strictlyAhead_none t l :
  Forall (fun s => snd s <= t) l -> Leaderboard.strictlyAhead t l = 0%nat.
Proof.
  unfold Leaderboard.strictlyAhead. induction 1 as [|x l Hx _ IH]; cbn.
  - reflexivity.
  - destruct (Z.ltb_spec t (snd x)); [lia | exact IH].
Qed.

(** The invariant of the ranking pass: [done] are the standings already
    ranked, [prev] is the total of the last of them with its rank. *)
Lemma assignRanks_ranks rest : forall done prev,
  StronglySorted Leaderboard.notBehind (done ++ rest) ->
  match prev with
  | None => done = []
  | Some (pt, pr) =>
      (exists d0 rid, done = d0 ++ [(rid, pt)])
      /\ pr = S (Leaderboard.strictlyAhead pt (done ++ rest))
  end ->
  Forall (fun e => Leaderboard.rank e =
                   S (Leaderboard.strictlyAhead (Leaderboard.totalHrs e)
                        (done ++ rest)))
    (Leaderboard.assignRanks prev (length done) rest).
Proof.
  induction rest as [|[rid t] rest IH]; intros done prev Hsorted Hprev;
    [constructor|].
  cbn [Leaderboard.assignRanks].
  set (r := match prev with
            | Some (pt, pr) => if pt =? t then pr else S (length done)
            | None => S (length done)
            end).
  assert (Htail : Leaderboard.strictlyAhead t ((rid, t) :: rest) = 0%nat).
  { apply strictlyAhead_none.
    apply StronglySorted_app_1_r in Hsorted.
    apply StronglySorted_inv in Hsorted as [_ Hall].
    constructor; [cbn; lia|].
    eapply Forall_impl; [exact Hall|]. intros x Hx. exact Hx. }
  assert (Hr : r = S (Leaderboard.strictlyAhead t (done ++ (rid, t) :: rest))).
  { rewrite strictlyAhead_app, Htail, Nat.add_0_r. subst r.
    destruct prev as [[pt pr]|].
    - destruct Hprev as [(d0 & rid0 & Hdone) Hpr].
      destruct (Z.eqb_spec pt t) as [->|Hne].
      + by rewrite Hpr, strictlyAhead_app, Htail, Nat.add_0_r.
      + f_equal. symmetry. apply strictlyAhead_all.
        assert (Hpt : t < pt).
        { assert (Leaderboard.notBehind (rid0, pt) (rid, t)) as Hnb.
          { apply (StronglySorted_app_1_elem_of _ _ _ _ _ Hsorted).
            - rewrite Hdone. apply elem_of_app. right. by left.
            - by left. }
          unfold Leaderboard.notBehind in Hnb. cbn in Hnb. lia. }
        apply Forall_forall. intros x Hx.
        rewrite Hdone in Hx. apply elem_of_app in Hx as [Hx | Hx].
        * apply StronglySorted_app_1_l in Hsorted. rewrite Hdone in Hsorted.
          pose proof (StronglySorted_app_1_elem_of _ _ _ _ _ Hsorted Hx
                        (list_elem_of_here _ _)) as Hnb.
          unfold Leaderboard.notBehind in Hnb. cbn in Hnb. lia.
        * apply list_elem_of_singleton in Hx as ->. cbn. lia.
    - subst done. reflexivity. }
  constructor; [exact Hr|].
  specialize (IH (done ++ [(rid, t)]) (Some (t, r))).
  rewrite <- app_assoc, length_app in IH. cbn in IH.
  rewrite Nat.add_1_r in IH. apply IH; [exact Hsorted|].
  split; [eauto | exact Hr].
Qed.

Lemma StronglySorted_fmap_inv {A B} (f : A -> B) (R : relation B) (l : list A) :
  StronglySorted R (f <$> l) -> StronglySorted (fun a b => R (f a) (f b)) l.
Proof.
  induction l as [|x l IH]; intros H; [constructor|].
  rewrite fmap_cons in H. apply StronglySorted_inv in H as [Hl Hx].
  constructor; [by apply IH|]. by apply (Forall_fmap f) in Hx.
Qed.

(** C2.  For every list of per-roster totals the builder returns the
    rosters sorted descending by [totalHrs], the rank of each entry is
    the number of totals strictly greater than its own plus 1, so tied
    rosters share a rank; and totals 50, 50, 40, 30 give ranks 1, 1, 3,
    4. *)
Theorem competition_ranking scores :
  let lb := Leaderboard.buildLeaderboard scores in
  scoreOf <$> lb ≡ₚ scores
  /\ StronglySorted
       (fun a b => Leaderboard.totalHrs b <= Leaderboard.totalHrs a) lb
  /\ Forall (fun e => Leaderboard.rank e =
                      S (Leaderboard.strictlyAhead (Leaderboard.totalHrs e)
                           scores)) lb
  /\ (forall a b, a ∈ lb -> b ∈ lb ->
        Leaderboard.totalHrs a = Leaderboard.totalHrs b ->
        Leaderboard.rank a = Leaderboard.rank b)
  /\ Leaderboard.rank <$> Leaderboard.buildLeaderboard exampleScores
     = [1; 1; 3; 4]%nat.
Proof.
  cbv zeta. unfold Leaderboard.buildLeaderboard.
  set (sorted := merge_sort Leaderboard.notBehind scores).
  assert (Hperm : sorted ≡ₚ scores) by apply merge_sort_Permutation.
  assert (Hsorted : StronglySorted Leaderboard.notBehind sorted)
    by apply (StronglySorted_merge_sort _).
  assert (Hranks : Forall (fun e => Leaderboard.rank e =
                      S (Leaderboard.strictlyAhead (Leaderboard.totalHrs e)
                           scores))
                     (Leaderboard.assignRanks None 0 sorted)).
  { eapply Forall_impl;
      [apply (assignRanks_ranks sorted [] None Hsorted eq_refl)|].
    intros e He. cbn in He. rewrite He. f_equal.
    by apply strictlyAhead_Permutation. }
  split; [by rewrite assignRanks_scores|].
  split.
  { apply (StronglySorted_fmap_inv scoreOf Leaderboard.notBehind).
    by rewrite assignRanks_scores. }
  split; [exact Hranks|]. split; [|vm_compute; reflexivity].
  intros a b Ha Hb Hab. rewrite Forall_forall in Hranks.
  rewrite (Hranks a Ha), (Hranks b Hb). by rewrite Hab.
Qed.

Example ranking_with_later_tie :
  (fun e => (Leaderboard.totalHrs e, Leaderboard.rank e))
    <$> Leaderboard.buildLeaderboard
          [(1%N, 30); (2%N, 50); (3%N, 40); (4%N, 50); (5%N, 30); (6%N, 30)]
  = [(50, 1%nat); (50, 1%nat); (40, 3%nat); (30, 4%nat); (30, 4%nat); (30, 4%nat)].
Proof. vm_compute. reflexivity. Qed.

(* ===================================================================== *)
(** ** Strings: scanning, splitting, trimming *)
(* ===================================================================== *)

Lemma takeWhile_dropWhile f s : takeWhile f s ++ dropWhile f s = s.
Proof.
  induction s as [|c s IH]; [reflexivity|]. cbn.
  destruct (f c); [cbn; by rewrite IH | reflexivity].
Qed.

Lemma takeWhile_forallb f s : forallb f (takeWhile f s) = true.
Proof.
  induction s as [|c s IH]; [reflexivity|]. cbn.
  destruct (f c) eqn:Hc; [cbn; by rewrite Hc | reflexivity].
Qed.

Lemma dropWhile_head f s c r : dropWhile f s = c :: r -> f c = false.
Proof.
  induction s as [|d s IH]; [discriminate|]. cbn.
  destruct (f d) eqn:Hd; [exact IH|]. intros [= <- _]. exact Hd.
Qed.

Lemma takeWhile_app_stop f a rest :
  forallb f a = true ->
  match rest with c :: _ => f c = false | [] => True end ->
  takeWhile f (a ++ rest) = a /\ dropWhile f (a ++ rest) = rest.
Proof.
  intros Ha Hrest. induction a as [|c a IH]; cbn.
  - destruct rest as [|c r]; [done|]. cbn. by rewrite Hrest.
  - cbn in Ha. apply andb_true_iff in Ha as [Hc Ha]. rewrite Hc.
    destruct (IH Ha) as [-> ->]. done.
Qed.

Lemma dropWhile_fixed f s :
  match s with c :: _ => f c = false | [] => True end -> dropWhile f s = s.
Proof. destruct s as [|c s]; [done|]. cbn. by intros ->. Qed.

Lemma dropWhile_keeps f s x :
  x ∈ s -> f x = false -> dropWhile f s <> [].
Proof.
  induction s as [|c s IH]; intros Hin Hx; [by apply elem_of_nil in Hin|].
  cbn. destruct (f c) eqn:Hc; [|done].
  apply elem_of_cons in Hin as [->|Hin]; [congruence|]. by apply IH.
Qed.

Lemma split_unsplit sep a b :
  forallb (fun c => negb (c =? sep)%N) a = true ->
  split sep (a ++ sep :: b) = a :: split sep b.
Proof.
  intros Ha. induction a as [|c a IH]; cbn.
  - by rewrite N.eqb_refl.
  - cbn in Ha. apply andb_true_iff in Ha as [Hc Ha].
    apply negb_true_iff in Hc. rewrite Hc, (IH Ha). done.
Qed.

Lemma split_whole sep a :
  forallb (fun c => negb (c =? sep)%N) a = true -> split sep a = [a].
Proof.
  intros Ha. induction a as [|c a IH]; [reflexivity|]. cbn.
  cbn in Ha. apply andb_true_iff in Ha as [Hc Ha].
  apply negb_true_iff in Hc. rewrite Hc, (IH Ha). done.
Qed.

Lemma split_nonempty sep s : split sep s <> [].
Proof.
  destruct s as [|c s]; [done|]. cbn.
  destruct (c =? sep)%N; [done|]. by destruct (split sep s).
Qed.

(** The first piece of a split starts like the string itself. *)
Lemma split_head sep s p rest c p' :
  split sep s = p :: rest -> p = c :: p' -> exists s', s = c :: s'.
Proof.
  destruct s as [|d s]; cbn.
  - intros [= <- _]. discriminate.
  - destruct (d =? sep)%N.
    + intros [= <- _]. discriminate.
    + destruct (split sep s); intros [= <- _] [= -> _]; by eexists.
Qed.

(** What [trim] returns has no white space at either end. *)
Lemma trim_ends s :
  match trim s with c :: _ => isWhiteSpace c = false | [] => True end
  /\ match rev (trim s) with c :: _ => isWhiteSpace c = false | [] => True end.
Proof.
  unfold trim, trimStart.
  set (u := dropWhile isWhiteSpace s).
  assert (Hu : match u with c :: _ => isWhiteSpace c = false | [] => True end).
  { subst u. destruct (dropWhile isWhiteSpace s) as [|c r] eqn:E; [done|].
    by apply dropWhile_head in E. }
  set (v := dropWhile isWhiteSpace (rev u)).
  assert (Hv : match v with c :: _ => isWhiteSpace c = false | [] => True end).
  { subst v. destruct (dropWhile isWhiteSpace (rev u)) as [|c r] eqn:E; [done|].
    by apply dropWhile_head in E. }
  split; [|by rewrite rev_involutive].
  assert (Hpre : u = rev v ++ rev (takeWhile isWhiteSpace (rev u))).
  { rewrite <- rev_app_distr. subst v. rewrite takeWhile_dropWhile.
    by rewrite rev_involutive. }
  destruct (rev v) as [|c r] eqn:E; [done|].
  rewrite Hpre in Hu. exact Hu.
Qed.

Lemma trim_trimmed s : trimmed (trim s).
Proof.
  destruct (trim_ends s) as [Hhead Hlast].
  unfold trimmed. unfold trim at 1. unfold trimStart.
  rewrite (dropWhile_fixed _ _ Hhead), (dropWhile_fixed _ _ Hlast).
  apply rev_involutive.
Qed.

(** A string that starts with something else than white space keeps
    its first unit under [trim]. *)
Lemma trim_keeps_head c s :
  isWhiteSpace c = false -> exists t, trim (c :: s) = c :: t.
Proof.
  intros Hc. unfold trim, trimStart. cbn [dropWhile]. rewrite Hc.
  assert (Hne : dropWhile isWhiteSpace (rev (c :: s)) <> []).
  { apply (dropWhile_keeps _ _ c); [|done].
    apply list_elem_of_In, in_rev. rewrite rev_involutive. by left. }
  pose proof (takeWhile_dropWhile isWhiteSpace (rev (c :: s))) as Hsplit.
  apply (f_equal (@rev N)) in Hsplit.
  rewrite rev_app_distr, rev_involutive in Hsplit.
  destruct (rev (dropWhile isWhiteSpace (rev (c :: s)))) as [|d t] eqn:E.
  - apply (f_equal (@rev N)) in E. rewrite rev_involutive in E. done.
  - cbn in Hsplit. injection Hsplit as -> _. by eexists.
Qed.

(* ===================================================================== *)
(** ** Numbers written in decimal digits *)
(* ===================================================================== *)

Lemma isDigit_cases c :
  isDigit c = true ->
  (c = 48 \/ c = 49 \/ c = 50 \/ c = 51 \/ c = 52
   \/ c = 53 \/ c = 54 \/ c = 55 \/ c = 56 \/ c = 57)%N.
Proof.
  unfold isDigit. intros H. apply andb_true_iff in H as [H1 H2].
  apply N.leb_le in H1, H2. lia.
Qed.

Ltac each_digit c H :=
  apply isDigit_cases in H;
  destruct H as [->|[->|[->|[->|[->|[->|[->|[->|[->| ->]]]]]]]]].

Lemma digit_not_space c : isDigit c = true -> isWhiteSpace c = false.
Proof. intros H. each_digit c H; reflexivity. Qed.

Lemma digitValue_digit c :
  isDigit c = true -> digitValue 10 c = Some (Z.of_N c - 48).
Proof. intros H. each_digit c H; reflexivity. Qed.

Lemma parseDigits_digits s : forall a,
  forallb isDigit s = true ->
  parseDigits 10 (Some a) s
  = Some (fold_left (fun acc c => 10 * acc + (Z.of_N c - 48)) s a).
Proof.
  induction s as [|c s IH]; intros a Hs; [reflexivity|].
  cbn in Hs. apply andb_true_iff in Hs as [Hc Hs].
  cbn [parseDigits fold_left]. rewrite (digitValue_digit _ Hc).
  cbn [default]. by apply IH.
Qed.

Lemma decimalValue_nonneg_from s : forall a,
  forallb isDigit s = true -> 0 <= a ->
  0 <= fold_left (fun acc c => 10 * acc + (Z.of_N c - 48)) s a.
Proof.
  induction s as [|c s IH]; intros a Hs Ha; [exact Ha|].
  cbn in Hs. apply andb_true_iff in Hs as [Hc Hs].
  cbn [fold_left]. apply IH; [exact Hs|].
  unfold isDigit in Hc. apply andb_true_iff in Hc as [H1 _].
  apply N.leb_le in H1. lia.
Qed.

(** [parseInt] reads a run of digits as the number it writes: never
    [NaN], never negative. *)
Lemma parseInt_number s :
  isNumber s = true -> parseInt s = Some (decimalValue s) /\ 0 <= decimalValue s.
Proof.
  unfold isNumber. intros H. apply andb_true_iff in H as [Hne Hs].
  split; [|by apply decimalValue_nonneg_from].
  destruct s as [|c s]; [discriminate|].
  pose proof Hs as Hall.
  cbn in Hs. apply andb_true_iff in Hs as [Hc Hs].
  unfold parseInt, trimStart. cbn [dropWhile].
  rewrite (digit_not_space _ Hc).
  assert (Hgo : parseDigits 10 None (c :: s) = Some (decimalValue (c :: s))).
  { cbn [parseDigits]. rewrite (digitValue_digit _ Hc). cbn [default].
    rewrite (parseDigits_digits _ _ Hs). reflexivity. }
  assert (Hmul : forall v : Z, 1 * v = v) by (intros; lia).
  each_digit c Hc;
    try (rewrite Hgo; by rewrite Hmul).
  (* a leading zero: the next unit is a digit, not [x] *)
  destruct s as [|d s]; [reflexivity|].
  cbn in Hs. apply andb_true_iff in Hs as [Hd Hs'].
  each_digit d Hd; rewrite Hgo; by rewrite Hmul.
Qed.

(* ===================================================================== *)
(** ** The line pattern of the CSV fetcher *)
(* ===================================================================== *)

Lemma regexMatch_cons c line :
  Csv.regexMatch (c :: line) =
    match Csv.matchHere (c :: line) with
    | Some g => Some g
    | None => Csv.regexMatch line
    end.
Proof. reflexivity. Qed.

Lemma regexMatch_skip pre s :
  forallb Csv.notQuote pre = true -> Csv.regexMatch (pre ++ s) = Csv.regexMatch s.
Proof.
  intros Hpre. induction pre as [|c pre IH]; [reflexivity|].
  cbn in Hpre. apply andb_true_iff in Hpre as [Hc Hpre].
  cbn [app]. rewrite regexMatch_cons.
  unfold Csv.matchHere. unfold Csv.notQuote in Hc.
  apply negb_true_iff in Hc. rewrite Hc. by apply IH.
Qed.

Lemma digits1_number {A} s rest (k : jsstring -> jsstring -> option A) :
  isNumber s = true -> noDigitAhead rest = true ->
  Csv.digits1 (s ++ rest) k = k s rest.
Proof.
  unfold isNumber. intros H Hrest. apply andb_true_iff in H as [Hne Hs].
  unfold Csv.digits1.
  destruct (takeWhile_app_stop isDigit s rest Hs) as [-> ->].
  - destruct rest as [|c r]; [done|]. cbn in Hrest.
    by apply negb_true_iff in Hrest.
  - by destruct s.
Qed.

(** The pattern matches a quoted name followed by three numbers, and
    captures exactly these. *)
Lemma matchHere_fields fullName pid yr hr post :
  fullName <> [] -> forallb Csv.notQuote fullName = true ->
  isNumber pid = true -> isNumber yr = true -> isNumber hr = true ->
  noDigitAhead post = true ->
  Csv.matchHere
    (QUOTE :: fullName ++ QUOTE :: COMMA :: pid ++ COMMA :: yr ++ COMMA :: hr ++ post)
  = Some (Csv.mkGroups fullName pid yr hr).
Proof.
  intros Hne Hname Hpid Hyr Hhr Hpost.
  unfold Csv.matchHere. rewrite N.eqb_refl.
  destruct (takeWhile_app_stop Csv.notQuote fullName
              (QUOTE :: COMMA :: pid ++ COMMA :: yr ++ COMMA :: hr ++ post)
              Hname) as [-> ->]; [reflexivity|].
  destruct fullName as [|c n]; [done|].
  unfold Csv.comma at 1. rewrite N.eqb_refl.
  rewrite (digits1_number pid); [|done|reflexivity].
  unfold Csv.comma at 1. rewrite N.eqb_refl.
  rewrite (digits1_number yr); [|done|reflexivity].
  unfold Csv.comma at 1. rewrite N.eqb_refl.
  rewrite (digits1_number hr); done.
Qed.

Lemma plain_parts s :
  plain s = true ->
  forallb Csv.notQuote s = true
  /\ forallb (fun c => negb (c =? COMMA)%N) s = true.
Proof.
  unfold plain. induction s as [|c s IH]; [done|]. cbn.
  intros H. apply andb_true_iff in H as [Hc Hs].
  apply andb_true_iff in Hc as [Hq Hk].
  destruct (IH Hs) as [-> ->]. unfold Csv.notQuote. by rewrite Hq, Hk.
Qed.

Lemma trim_after_space s : trim (SPACE :: s) = trim s.
Proof. reflexivity. Qed.

(* ===================================================================== *)
(** ** The CSV fetcher on the lines of the export *)
(* ===================================================================== *)

Lemma exportLine_shape last first pid yr hr post :
  exportLine last first pid yr hr ++ post =
    QUOTE :: (last ++ COMMA :: SPACE :: first)
      ++ QUOTE :: COMMA :: pid ++ COMMA :: yr ++ COMMA :: hr ++ post.
Proof.
  unfold exportLine. cbn [app]. f_equal.
  repeat (rewrite <- app_assoc; cbn [app]). reflexivity.
Qed.

(** X1.  A well-formed data line of the export, [Q last, first Q,id,
    year,hr] (Q the double quote), is parsed into the record
    [first last] with id [mlb-id] and the number the digits write,
    provided that number reaches 10 (and is small enough for a double
    to hold it exactly); the pattern is not anchored, so text without a
    quote before the line and text after it that does not go on with a
    digit change nothing. *)
Theorem parseLine_export_line last first pid yr hr pre post :
  plain last = true -> plain first = true ->
  trimmed last -> trimmed first ->
  isNumber pid = true -> isNumber yr = true -> isNumber hr = true ->
  decimalValue hr < 2 ^ 53 ->
  forallb Csv.notQuote pre = true -> noDigitAhead post = true ->
  Csv.parseLine (pre ++ exportLine last first pid yr hr ++ post)
  = if 10 <=? decimalValue hr
    then Some (mkPlayerData (first ++ [SPACE] ++ last) (js "mlb-" ++ pid)
                 (js "UNK") (decimalValue hr) None)
    else None.
Proof.
  intros Hlast Hfirst Tlast Tfirst Hpid Hyr Hhr _ Hpre Hpost.
  destruct (plain_parts _ Hlast) as [Qlast Klast].
  destruct (plain_parts _ Hfirst) as [Qfirst Kfirst].
  unfold Csv.parseLine.
  rewrite (regexMatch_skip _ _ Hpre), exportLine_shape, regexMatch_cons.
  rewrite matchHere_fields; try done.
  - cbn [Csv.homeRunsStr Csv.fullName Csv.playerId].
    destruct (parseInt_number _ Hhr) as [-> _].
    rewrite (split_unsplit COMMA last (SPACE :: first) Klast).
    rewrite (split_whole COMMA (SPACE :: first)) by exact Kfirst.
    cbn [fmap list_fmap]. rewrite trim_after_space, Tlast, Tfirst.
    reflexivity.
  - by destruct last.
  - rewrite forallb_app. cbn. by rewrite Qlast, Qfirst.
Qed.

Lemma parseLine_export_line_witness :
  Csv.parseLine
    ([] ++ exportLine (js "Judge") (js "Aaron") (js "592450") (js "2025")
             (js "58") ++ js " trailing")
  = if 10 <=? decimalValue (js "58")
    then Some (mkPlayerData (js "Aaron" ++ [SPACE] ++ js "Judge")
                 (js "mlb-" ++ js "592450") (js "UNK")
                 (decimalValue (js "58")) None)
    else None.
Proof.
  apply parseLine_export_line; reflexivity.
Defined.

Lemma comma_inv {A} s (k : jsstring -> option A) a :
  Csv.comma s k = Some a -> exists r, s = COMMA :: r /\ k r = Some a.
Proof.
  unfold Csv.comma. destruct s as [|c r]; [discriminate|].
  destruct (c =? COMMA)%N eqn:Hc; [|discriminate].
  apply N.eqb_eq in Hc as ->. intros H. by exists r.
Qed.

Lemma digits1_inv {A} s (k : jsstring -> jsstring -> option A) a :
  Csv.digits1 s k = Some a ->
  exists d, isNumber d = true /\ k d (dropWhile isDigit s) = Some a.
Proof.
  unfold Csv.digits1. intros H.
  pose proof (takeWhile_forallb isDigit s) as Hd.
  destruct (takeWhile isDigit s) as [|c d]; [discriminate|].
  exists (c :: d). split; [|exact H]. unfold isNumber. by rewrite Hd.
Qed.

(** What the pattern captures: a non-empty name without a quote, and
    three numbers. *)
Lemma regexMatch_groups line g :
  Csv.regexMatch line = Some g ->
  Csv.fullName g <> []
  /\ forallb Csv.notQuote (Csv.fullName g) = true
  /\ isNumber (Csv.playerId g) = true
  /\ isNumber (Csv.year g) = true
  /\ isNumber (Csv.homeRunsStr g) = true.
Proof.
  assert (Hhere : forall s, Csv.matchHere s = Some g ->
            Csv.fullName g <> []
            /\ forallb Csv.notQuote (Csv.fullName g) = true
            /\ isNumber (Csv.playerId g) = true
            /\ isNumber (Csv.year g) = true
            /\ isNumber (Csv.homeRunsStr g) = true).
  { intros s. unfold Csv.matchHere.
    destruct s as [|c s1]; [discriminate|].
    destruct (c =? QUOTE)%N; [|discriminate].
    pose proof (takeWhile_forallb Csv.notQuote s1) as Hn.
    destruct (takeWhile Csv.notQuote s1) as [|n0 n]; [discriminate|].
    destruct (dropWhile Csv.notQuote s1) as [|q r1]; [discriminate|].
    intros H.
    apply comma_inv in H as (r2 & _ & H).
    apply digits1_inv in H as (pid & Hpid & H).
    apply comma_inv in H as (r4 & _ & H).
    apply digits1_inv in H as (yr & Hyr & H).
    apply comma_inv in H as (r6 & _ & H).
    apply digits1_inv in H as (hr & Hhr & H).
    injection H as <-. cbn. done. }
  induction line as [|c line IH].
  - discriminate.
  - rewrite regexMatch_cons.
    destruct (Csv.matchHere (c :: line)) eqn:E; [|exact IH].
    intros [= ->]. by apply (Hhere (c :: line)).
Qed.

Lemma parseLine_shape line p :
  Csv.parseLine line = Some p ->
  exists g,
    Csv.regexMatch line = Some g
    /\ mlbId p = js "mlb-" ++ Csv.playerId g
    /\ homeRuns p = decimalValue (Csv.homeRunsStr g)
    /\ 10 <= homeRuns p
    /\ teamAbbr p = js "UNK"
    /\ photoUrl p = None
    /\ name p <> [].
Proof.
  unfold Csv.parseLine.
  destruct (Csv.regexMatch line) as [g|] eqn:Hg; [|discriminate].
  destruct (regexMatch_groups _ _ Hg) as (Hne & _ & _ & _ & Hhr).
  destruct (parseInt_number _ Hhr) as [-> _].
  destruct (10 <=? decimalValue (Csv.homeRunsStr g)) eqn:Hten; [|discriminate].
  intros [= <-]. exists g. cbn. apply Z.leb_le in Hten.
  repeat split; try done.
  destruct (trim <$> split COMMA (Csv.fullName g)) as [|l [|f rest]]; try done.
  by destruct f.
Qed.

(** X2.  Every record the CSV fetcher returns has the id [mlb-] followed
    by a run of digits, the placeholder team [UNK], no photo, a name
    that is not empty and at least 10 home runs. *)
Theorem scraped_record_shape {S} year (w : World S) players w' :
  scrapePlayerStats year w = (Returned players, w') ->
  Forall (fun p => (exists pid, mlbId p = js "mlb-" ++ pid
                                /\ isNumber pid = true)
                   /\ teamAbbr p = js "UNK"
                   /\ photoUrl p = None
                   /\ name p <> []
                   /\ 10 <= homeRuns p) players.
Proof.
  intros Hrun.
  apply scrape_returned_inv in Hrun as (body & _ & -> & _).
  apply Forall_forall. intros p Hin.
  unfold Csv.parseCsv in Hin.
  apply list_elem_of_omap in Hin as (line & _ & Hp).
  apply parseLine_shape in Hp as (g & Hg & Hid & _ & Hten & Ht & Hph & Hn).
  destruct (regexMatch_groups _ _ Hg) as (_ & _ & Hpid & _ & _).
  split; [by exists (Csv.playerId g)|done].
Qed.

Lemma scraped_record_shape_witness :
  Forall (fun p => (exists pid, mlbId p = js "mlb-" ++ pid
                                /\ isNumber pid = true)
                   /\ teamAbbr p = js "UNK"
                   /\ photoUrl p = None
                   /\ name p <> []
                   /\ 10 <= homeRuns p) [judge; judge60].
Proof.
  apply (scraped_record_shape 2025 dupWorld [judge; judge60] dupWorld).
  rewrite (scrape_text 2025 dupWorld dupBody eq_refl).
  repeat f_equal; vm_compute; reflexivity.
Defined.

(* ===================================================================== *)
(** ** The CSV file of the import scripts *)
(* ===================================================================== *)

Lemma parseCsvLine_shape raw p :
  Import2025.parseCsvLine raw = Some p ->
  10 <= Import2025.csv_homeRuns p
  /\ Import2025.csv_name p <> []
  /\ trimmed (Import2025.csv_name p)
  /\ trimmed (Import2025.csv_team p).
Proof.
  unfold Import2025.parseCsvLine.
  destruct (truthy (trim raw)) eqn:Hline; [|discriminate].
  destruct (split COMMA (trim raw)) as [|name_ rest] eqn:Hparts;
    [by apply split_nonempty in Hparts|].
  cbn [lookup list_lookup default].
  destruct rest as [|team rest]; [discriminate|].
  cbn [lookup list_lookup].
  destruct rest as [|hrs rest]; [discriminate|].
  cbn [lookup list_lookup].
  destruct (parseInt hrs) as [hr|]; [|discriminate].
  unfold id.
  destruct (truthy name_ && truthy team && (10 <=? hr)) eqn:Hc; [|discriminate].
  intros [= <-]. cbn.
  apply andb_true_iff in Hc as [Hc Hten].
  apply andb_true_iff in Hc as [Hname _].
  apply Z.leb_le in Hten.
  repeat split; [exact Hten| |apply trim_trimmed|apply trim_trimmed].
  destruct name_ as [|c n]; [discriminate|].
  destruct (split_head _ _ _ _ c n Hparts eq_refl) as [s' Hs'].
  destruct (trim_ends raw) as [Hhead _]. rewrite Hs' in Hhead.
  destruct (trim_keeps_head c n Hhead) as [t ->]. done.
Qed.

(** X3.  Every player [parseCSV] returns has at least 10 home runs, a
    name that is not empty, and a name and a team without white space
    at either end. *)
Theorem parseCSV_record_shape csvContent :
  Forall (fun p => 10 <= Import2025.csv_homeRuns p
                   /\ Import2025.csv_name p <> []
                   /\ trimmed (Import2025.csv_name p)
                   /\ trimmed (Import2025.csv_team p))
    (Import2025.parseCSV csvContent).
Proof.
  apply Forall_forall. intros p Hin. unfold Import2025.parseCSV in Hin.
  apply list_elem_of_omap in Hin as (raw & _ & Hp).
  by apply parseCsvLine_shape in Hp.
Qed.

(** The guard of [parseCSV] tests the team before it is trimmed: a team
    of white space passes and is stored empty. *)
Example parseCSV_blank_team :
  Import2025.parseCSV (js "name,team,hr" ++ [LF] ++ js "Aaron Judge, ,58")
  = [Import2025.mkCSVPlayer (js "Aaron Judge") [] 58].
Proof. reflexivity. Qed.

(** A fourth field is ignored, and so is what follows the digits of the
    third. *)
Example parseCSV_trailing_text :
  Import2025.parseCSV (js "name,team,hr" ++ [LF] ++ js " Aaron Judge ,NYY,58 HR,x")
  = [Import2025.mkCSVPlayer (js "Aaron Judge") (js "NYY") 58].
Proof. reflexivity. Qed.

(* ===================================================================== *)
(** ** External ids computed from names *)
(* ===================================================================== *)

Lemma squeezeHyphens_elem s : forall b x,
  x ∈ squeezeHyphens b s -> x ∈ s.
Proof.
  induction s as [|c s IH]; intros b x; [done|]. cbn.
  destruct (c =? HYPHEN)%N eqn:Hc.
  - apply N.eqb_eq in Hc as ->. destruct b.
    + intros H. apply elem_of_cons. right. by apply (IH true).
    + intros H. apply elem_of_cons in H as [->|H]; [by left|].
      apply elem_of_cons. right. by apply (IH true).
  - intros H. apply elem_of_cons in H as [->|H]; [by left|].
    apply elem_of_cons. right. by apply (IH false).
Qed.

Lemma squeezeHyphens_single s : forall b,
  (b = true -> forall r, squeezeHyphens b s <> HYPHEN :: r)
  /\ ~ doubledHyphen (squeezeHyphens b s).
Proof.
  induction s as [|c s IH]; intros b.
  - split; [done|]. intros (a & r & H). by destruct a.
  - cbn. destruct (c =? HYPHEN)%N eqn:Hc.
    + destruct b.
      * apply (IH true).
      * split; [done|]. intros (a & r & H).
        destruct a as [|x a]; apply (f_equal tail) in H; cbn in H.
        -- by apply (proj1 (IH true) eq_refl r).
        -- apply (proj2 (IH true)). by exists a, r.
    + apply N.eqb_neq in Hc. split.
      * intros _ r [= ->]. done.
      * intros (a & r & H).
        destruct a as [|x a].
        -- by injection H as ->.
        -- apply (f_equal tail) in H. cbn in H.
           apply (proj2 (IH false)). by exists a, r.
Qed.

(** X4.  The external id the import scripts compute from a name holds
    nothing but [a-z], [0-9] and hyphens, and never two hyphens in a
    row, whatever the name and whatever [toLowerCase] makes of it. *)
Theorem slugOf_alphabet toLowerCase playerName :
  forallb slugUnit (Import2025.slugOf toLowerCase playerName) = true
  /\ ~ doubledHyphen (Import2025.slugOf toLowerCase playerName).
Proof.
  unfold Import2025.slugOf. split; [|apply squeezeHyphens_single].
  apply forallb_forall. intros x Hx.
  apply list_elem_of_In, squeezeHyphens_elem, list_elem_of_In in Hx.
  by apply filter_In in Hx as [_ Hx].
Qed.

(** The id may be empty, and hyphens stay at its ends. *)
Example slugOf_edges :
  Import2025.slugOf asciiLower (js "!!!") = []
  /\ Import2025.slugOf asciiLower (js " J.D.  Martinez -") = js "-jd-martinez-".
Proof. split; reflexivity. Qed.

Lemma uint_digits d : forallb isDigit (js (NilEmpty.string_of_uint d)) = true.
Proof. induction d; try reflexivity; unfold js in *; cbn; exact IHd. Qed.

Lemma decimal_digits n : forallb isDigit (decimal n) = true /\ decimal n <> [].
Proof.
  unfold decimal, NilZero.string_of_uint.
  destruct (Nat.to_uint n) eqn:E; try done;
    (split; [apply (uint_digits (_ u)) | by unfold js]).
Qed.

Lemma digit_slugUnit c : isDigit c = true -> slugUnit c = true.
Proof. unfold slugUnit. intros ->. by rewrite orb_true_r. Qed.

(** X5.  Every record the page fetcher's row callback returns has a
    name and a team that are not empty and carry no white space at
    either end, an id that is not empty and holds nothing but [a-z],
    [0-9] and hyphens, no photo, and at least 10 home runs. *)
Theorem legacy_parseRow_shape toLowerCase index cells p :
  Legacy.parseRow toLowerCase index cells = Some p ->
  name p <> [] /\ trimmed (name p)
  /\ teamAbbr p <> [] /\ trimmed (teamAbbr p)
  /\ mlbId p <> [] /\ forallb slugUnit (mlbId p) = true
  /\ photoUrl p = None
  /\ 10 <= homeRuns p.
Proof.
  unfold Legacy.parseRow. intros H.
  destruct (truthy _ && truthy _ && (10 <=? _)) eqn:Hc; [|discriminate].
  apply (inj Some) in H. subst p. cbn [name mlbId teamAbbr homeRuns photoUrl].
  apply andb_true_iff in Hc as [Hc Hten].
  apply andb_true_iff in Hc as [Hname Hteam].
  apply Z.leb_le in Hten.
  repeat split; try apply trim_trimmed; try done.
  - intros E. by rewrite E in Hname.
  - intros E. by rewrite E in Hteam.
  - destruct (truthy (List.filter slugUnit _)) eqn:Hs.
    + intros E. by rewrite E in Hs.
    + by unfold js.
  - destruct (truthy (List.filter slugUnit _)) eqn:Hs.
    + apply forallb_forall. intros x Hx. by apply filter_In in Hx as [_ Hx].
    + rewrite forallb_app. apply andb_true_iff. split; [reflexivity|].
      apply forallb_forall. intros x Hx. apply digit_slugUnit.
      destruct (decimal_digits index) as [Hd _].
      by apply (proj1 (forallb_forall _ _) Hd).
Qed.

Lemma legacy_parseRow_shape_witness :
  name (mkPlayerData (js "Aaron Judge") (js "aaron-judge") (js "NYY") 26 None) <> []
  /\ trimmed (name (mkPlayerData (js "Aaron Judge") (js "aaron-judge") (js "NYY") 26 None))
  /\ teamAbbr (mkPlayerData (js "Aaron Judge") (js "aaron-judge") (js "NYY") 26 None) <> []
  /\ trimmed (teamAbbr (mkPlayerData (js "Aaron Judge") (js "aaron-judge") (js "NYY") 26 None))
  /\ mlbId (mkPlayerData (js "Aaron Judge") (js "aaron-judge") (js "NYY") 26 None) <> []
  /\ forallb slugUnit (mlbId (mkPlayerData (js "Aaron Judge") (js "aaron-judge") (js "NYY") 26 None)) = true
  /\ photoUrl (mkPlayerData (js "Aaron Judge") (js "aaron-judge") (js "NYY") 26 None) = None
  /\ 10 <= homeRuns (mkPlayerData (js "Aaron Judge") (js "aaron-judge") (js "NYY") 26 None).
Proof.
  apply (legacy_parseRow_shape asciiLower 0
           [js " Aaron Judge "; js "NYY, AL"; js "0x1A"]).
  reflexivity.
Defined.

(* ===================================================================== *)
(** ** Runs under any fault schedule *)
(* ===================================================================== *)

Lemma request_cases {S A} (serve : S -> Outcome A * S) (w : World S) :
  (exists e fs,
     faults w = Some e :: fs
     /\ request serve w
        = (Threw e, mkWorld (store w) (clock w + 1) fs (upstream w)))
  \/ (request serve w
      = (fst (serve (store w)),
         mkWorld (snd (serve (store w))) (clock w + 1) (tail (faults w))
           (upstream w))
      /\ forall e fs, faults w <> Some e :: fs).
Proof.
  unfold request. destruct (faults w) as [|[e|] fs] eqn:Hf.
  - right. split; [by destruct (serve (store w))|done].
  - left. by exists e, fs.
  - right. split; [by destruct (serve (store w))|done].
Qed.

Lemma forOf_returns {W A X} (body : A -> X -> Async (W := W) A) l :
  (forall acc x w, exists a w', body acc x w = (Returned a, w')) ->
  forall acc w, exists a w', forOf l acc body w = (Returned a, w').
Proof.
  intros Hbody. induction l as [|x l IH]; intros acc w.
  - by exists acc, w.
  - cbn. unfold bind. destruct (Hbody acc x w) as (a & w1 & ->). apply IH.
Qed.

Lemma tryCatch_returns {W A} (body : Async (W := W) A) (h : Thrown -> A) w :
  exists a w', tryCatch body (fun e => ret (h e)) w = (Returned a, w').
Proof.
  unfold tryCatch, ret. destruct (body w) as [[a|e] w']; by eexists _, _.
Qed.

Lemma seedOne_returns yr c p w :
  exists c' w', seedOne yr c p w = (Returned c', w').
Proof. apply (tryCatch_returns _ (fun _ => skipped c)). Qed.

Section Keeps.
Context {S : Type} (R : S -> S -> Prop) `{!PreOrder R}.

Lemma keeps_ret {A} (a : A) : keeps R (ret a).
Proof. intros w. split; reflexivity. Qed.

Lemma keeps_throw {A} e : keeps R (throw (A := A) e).
Proof. intros w. split; reflexivity. Qed.

Lemma keeps_newDate : keeps R newDate.
Proof. intros w. split; reflexivity. Qed.

Lemma keeps_bind {A B} (m : Async A) (k : A -> Async B) :
  keeps R m -> (forall a, keeps R (k a)) -> keeps R (bind m k).
Proof.
  intros Hm Hk w. unfold bind. destruct (Hm w) as [H1 U1].
  destruct (m w) as [[a|e] w1]; [|done]. cbn in H1, U1.
  destruct (Hk a w1) as [H2 U2]. split; [by etrans|congruence].
Qed.

Lemma keeps_tryCatch {A} (body : Async A) handler :
  keeps R body -> (forall e, keeps R (handler e)) ->
  keeps R (tryCatch body handler).
Proof.
  intros Hm Hk w. unfold tryCatch. destruct (Hm w) as [H1 U1].
  destruct (body w) as [[a|e] w1]; [done|]. cbn in H1, U1.
  destruct (Hk e w1) as [H2 U2]. split; [by etrans|congruence].
Qed.

Lemma keeps_request {A} (serve : S -> Outcome A * S) :
  (forall s, R s (snd (serve s))) -> keeps R (request serve).
Proof.
  intros Hserve w.
  destruct (request_cases serve w) as [(e & fs & _ & ->)|[-> _]];
    (split; [|reflexivity]); cbn; [reflexivity|apply Hserve].
Qed.

Lemma keeps_forOf {A X} (body : A -> X -> Async A) l :
  Forall (fun x => forall acc, keeps R (body acc x)) l ->
  forall acc, keeps R (forOf l acc body).
Proof.
  induction 1 as [|x l Hx _ IH]; intros acc.
  - apply keeps_ret.
  - cbn. apply keeps_bind; [apply Hx|]. intros a. apply IH.
Qed.

End Keeps.

(* ===================================================================== *)
(** ** The scrape and seed pipeline *)
(* ===================================================================== *)

Lemma seed_returns players yr w :
  exists c w', seedPlayersToDatabase players yr w = (Returned c, w').
Proof. apply forOf_returns. intros acc x w0. apply seedOne_returns. Qed.

(** X6.  The pipeline fails exactly when the fetch fails, with the
    fetcher's error and the store untouched; an empty fetch ends the
    run without a request to the store; otherwise the run ends normally
    in the world the resolver leaves, whatever failures the storage
    service produced. *)
Theorem pipeline_fails_only_on_fetch year (w : World Store) :
  (exists e, scrapePlayerStats year w = (Threw e, w)
             /\ scrapeAndSeedPlayers year w = (Threw e, w))
  \/ (scrapePlayerStats year w = (Returned [], w)
      /\ scrapeAndSeedPlayers year w = (Returned tt, w))
  \/ (exists players c w',
        players <> []
        /\ scrapePlayerStats year w = (Returned players, w)
        /\ seedPlayersToDatabase players year w = (Returned c, w')
        /\ scrapeAndSeedPlayers year w = (Returned tt, w')).
Proof.
  destruct (scrapePlayerStats year w) as [[players|e] w0] eqn:Hrun.
  - destruct (scrape_returned_inv _ _ _ _ Hrun) as (_ & _ & _ & ->).
    destruct players as [|p l].
    + right. left. split; [done|].
      unfold scrapeAndSeedPlayers, tryCatch, bind. by rewrite Hrun.
    + right. right.
      destruct (seed_returns (p :: l) year w) as (c & w' & Hseed).
      exists (p :: l), c, w'. repeat split; try done.
      unfold scrapeAndSeedPlayers, tryCatch, bind. rewrite Hrun.
      by rewrite Hseed.
  - left. exists e.
    destruct (failed_fetch_leaves_store _ _ _ _ Hrun) as [Hp ->]. done.
Qed.

Lemma lastTeam_Some l m t :
  lastTeam l m = Some t -> exists p, p ∈ l /\ mlbId p = m /\ teamAbbr p = t.
Proof.
  induction l as [|p l IH]; [discriminate|]. cbn.
  destruct (lastTeam l m) as [t'|] eqn:E.
  - intros [= <-]. destruct (IH eq_refl) as (q & Hq & Hm & Ht).
    exists q. split; [by apply elem_of_cons; right|done].
  - destruct (bool_decide (mlbId p = m)) eqn:Hd; [|discriminate].
    apply bool_decide_eq_true in Hd. intros [= <-].
    exists p. split; [by apply elem_of_cons; left|done].
Qed.

Lemma scraped_teams {S} year (w : World S) players w' p :
  scrapePlayerStats year w = (Returned players, w') -> p ∈ players ->
  teamAbbr p = js "UNK".
Proof.
  intros Hrun Hin.
  apply scrape_returned_inv in Hrun as (body & _ & -> & _).
  unfold Csv.parseCsv in Hin.
  apply list_elem_of_omap in Hin as (line & _ & Hp).
  by apply parseLine_shape in Hp as (g & _ & _ & _ & _ & Ht & _).
Qed.

(** X7.  When the storage service answers every request, the pipeline
    leaves every Player whose external id was fetched with the
    placeholder team [UNK]: the team the store held for a known player
    is overwritten by the fetcher's placeholder. *)
Theorem pipeline_resets_team year (w : World Store) players :
  faults w = [] -> wf_store (store w) ->
  scrapePlayerStats year w = (Returned players, w) ->
  exists w',
    scrapeAndSeedPlayers year w = (Returned tt, w')
    /\ forall r p, r ∈ Player (store w') -> p ∈ players ->
                   row_mlbId r = mlbId p -> row_teamAbbr r = js "UNK".
Proof.
  intros Hf Hwf Hrun.
  destruct players as [|p0 l].
  - exists w. split.
    + unfold scrapeAndSeedPlayers, tryCatch, bind. by rewrite Hrun.
    + intros r p _ Hp. by apply elem_of_nil in Hp.
  - destruct (forOf_seedOne_served year (p0 :: l) (mkCounts 0 0 0) w Hf Hwf)
      as (c' & Hseed & _).
    eexists. split.
    + unfold scrapeAndSeedPlayers, tryCatch, bind. rewrite Hrun.
      unfold seedPlayersToDatabase. rewrite Hseed. reflexivity.
    + cbn [store]. intros r p Hr Hp Hid.
      destruct (lastTeam_elem _ _ Hp) as [t Ht].
      rewrite <- Hid in Ht.
      rewrite (servedRun_settled (p0 :: l) (clock w) (store w) Hwf r t Hr Ht).
      apply lastTeam_Some in Ht as (q & Hq & _ & <-).
      by apply (scraped_teams year w (p0 :: l) w).
Qed.

Lemma pipeline_resets_team_witness :
  exists w',
    scrapeAndSeedPlayers 2025 judgeWorld = (Returned tt, w')
    /\ forall r p, r ∈ Player (store w') -> p ∈ [judge; judge60] ->
                   row_mlbId r = mlbId p -> row_teamAbbr r = js "UNK".
Proof.
  apply (pipeline_resets_team 2025 judgeWorld [judge; judge60]).
  - reflexivity.
  - split; [apply NoDup_singleton|]. split; [apply NoDup_singleton|].
    apply Forall_singleton. cbn. lia.
  - rewrite (scrape_text 2025 judgeWorld dupBody eq_refl).
    repeat f_equal; vm_compute; reflexivity.
Defined.

(** The team on record before the run is gone after it. *)
Example pipeline_forgets_team :
  row_teamAbbr <$> Player (store judgeWorld) = [js "NYY"]
  /\ row_teamAbbr <$> Player (store (snd (scrapeAndSeedPlayers 2025 judgeWorld)))
     = [js "UNK"].
Proof. split; vm_compute; reflexivity. Qed.

(* ===================================================================== *)
(** ** What the resolver leaves alone, whatever fails *)
(* ===================================================================== *)

Lemma touchedOnly_trans l x y z :
  touchedOnly l x y -> touchedOnly l y z -> touchedOnly l x z.
Proof.
  intros [->|[Hxy (p & Hp & Hm)]] [->|[Hyz (q & Hq & Hn)]].
  - by left.
  - right. split; [done|]. by exists q.
  - right. split; [done|]. by exists p.
  - right. split; [congruence|]. by exists p.
Qed.

Lemma touchedOnly_named l x y :
  touchedOnly l x y ->
  (exists p, p ∈ l /\ mlbId p = row_mlbId x) ->
  exists p, p ∈ l /\ mlbId p = row_mlbId y.
Proof.
  intros [->|[Hxy _]] (p & Hp & Hm); exists p; split; try done.
  rewrite Hm. unfold permanent in Hxy. congruence.
Qed.

#[local] Instance extends_preorder l :
  PreOrder (fun s s' : Store => extends l (Player s) (Player s')).
Proof.
  split.
  - intros s. exists (Player s), []. rewrite app_nil_r.
    repeat split; [|done]. apply Forall2_same_length_lookup.
    split; [done|]. intros i x y Hx Hy. left. congruence.
  - intros s1 s2 s3 (k1 & n1 & E1 & F1 & N1) (k2 & n2 & E2 & F2 & N2).
    rewrite E1 in F2.
    apply Forall2_app_inv_l in F2 as (k2a & k2b & Fa & Fb & ->).
    exists k2a, (k2b ++ n2). rewrite E2, <- app_assoc.
    repeat split.
    + eapply Forall2_trans; [|exact F1|exact Fa].
      intros x y z. apply touchedOnly_trans.
    + apply Forall_app. split; [|done].
      eapply Forall2_Forall_r; [exact Fb|].
      eapply Forall_impl; [exact N1|].
      intros x Hx y Hxy. by eapply touchedOnly_named.
Qed.

Lemma extends_same_players l (s s' : Store) :
  Player s' = Player s -> extends l (Player s) (Player s').
Proof.
  intros ->. apply (@reflexivity _ _ (@PreOrder_Reflexive _ _ (extends_preorder l)) s).
Qed.

(** [playerDb.upsert] with the resolver's payloads: the update carries
    neither a name nor a photo. *)
Lemma keeps_player_upsert l p c u :
  p ∈ l -> c_mlbId c = mlbId p -> u_name u = None -> u_photoUrl u = None ->
  keeps (fun s s' => extends l (Player s) (Player s'))
    (playerDb.upsert (mlbId p) c u).
Proof.
  intros Hp Hc Hname Hphoto w.
  unfold playerDb.upsert, bind, playerDb.findFirst.
  destruct (request_cases
              (fun s => (Returned (List.find (hasMlbId (mlbId p)) (Player s)), s)) w)
    as [(e & fs & _ & ->)|[-> _]]; cbn [fst snd].
  { split; [by apply extends_same_players|done]. }
  set (w1 := mkWorld _ _ _ _).
  destruct (List.find (hasMlbId (mlbId p)) (Player (store w))) as [e|] eqn:Hfind.
  - apply find_hasMlbId_Some in Hfind as [He Hm].
    unfold playerDb.update.
    match goal with |- context [request ?f w1] =>
      destruct (request_cases f w1) as [(e' & fs & _ & ->)|[-> _]] end;
      cbn [fst snd store upstream].
    { split; [by apply extends_same_players|done]. }
    split; [|done].
    change (store w1) with (store w).
    destruct (List.filter (hasId (row_id e)) (Player (store w))) as [|r [|r' rs]]
      eqn:Hfilter; cbn [snd]; try by apply extends_same_players.
    assert (Hr : forall x, x ∈ Player (store w) -> hasId (row_id e) x = true -> x = e).
    { intros x Hx Hid.
      assert (Hxin : x ∈ [r]).
      { rewrite <- Hfilter. apply list_elem_of_In, filter_In.
        split; [by apply list_elem_of_In|done]. }
      assert (Hein : e ∈ [r]).
      { rewrite <- Hfilter. apply list_elem_of_In, filter_In.
        split; [by apply list_elem_of_In|]. unfold hasId. apply N.eqb_refl. }
      apply list_elem_of_singleton in Hxin, Hein. congruence. }
    eexists _, []. rewrite app_nil_r. repeat split; [|done].
    cbn [Player journal].
    apply Forall2_fmap_r, Forall2_same_length_lookup. split; [done|].
    intros i x y Hx Hy. assert (y = x) as -> by congruence.
    unfold compose.
    destruct (hasId (row_id e) x) eqn:Hid; [|by left].
    right. assert (x = e) as ->.
    { apply Hr; [|done]. by eapply list_elem_of_lookup_2. }
    split; [|by exists p].
    unfold permanent, applyPatch. cbn. by rewrite Hname, Hphoto.
  - unfold playerDb.create.
    match goal with |- context [request ?f w1] =>
      destruct (request_cases f w1) as [(e' & fs & _ & ->)|[-> _]] end;
      cbn [fst snd store upstream].
    { split; [by apply extends_same_players|done]. }
    split; [|done].
    change (store w1) with (store w).
    destruct (existsb (hasMlbId (c_mlbId c)) (Player (store w)));
      cbn [snd]; [by apply extends_same_players|].
    eexists (Player (store w)), [_]. repeat split.
    + apply Forall2_same_length_lookup.
      split; [done|]. intros i x y Hx Hy. left. congruence.
    + apply Forall_singleton. exists p. by split.
Qed.

Lemma keeps_seedOne l yr c p :
  p ∈ l ->
  keeps (fun s s' => extends l (Player s) (Player s')) (seedOne yr c p).
Proof.
  intros Hp. unfold seedOne.
  apply keeps_tryCatch; [apply _| |intros e; apply keeps_ret; apply _].
  apply keeps_bind; [apply _|apply keeps_newDate; apply _|]. intros now.
  apply keeps_bind; [apply _|by apply keeps_player_upsert|]. intros r.
  apply keeps_bind; [apply _|apply keeps_throw; apply _|]. intros _.
  apply keeps_ret. apply _.
Qed.

Lemma seed_keeps players yr :
  keeps (fun s s' => extends players (Player s) (Player s'))
    (seedPlayersToDatabase players yr).
Proof.
  unfold seedPlayersToDatabase.
  apply (keeps_forOf (fun s s' => extends players (Player s) (Player s'))).
  apply Forall_forall. intros p Hp acc. by apply keeps_seedOne.
Qed.

(** X8.  Whatever failures the storage service produces, a run of the
    resolver over a record list leaves every Player row in its place;
    a row whose external id no record carries is left exactly as it
    was, a row whose id a record carries keeps its id, external id,
    name, photo and creation time, and every row the run adds carries
    the external id of a record.  No row is removed or renamed. *)
Theorem seed_touches_only_fetched players yr (w : World Store) :
  extends players (Player (store w))
    (Player (store (snd (seedPlayersToDatabase players yr w)))).
Proof.
  unfold seedPlayersToDatabase.
  pose proof (keeps_forOf (fun s s' => extends players (Player s) (Player s'))
                (seedOne yr) players) as Hloop.
  apply Hloop.
  apply Forall_forall. intros p Hp acc. by apply keeps_seedOne.
Qed.

(* ===================================================================== *)
(** ** The earlier resolver: what its counters say *)
(* ===================================================================== *)

Lemma prisma_find_patched m (g : Prisma.PlayerRow -> Prisma.PlayerRow)
    (rows : list Prisma.PlayerRow) e :
  (forall x, Prisma.l_mlbId (g x) = Prisma.l_mlbId x) ->
  List.find (Prisma.hasMlbId m) rows = Some e ->
  List.find (Prisma.hasMlbId m)
    ((fun x => if Prisma.hasMlbId m x then g x else x) <$> rows) = Some (g e).
Proof.
  intros Hg. induction rows as [|x rows IH]; [discriminate|].
  cbn. destruct (Prisma.hasMlbId m x) eqn:Hx.
  - intros [= ->]. unfold Prisma.hasMlbId in *. by rewrite Hg, Hx.
  - rewrite Hx. exact IH.
Qed.

Lemma prisma_find_appended m (rows : list Prisma.PlayerRow) r :
  List.find (Prisma.hasMlbId m) rows = None -> Prisma.l_mlbId r = m ->
  List.find (Prisma.hasMlbId m) (rows ++ [r]) = Some r.
Proof.
  intros Hnone Hr. induction rows as [|x rows IH]; cbn.
  - unfold Prisma.hasMlbId. by rewrite bool_decide_eq_true_2.
  - cbn in Hnone. destruct (Prisma.hasMlbId m x); [discriminate|]. by apply IH.
Qed.

(** One iteration of the earlier resolver ends as saved or as skipped,
    never as updated: the row read back is the row just written. *)
Lemma legacy_seedOne_counts yr c p (w : World Prisma.Store) :
  exists w',
    (Legacy.seedOne yr c p w = (Returned (saved c), w')
     /\ pending w' = pending w)
    \/ (Legacy.seedOne yr c p w = (Returned (skipped c), w')
        /\ pending w' + 1 = pending w).
Proof.
  unfold Legacy.seedOne, tryCatch, bind, newDate, Prisma.player_upsert,
    Prisma.player_findUnique, bind, newDate.
  match goal with |- context [request ?f w] =>
    destruct (request_cases f w) as [(e & fs & Hf & ->)|[-> Hf]] end.
  { eexists. right. split; [reflexivity|]. by eapply pending_struck. }
  cbn [fst snd].
  set (w1 := mkWorld _ _ _ _).
  assert (Hp1 : pending w1 = pending w).
  { subst w1. by eapply pending_served. }
  destruct (List.find (Prisma.hasMlbId (mlbId p)) (Prisma.Player (store w)))
    as [e|] eqn:Hfind; cbn [fst snd] in *.
  - match goal with |- context [request ?f w1] =>
      destruct (request_cases f w1) as [(e' & fs & Hf1 & ->)|[-> Hf1]] end.
    { eexists. right. split; [reflexivity|].
      rewrite <- Hp1. by eapply pending_struck. }
    subst w1. cbn [fst snd store Prisma.Player].
    rewrite (prisma_find_patched _ _ _ e) by done.
    cbn [Prisma.applyUpdate Prisma.l_createdAt]. rewrite Z.eqb_refl.
    eexists. left. split; [reflexivity|].
    rewrite <- Hp1. by eapply pending_served.
  - match goal with |- context [request ?f w1] =>
      destruct (request_cases f w1) as [(e' & fs & Hf1 & ->)|[-> Hf1]] end.
    { eexists. right. split; [reflexivity|].
      rewrite <- Hp1. by eapply pending_struck. }
    subst w1. cbn [fst snd store Prisma.Player].
    rewrite prisma_find_appended by done.
    cbn [Prisma.l_createdAt]. rewrite Z.eqb_refl.
    eexists. left. split; [reflexivity|].
    rewrite <- Hp1. by eapply pending_served.
Qed.

(** X9.  Whatever failures the storage service produces, a run of the
    earlier resolver returns normally, every record is counted as
    created or as skipped, the skipped ones being the failures that
    struck, and none is ever counted as updated, whether its Player was
    on record before or not. *)
Theorem legacy_seed_never_counts_update players yr (w : World Prisma.Store) :
  exists c w',
    Legacy.seedPlayersToDatabase players yr w = (Returned c, w')
    /\ createdCount c + skippedCount c = Z.of_nat (length players)
    /\ updatedCount c = 0
    /\ skippedCount c = pending w - pending w'.
Proof.
  unfold Legacy.seedPlayersToDatabase.
  assert (H : forall c0 w0, exists c w',
            forOf players c0 (Legacy.seedOne yr) w0 = (Returned c, w')
            /\ createdCount c + skippedCount c
               = createdCount c0 + skippedCount c0 + Z.of_nat (length players)
            /\ updatedCount c = updatedCount c0
            /\ skippedCount c - skippedCount c0 = pending w0 - pending w').
  { induction players as [|p l IH]; intros c0 w0.
    - exists c0, w0. cbn. repeat split; lia.
    - cbn [forOf]. unfold bind.
      destruct (legacy_seedOne_counts yr c0 p w0) as (w1 & [[-> Hp]|[-> Hp]]);
        [destruct (IH (saved c0) w1) as (c & w' & -> & Hsum & Hupd & Hskip)
        |destruct (IH (skipped c0) w1) as (c & w' & -> & Hsum & Hupd & Hskip)];
        exists c, w'; cbn in *; repeat split; try done;
        rewrite ?Nat2Z.inj_succ; lia. }
  destruct (H (mkCounts 0 0 0) w) as (c & w' & -> & Hsum & Hupd & Hskip).
  exists c, w'. cbn in *. repeat split; try done; lia.
Qed.

(** Judge was on record; the run reports him as created. *)
Example legacy_update_counted_as_created :
  fst (Legacy.seedPlayersToDatabase [judge] 2025 (quietWorld legacyStoreWithJudge))
  = Returned (mkCounts 1 0 0)
  /\ length (Prisma.Player
               (store (snd (Legacy.seedPlayersToDatabase [judge] 2025
                              (quietWorld legacyStoreWithJudge))))) = 1%nat.
Proof. split; vm_compute; reflexivity. Qed.

(* ===================================================================== *)
(** ** The season import under any fault schedule *)
(* ===================================================================== *)

Lemma prisma_find_Some m (rows : list Prisma.PlayerRow) e :
  List.find (Prisma.hasMlbId m) rows = Some e ->
  e ∈ rows /\ Prisma.l_mlbId e = m.
Proof.
  intros H. apply find_some in H as [Hin Hm].
  split; [by apply list_elem_of_In|].
  unfold Prisma.hasMlbId in Hm. by apply bool_decide_eq_true in Hm.
Qed.

Lemma pending_nonneg {S} (w : World S) : 0 <= pending w.
Proof. unfold pending. lia. Qed.

Lemma snapshotWrite_cases pid yr date t r p (w : World Prisma.Store) :
  (exists e fs,
     faults w = Some e :: fs
     /\ Import2025.snapshotWrite pid yr date t r p w
        = (Threw e, mkWorld (store w) (clock w + 1) fs (upstream w)))
  \/ (exists row nid,
        Import2025.snapshotWrite pid yr date t r p w
        = (Returned row,
           mkWorld
             (Prisma.mkStore (Prisma.Player (store w))
                (<[(pid, yr, date) := row]> (Prisma.PlayerStats (store w))) nid)
             (clock w + 1) (tail (faults w)) (upstream w))
        /\ Prisma.st_hrsTotal row = t
        /\ Prisma.st_hrsRegularSeason row = r
        /\ Prisma.st_hrsPostseason row = p
        /\ forall e fs, faults w <> Some e :: fs).
Proof.
  rewrite snapshotWrite_run.
  destruct (faults w) as [|[e|] fs] eqn:Hf.
  - right. destruct (Prisma.PlayerStats (store w) !! (pid, yr, date));
      eexists _, _; (split; [reflexivity|]); done.
  - left. by exists e, fs.
  - right. destruct (Prisma.PlayerStats (store w) !! (pid, yr, date));
      eexists _, _; (split; [reflexivity|]); done.
Qed.

(** The ways one iteration of the import can end. *)
Lemma importOne_cases lower c p (w : World Prisma.Store) :
  exists c' w',
    Import2025.importOne lower c p w = (Returned c', w')
    /\ upstream w' = upstream w
    /\ Prisma.Player (store w') = Prisma.Player (store w)
    /\ match List.find
               (Prisma.hasMlbId
                  (Import2025.slugOf lower (Import2025.csv_name p)))
               (Prisma.Player (store w)) with
       | None =>
           store w' = store w
           /\ ((c' = tallyMissing c /\ pending w' = pending w)
               \/ (c' = tallySkipped c /\ pending w' + 1 = pending w))
       | Some e =>
           (c' = tallySkipped c /\ pending w' + 1 = pending w
            /\ store w' = store w)
           \/ (exists row,
                 Prisma.PlayerStats (store w')
                 = <[seasonEndKey e := row]> (Prisma.PlayerStats (store w))
                 /\ holds (Import2025.csv_homeRuns p) row
                 /\ ((c' = tallyUpdated c /\ pending w' = pending w)
                     \/ (c' = tallySkipped c /\ pending w' + 1 = pending w)))
       end.
Proof.
  unfold Import2025.importOne, tryCatch, bind, Prisma.player_findUnique.
  match goal with |- context [request ?f w] =>
    destruct (request_cases f w) as [(e0 & fs & Hf & ->)|[-> Hf]] end.
  { eexists _, _. split; [reflexivity|]. cbn [upstream store].
    repeat split.
    destruct (List.find _ _).
    - left. repeat split. by eapply pending_struck.
    - split; [done|]. right. split; [done|]. by eapply pending_struck. }
  cbn [fst snd].
  set (w1 := mkWorld _ _ _ _).
  assert (Hp1 : pending w1 = pending w) by (subst w1; by eapply pending_served).
  destruct (List.find _ (Prisma.Player (store w))) as [e|] eqn:Hfind.
  2:{ eexists _, _. split; [reflexivity|]. subst w1. cbn [upstream store].
      repeat split. left. split; [done|]. exact Hp1. }
  destruct (snapshotWrite_cases (Prisma.l_id e) 2025 Import2025.seasonEndDate
              (Import2025.csv_homeRuns p) (Import2025.csv_homeRuns p) 0 w1)
    as [(e1 & fs1 & Hf1 & ->)|(row & nid & -> & Ht & Hr & Hpost & Hf1)].
  { eexists _, _. split; [reflexivity|]. cbn [upstream store].
    repeat split. left. repeat split.
    rewrite <- Hp1. by eapply pending_struck. }
  set (w2 := mkWorld _ _ _ _).
  assert (Hp2 : pending w2 = pending w).
  { rewrite <- Hp1. subst w2. by eapply pending_served. }
  unfold Prisma.playerStats_findFirst.
  match goal with |- context [request ?f w2] =>
    destruct (request_cases f w2) as [(e2 & fs2 & Hf2 & ->)|[-> Hf2]] end.
  { eexists _, _. split; [reflexivity|]. cbn [upstream store].
    repeat split. right. exists row. repeat split; try done.
    right. split; [done|]. rewrite <- Hp2. by eapply pending_struck. }
  cbn [fst snd].
  change (Prisma.PlayerStats (store w2))
    with (<[(Prisma.l_id e, 2025, Import2025.seasonEndDate) := row]>
            (Prisma.PlayerStats (store w))).
  rewrite lookup_insert_eq.
  eexists _, _. split; [reflexivity|]. cbn [upstream store].
  repeat split. right. exists row. repeat split; try done.
  left. split; [done|]. rewrite <- Hp2. by eapply pending_served.
Qed.

Lemma importFrame_refl ids s : importFrame ids s s.
Proof. by repeat split. Qed.

Lemma importFrame_trans ids s1 s2 s3 :
  importFrame ids s1 s2 -> importFrame ids s2 s3 -> importFrame ids s1 s3.
Proof.
  intros (P1 & K1 & F1) (P2 & K2 & F2). repeat split.
  - congruence.
  - intros k Hk. by apply K2, K1.
  - intros k Hk. rewrite F2, F1; [done|done|]. rewrite P1. exact Hk.
Qed.

Lemma importFrame_mono ids ids' s s' :
  (forall m, m ∈ ids -> m ∈ ids') -> importFrame ids s s' -> importFrame ids' s s'.
Proof.
  intros Hsub (P & K & F). repeat split; [done|done|].
  intros k Hk. apply F. intros e He Hm. apply Hk; [done|]. by apply Hsub.
Qed.

Lemma importOne_frame lower c p (w : World Prisma.Store) :
  importFrame [Import2025.slugOf lower (Import2025.csv_name p)]
    (store w) (store (snd (Import2025.importOne lower c p w))).
Proof.
  destruct (importOne_cases lower c p w) as (c' & w' & -> & _ & HP & Hcase).
  cbn [snd].
  destruct (List.find _ _) as [e|] eqn:Hfind.
  - apply prisma_find_Some in Hfind as [He Hm].
    destruct Hcase as [(_ & _ & ->)|(row & HS & _ & _)];
      [apply importFrame_refl|].
    repeat split; [done| |].
    + intros k Hk. rewrite HS.
      destruct (decide (k = seasonEndKey e)) as [->|Hne].
      * rewrite lookup_insert_eq. by eexists.
      * by rewrite lookup_insert_ne.
    + intros k Hk. rewrite HS. apply lookup_insert_ne.
      intros <-. apply (Hk e He); [|done]. rewrite Hm. by apply list_elem_of_singleton.
  - destruct Hcase as [-> _]. apply importFrame_refl.
Qed.

(** The loop of the import over any list of players, from any counters
    and any world. *)
Lemma import_loop lower l : forall c0 (w0 : World Prisma.Store),
  exists c w',
    forOf l c0 (Import2025.importOne lower) w0 = (Returned c, w')
    /\ Import2025.created c = Import2025.created c0
    /\ Import2025.updated c + Import2025.skipped c + Import2025.missingPlayer c
       = Import2025.updated c0 + Import2025.skipped c0
         + Import2025.missingPlayer c0 + Z.of_nat (length l)
    /\ Import2025.skipped c - Import2025.skipped c0 = pending w0 - pending w'
    /\ Import2025.skipped c0 <= Import2025.skipped c
    /\ importFrame (slugs lower l) (store w0) (store w').
Proof.
  induction l as [|p l IH]; intros c0 w0.
  - exists c0, w0. cbn. repeat split; try lia; done.
  - cbn [forOf]. unfold bind.
    pose proof (importOne_frame lower c0 p w0) as Hframe.
    destruct (importOne_cases lower c0 p w0) as (c1 & w1 & Hrun & _ & _ & Hcase).
    rewrite Hrun in Hframe |- *. cbn [snd] in Hframe.
    destruct (IH c1 w1) as (c & w' & -> & Hcr & Hsum & Hskip & Hmono & Hfr).
    exists c, w'. split; [done|].
    assert (Hone : Import2025.created c1 = Import2025.created c0
              /\ Import2025.updated c1 + Import2025.skipped c1
                 + Import2025.missingPlayer c1
                 = Import2025.updated c0 + Import2025.skipped c0
                   + Import2025.missingPlayer c0 + 1
              /\ Import2025.skipped c1 - Import2025.skipped c0
                 = pending w0 - pending w1
              /\ Import2025.skipped c0 <= Import2025.skipped c1).
    { destruct (List.find _ _).
      - destruct Hcase as [(-> & Hp & _)|(row & _ & _ & [[-> Hp]|[-> Hp]])];
          cbn; repeat split; lia.
      - destruct Hcase as [_ [[-> Hp]|[-> Hp]]]; cbn; repeat split; lia. }
    destruct Hone as (H1 & H2 & H3 & H4).
    split; [congruence|]. split; [cbn [length]; lia|].
    split; [lia|]. split; [lia|].
    apply (importFrame_trans _ _ (store w1)).
    + eapply importFrame_mono; [|exact Hframe].
      intros m Hm. apply list_elem_of_singleton in Hm as ->.
      apply elem_of_cons. by left.
    + eapply importFrame_mono; [|exact Hfr].
      intros m Hm. apply elem_of_cons. by right.
Qed.

(** X10.  Whatever failures the storage service produces, the import
    loop returns normally and counts every parsed player exactly once,
    as updated, skipped or missing; the skipped ones are the failures
    that struck; and no player is ever counted as created, since the
    snapshot is looked up after it has been written. *)
Theorem import_never_counts_creation lower csvContent (w : World Prisma.Store) :
  exists c w',
    Import2025.import2025Season lower csvContent w = (Returned c, w')
    /\ Import2025.created c = 0
    /\ Import2025.updated c + Import2025.skipped c + Import2025.missingPlayer c
       = Z.of_nat (length (Import2025.parseCSV csvContent))
    /\ Import2025.skipped c = pending w - pending w'.
Proof.
  unfold Import2025.import2025Season.
  destruct (import_loop lower (Import2025.parseCSV csvContent)
              (Import2025.mkImportCounts 0 0 0 0) w)
    as (c & w' & -> & Hcr & Hsum & Hskip & _ & _).
  exists c, w'. cbn in *. repeat split; try done; lia.
Qed.

(** X11.  Whatever failures the storage service produces, the import
    leaves the Player table as it is, removes no snapshot, and writes
    only under the key (player, 2025, season end) of a Player on record
    whose external id the file yields; every other snapshot, in
    particular every other date and season, is as before. *)
Theorem import_writes_only_season_end lower csvContent (w : World Prisma.Store) :
  importFrame (slugs lower (Import2025.parseCSV csvContent)) (store w)
    (store (snd (Import2025.import2025Season lower csvContent w))).
Proof.
  unfold Import2025.import2025Season.
  destruct (import_loop lower (Import2025.parseCSV csvContent)
              (Import2025.mkImportCounts 0 0 0 0) w)
    as (c & w' & -> & _ & _ & _ & _ & Hframe).
  exact Hframe.
Qed.

(** X12.  A CSV player whose computed external id matches no Player on
    record causes no write at all: the store is left as it was, and the
    player is counted as missing, or as skipped when the look-up itself
    failed. *)
Theorem import_unknown_player_writes_nothing lower c p (w : World Prisma.Store) :
  ~ Legacy.known (Import2025.slugOf lower (Import2025.csv_name p)) (store w) ->
  store (snd (Import2025.importOne lower c p w)) = store w
  /\ (fst (Import2025.importOne lower c p w) = Returned (tallyMissing c)
      \/ (fst (Import2025.importOne lower c p w) = Returned (tallySkipped c)
          /\ exists e fs, faults w = Some e :: fs)).
Proof.
  intros Hunknown.
  destruct (importOne_cases lower c p w) as (c' & w' & Hrun & _ & _ & Hcase).
  destruct (List.find _ _) as [e|] eqn:Hfind.
  { destruct Hunknown. exists e. by apply prisma_find_Some. }
  destruct Hcase as [Hstore Hc]. rewrite Hrun. cbn [fst snd].
  split; [done|].
  destruct Hc as [[-> _]|[-> Hp]]; [by left|right]. split; [done|].
  (* the look-up is the only request of this iteration *)
  unfold Import2025.importOne, tryCatch, bind, Prisma.player_findUnique in Hrun.
  match type of Hrun with context [request ?f w] =>
    destruct (request_cases f w) as [(e0 & fs & Hf & _)|[Hreq _]] end.
  - by exists e0, fs.
  - rewrite Hreq in Hrun. cbn [fst snd] in Hrun. rewrite Hfind in Hrun.
    unfold ret in Hrun. injection Hrun. intros. lia.
Qed.

Lemma import_unknown_player_writes_nothing_witness :
  store (snd (Import2025.importOne asciiLower (Import2025.mkImportCounts 0 0 0 0)
                csvStranger (quietWorld archiveBefore)))
  = store (quietWorld archiveBefore)
  /\ (fst (Import2025.importOne asciiLower (Import2025.mkImportCounts 0 0 0 0)
             csvStranger (quietWorld archiveBefore))
      = Returned (tallyMissing (Import2025.mkImportCounts 0 0 0 0))
      \/ (fst (Import2025.importOne asciiLower (Import2025.mkImportCounts 0 0 0 0)
                 csvStranger (quietWorld archiveBefore))
          = Returned (tallySkipped (Import2025.mkImportCounts 0 0 0 0))
          /\ exists e fs, faults (quietWorld archiveBefore) = Some e :: fs)).
Proof.
  apply (import_unknown_player_writes_nothing asciiLower).
  intros (r & Hr & Hm). cbn in Hr.
  apply list_elem_of_singleton in Hr as ->. vm_compute in Hm. discriminate.
Defined.

(** X13.  When the storage service answers every request, the snapshot
    of a Player at the season's end holds, after the import, the home
    runs of the last row of the file that resolves to that Player, as
    total and as regular-season count, with no postseason home runs;
    and nothing is skipped. *)
Theorem import_last_row_wins lower csvContent l1 p l2
    (w : World Prisma.Store) e :
  faults w = [] ->
  Import2025.parseCSV csvContent = l1 ++ p :: l2 ->
  List.find (Prisma.hasMlbId (Import2025.slugOf lower (Import2025.csv_name p)))
    (Prisma.Player (store w)) = Some e ->
  (forall e', e' ∈ Prisma.Player (store w) ->
              Prisma.l_mlbId e' ∈ slugs lower l2 ->
              Prisma.l_id e' <> Prisma.l_id e) ->
  exists c w' row,
    Import2025.import2025Season lower csvContent w = (Returned c, w')
    /\ Prisma.PlayerStats (store w') !! seasonEndKey e = Some row
    /\ holds (Import2025.csv_homeRuns p) row
    /\ Import2025.skipped c = 0.
Proof.
  intros Hf Hparse Hfind Hlater.
  assert (Hp0 : pending w = 0) by (unfold pending; by rewrite Hf).
  unfold Import2025.import2025Season. rewrite Hparse, forOf_app.
  destruct (import_loop lower l1 (Import2025.mkImportCounts 0 0 0 0) w)
    as (c1 & w1 & -> & _ & _ & Hs1 & Hm1 & (HP1 & _ & _)).
  cbn [forOf]. unfold bind.
  destruct (importOne_cases lower c1 p w1)
    as (c2 & w2 & -> & _ & HP2 & Hcase).
  rewrite HP1, Hfind in Hcase.
  pose proof (pending_nonneg w1) as Hn1.
  pose proof (pending_nonneg w2) as Hn2.
  cbn in Hs1, Hm1.
  destruct Hcase as [(_ & Hp & _)|(row & HS & Hrow & [[-> Hp]|[_ Hp]])];
    [lia| |lia].
  destruct (import_loop lower l2 (tallyUpdated c1) w2)
    as (c & w' & -> & _ & _ & Hs2 & Hm2 & (_ & _ & HF)).
  exists c, w', row. split; [done|].
  pose proof (pending_nonneg w') as Hn'.
  cbn in Hs2, Hm2.
  split; [|split; [done|lia]].
  rewrite HF.
  - rewrite HS. apply lookup_insert_eq.
  - intros e' He' Hm' Hkey. rewrite HP2, HP1 in He'.
    apply (Hlater e' He' Hm'). unfold seasonEndKey in Hkey. congruence.
Qed.

Lemma import_last_row_wins_witness :
  exists c w' row,
    Import2025.import2025Season asciiLower csvTwoJudges (quietWorld archiveBefore)
      = (Returned c, w')
    /\ Prisma.PlayerStats (store w') !! seasonEndKey archiveJudge = Some row
    /\ holds (Import2025.csv_homeRuns
                (Import2025.mkCSVPlayer (js "Aaron Judge") (js "NYY") 45)) row
    /\ Import2025.skipped c = 0.
Proof.
  apply (import_last_row_wins asciiLower csvTwoJudges
           [Import2025.mkCSVPlayer (js "Aaron Judge") (js "NYY") 30]
           (Import2025.mkCSVPlayer (js "Aaron Judge") (js "NYY") 45) []
           (quietWorld archiveBefore) archiveJudge).
  - reflexivity.
  - vm_compute. reflexivity.
  - vm_compute. reflexivity.
  - intros e' _ Hm. cbn in Hm. by apply elem_of_nil in Hm.
Defined.

(* ===================================================================== *)
(** ** The player import script *)
(* ===================================================================== *)

#[local] Instance onlyEligible_preorder :
  PreOrder (fun s s' : Prisma.Store =>
              forall r, r ∈ Prisma.Player s' -> r ∈ Prisma.Player s \/ eligibleRow r).
Proof.
  split.
  - intros s r Hr. by left.
  - intros s1 s2 s3 H12 H23 r Hr.
    destruct (H23 r Hr) as [Hr2|He]; [by apply H12|by right].
Qed.

Lemma importCsvOne_eligible lower c p :
  10 <= Import2025.csv_homeRuns p ->
  keeps (fun s s' : Prisma.Store =>
           forall r, r ∈ Prisma.Player s' -> r ∈ Prisma.Player s \/ eligibleRow r)
    (ImportCsv.importOne lower c p).
Proof.
  intros Hten. apply Z.leb_le in Hten. unfold ImportCsv.importOne.
  apply keeps_tryCatch; [apply _| |intros e; apply keeps_ret; apply _].
  apply keeps_bind; [apply _|apply keeps_newDate; apply _|]. intros now.
  apply keeps_bind; [apply _| |intros _; apply keeps_ret; apply _].
  unfold Prisma.player_upsert.
  apply keeps_bind; [apply _|apply keeps_newDate; apply _|]. intros now'.
  apply keeps_request; [apply _|]. intros s r.
  destruct (List.find _ (Prisma.Player s)) as [e|]; cbn [snd Prisma.Player].
  - intros Hr. apply list_elem_of_fmap in Hr as (x & -> & Hx).
    destruct (Prisma.hasMlbId _ x); [|by left].
    right. split; cbn; [done|by apply Z.leb_le].
  - intros Hr. apply elem_of_app in Hr as [Hr|Hr]; [by left|].
    apply list_elem_of_singleton in Hr as ->.
    right. split; cbn; [done|by apply Z.leb_le].
Qed.

Lemma importCsvOne_counts lower c p (w : World Prisma.Store) :
  exists w',
    ImportCsv.importOne lower c p w = (Returned (saved c), w')
    \/ ImportCsv.importOne lower c p w = (Returned (skipped c), w').
Proof.
  unfold ImportCsv.importOne, tryCatch, bind, newDate, Prisma.player_upsert,
    bind, newDate.
  match goal with |- context [request ?f w] =>
    destruct (request_cases f w) as [(e & fs & Hf & ->)|[-> Hf]] end.
  - eexists. by right.
  - cbn [fst snd].
    destruct (List.find _ (Prisma.Player (store w))); eexists; by left.
Qed.

(** X14.  Whatever failures the storage service produces, the player
    import returns normally and counts every parsed player as created
    or as skipped; and every Player row it leaves is either a row that
    was there before, unchanged, or an eligible row with at least 10
    home runs: the eligibility flag the script computes is never
    false. *)
Theorem importPlayers_writes_only_eligible lower csvContent
    (w : World Prisma.Store) :
  exists c w',
    ImportCsv.importPlayers lower csvContent w = (Returned c, w')
    /\ createdCount c + skippedCount c
       = Z.of_nat (length (Import2025.parseCSV csvContent))
    /\ updatedCount c = 0
    /\ forall r, r ∈ Prisma.Player (store w') ->
                 r ∈ Prisma.Player (store w) \/ eligibleRow r.
Proof.
  unfold ImportCsv.importPlayers.
  assert (Hcount : forall l c0 (w0 : World Prisma.Store), exists c w',
            forOf l c0 (ImportCsv.importOne lower) w0 = (Returned c, w')
            /\ createdCount c + skippedCount c
               = createdCount c0 + skippedCount c0 + Z.of_nat (length l)
            /\ updatedCount c = updatedCount c0).
  { induction l as [|p l IH]; intros c0 w0.
    - exists c0, w0. cbn. repeat split; lia.
    - cbn [forOf]. unfold bind.
      destruct (importCsvOne_counts lower c0 p w0) as (w1 & [-> | ->]);
        [destruct (IH (saved c0) w1) as (c & w' & -> & Hsum & Hupd)
        |destruct (IH (skipped c0) w1) as (c & w' & -> & Hsum & Hupd)];
        exists c, w'; cbn in *; repeat split; try done;
        rewrite ?Nat2Z.inj_succ; lia. }
  destruct (Hcount (Import2025.parseCSV csvContent) (mkCounts 0 0 0) w)
    as (c & w' & Hrun & Hsum & Hupd).
  exists c, w'. cbn in *. repeat split; try done; try lia.
  pose proof (keeps_forOf
                (fun s s' : Prisma.Store =>
                   forall r, r ∈ Prisma.Player s' ->
                             r ∈ Prisma.Player s \/ eligibleRow r)
                (ImportCsv.importOne lower) (Import2025.parseCSV csvContent))
    as Hkeeps.
  assert (Hall : Forall (fun x => forall acc,
                     keeps (fun s s' : Prisma.Store =>
                              forall r, r ∈ Prisma.Player s' ->
                                        r ∈ Prisma.Player s \/ eligibleRow r)
                       (ImportCsv.importOne lower acc x))
                   (Import2025.parseCSV csvContent)).
  { apply Forall_forall. intros p Hp acc. apply importCsvOne_eligible.
    unfold Import2025.parseCSV in Hp.
    apply list_elem_of_omap in Hp as (raw & _ & Hp).
    by apply parseCsvLine_shape in Hp as [Hten _]. }
  specialize (Hkeeps Hall (mkCounts 0 0 0) w).
  rewrite Hrun in Hkeeps. apply Hkeeps.
Qed.

(* ===================================================================== *)
(** ** The cumulative archive import *)
(* ===================================================================== *)

Lemma fold_top rest : forall l1 top l2,
  Forall (fun p => homeRuns p < homeRuns top) l1 ->
  Forall (fun p => homeRuns p <= homeRuns top) l2 ->
  exists l1' l2',
    let top' := fold_left (fun top current =>
                  if homeRuns top <? homeRuns current then current else top)
                  rest top in
    l1 ++ top :: l2 ++ rest = l1' ++ top' :: l2'
    /\ Forall (fun p => homeRuns p < homeRuns top') l1'
    /\ Forall (fun p => homeRuns p <= homeRuns top') l2'.
Proof.
  induction rest as [|c rest IH]; intros l1 top l2 H1 H2.
  - exists l1, l2. cbn. by rewrite app_nil_r.
  - cbn [fold_left]. destruct (Z.ltb_spec (homeRuns top) (homeRuns c)) as [Hlt|Hge].
    + destruct (IH (l1 ++ top :: l2) c []) as (l1' & l2' & Heq & H1' & H2').
      * apply Forall_app. split; [|apply Forall_cons; split; [done|]].
        -- eapply Forall_impl; [exact H1|]. cbn. intros; lia.
        -- eapply Forall_impl; [exact H2|]. cbn. intros; lia.
      * constructor.
      * exists l1', l2'. split; [|done].
        rewrite <- Heq. cbn. by rewrite <- app_assoc.
    + destruct (IH l1 top (l2 ++ [c])) as (l1' & l2' & Heq & H1' & H2').
      * done.
      * apply Forall_app. split; [done|]. by apply Forall_singleton.
      * exists l1', l2'. split; [|done].
        rewrite <- Heq. by rewrite <- app_assoc.
Qed.

(** X15.  The season's top player, taken by the reduction over the
    fetched records, is a record of the list with the highest home-run
    count, and among records with that count the first one. *)
Theorem reduceTop_first_maximum players :
  players <> [] ->
  exists top l1 l2,
    Archive.reduceTop players = Returned top
    /\ players = l1 ++ top :: l2
    /\ Forall (fun p => homeRuns p < homeRuns top) l1
    /\ Forall (fun p => homeRuns p <= homeRuns top) l2.
Proof.
  destruct players as [|first rest]; [done|]. intros _.
  destruct (fold_top rest [] first []) as (l1 & l2 & Heq & H1 & H2);
    [constructor|constructor|].
  eexists _, l1, l2. split; [reflexivity|]. done.
Qed.

Lemma reduceTop_first_maximum_witness :
  exists top l1 l2,
    Archive.reduceTop [soto; judge; ohtani; judge60; judge60] = Returned top
    /\ [soto; judge; ohtani; judge60; judge60] = l1 ++ top :: l2
    /\ Forall (fun p => homeRuns p < homeRuns top) l1
    /\ Forall (fun p => homeRuns p <= homeRuns top) l2.
Proof.
  apply reduceTop_first_maximum. discriminate.
Defined.

(* ===================================================================== *)
(** ** The cumulative archive import: the loop over the seasons *)
(* ===================================================================== *)

Lemma scrape_world {S} year (w : World S) : snd (scrapePlayerStats year w) = w.
Proof.
  destruct (upstream w (csvUrl year)) as [e | [body | msg]] eqn:Hup.
  - by rewrite (scrape_rejected _ _ _ Hup).
  - by rewrite (scrape_text _ _ _ Hup).
  - by rewrite (scrape_other _ _ _ Hup).
Qed.

Lemma scrape_by_upstream {S} year (w w1 : World S) :
  upstream w1 = upstream w ->
  fst (scrapePlayerStats year w1) = fst (scrapePlayerStats year w).
Proof.
  intros Hup.
  destruct (upstream w (csvUrl year)) as [e | [body | msg]] eqn:H;
    pose proof H as H1; rewrite <- Hup in H1.
  - by rewrite (scrape_rejected _ _ _ H), (scrape_rejected _ _ _ H1).
  - by rewrite (scrape_text _ _ _ H), (scrape_text _ _ _ H1).
  - by rewrite (scrape_other _ _ _ H), (scrape_other _ _ _ H1).
Qed.

Lemma fetched_by_upstream year (w w1 : World Store) :
  upstream w1 = upstream w -> fetched year w1 = fetched year w.
Proof. intros Hup. unfold fetched. by rewrite (scrape_by_upstream _ _ _ Hup). Qed.

(** One season of the archive import: nothing happens when the fetch
    fails or yields nothing; otherwise the records are handed to the
    resolver and the season is entered in the results with the number
    of fetched records. *)
Lemma importSeason_run acc year (w : World Store) :
  exists acc' w',
    Archive.importSeason acc year w = (Returned acc', w')
    /\ upstream w' = upstream w
    /\ Archive.totalImported acc' = Archive.totalImported acc + fetched year w
    /\ ((fetched year w = 0 /\ acc' = acc /\ w' = w)
        \/ (0 < fetched year w
            /\ exists res,
                 Archive.seasonResults acc'
                 = <[year := res]> (Archive.seasonResults acc)
                 /\ Archive.count res = fetched year w)).
Proof.
  unfold Archive.importSeason, tryCatch, bind, fetched.
  pose proof (scrape_world year w) as Hw.
  destruct (scrapePlayerStats year w) as [[players|e] w0]; cbn [fst snd] in *;
    subst w0.
  2:{ exists acc, w. repeat split; [lia|]. by left. }
  destruct players as [|p l].
  { exists acc, w. repeat split; [cbn; lia|]. by left. }
  destruct (seed_returns (p :: l) year w) as (c & w1 & Hseed).
  pose proof (proj2 (seed_keeps (p :: l) year w)) as Hup.
  rewrite Hseed in Hup |- *. cbn [snd] in Hup.
  cbn [Archive.reduceTop].
  destruct (bool_decide _); unfold Archive.sleep, ret;
    eexists _, _; (split; [reflexivity|]); cbn [upstream Archive.totalImported];
    (split; [done|]); (split; [done|]); right;
    (split; [cbn [length]; lia|]); eexists; split; reflexivity.
Qed.

(** X16.  The loop of the archive import over the seasons never fails.
    The total it reports is the number of records fetched for 2024 and
    2025, whether the resolver could save them or not; a season is
    entered in the results exactly when its fetch yields records; and
    a season whose fetch fails or yields nothing leaves the run as if
    that season were not in the list. *)
Theorem archive_import_isolates_seasons (w : World Store) :
  exists r w',
    Archive.importSeasons w = (Returned r, w')
    /\ Archive.totalImported r = fetched 2024 w + fetched 2025 w
    /\ (forall y,
          Archive.count <$> Archive.seasonResults r !! y
          = if bool_decide (y ∈ Archive.SEASONS_TO_IMPORT /\ 0 < fetched y w)
            then Some (fetched y w) else None)
    /\ (fetched 2024 w = 0 ->
        Archive.importSeasons w
        = Archive.importSeason (Archive.mkProgress 0 ∅) 2025 w)
    /\ (fetched 2025 w = 0 ->
        Archive.importSeasons w
        = Archive.importSeason (Archive.mkProgress 0 ∅) 2024 w).
Proof.
  unfold Archive.importSeasons, Archive.SEASONS_TO_IMPORT.
  cbn [forOf]. unfold bind.
  destruct (importSeason_run (Archive.mkProgress 0 ∅) 2024 w)
    as (acc1 & w1 & Hrun1 & Hup1 & Htot1 & Hcase1).
  rewrite Hrun1.
  destruct (importSeason_run acc1 2025 w1)
    as (acc2 & w2 & Hrun2 & Hup2 & Htot2 & Hcase2).
  rewrite Hrun2. unfold ret.
  rewrite (fetched_by_upstream 2025 w w1 Hup1) in Htot2, Hcase2.
  exists acc2, w2. split; [done|]. split; [cbn in Htot1; lia|].
  split; [|split].
  - intros y.
    assert (Hin : y ∈ [2024; 2025] <-> y = 2024 \/ y = 2025).
    { rewrite !elem_of_cons, elem_of_nil. tauto. }
    destruct Hcase1 as [(H1 & -> & ->)|(H1 & res1 & HS1 & Hc1)];
      destruct Hcase2 as [(H2 & -> & _)|(H2 & res2 & HS2 & Hc2)];
      cbn [Archive.seasonResults] in *;
      rewrite ?HS2, ?HS1;
      destruct (decide (y = 2025)) as [->|Hy5];
      rewrite ?lookup_insert_eq;
      rewrite ?lookup_insert_ne by done;
      try (destruct (decide (y = 2024)) as [->|Hy4];
           rewrite ?lookup_insert_eq;
           rewrite ?lookup_insert_ne by done);
      rewrite ?lookup_empty; cbn [fmap option_fmap option_map];
      case_bool_decide as Hd; try done; try congruence;
      try (exfalso; destruct Hd as [Hd1 Hd2]; apply Hin in Hd1; lia);
      try (exfalso; apply Hd; split; [apply Hin; tauto|lia]).
  - intros H0. destruct Hcase1 as [(_ & -> & ->)|(H1 & _)]; [|lia].
    by rewrite Hrun2.
  - intros H0. destruct Hcase2 as [(_ & -> & ->)|(H2 & _)]; [|lia]. done.
Qed.

(** The site has no export for 2024: the season is passed over and
    2025 is imported. *)
Example archive_import_one_season_down :
  let w := mkWorld emptyStore 0 [] only2025 in
  let r := fst (Archive.importSeasons w) in
  fetched 2024 w = 0
  /\ (Archive.totalImported <$> match r with Returned a => Some a | Threw _ => None end)
     = Some 2
  /\ row_mlbId <$> Player (store (snd (Archive.importSeasons w)))
     = [js "mlb-592450"].
Proof. vm_compute. repeat split; reflexivity. Qed.

(* ===================================================================== *)
(** ** The service layer: look up, then write *)
(* ===================================================================== *)

(** X17.  On a store that satisfies the schema's key constraints,
    [playerDb.upsert] throws only when a request to the storage service
    fails: its look-up and the write that follows never trip over the
    unique key or over the demand for a single row.  When it returns,
    the row it returns is on record under the external id asked for,
    and the key constraints still hold. *)
Theorem playerDb_upsert_fails_only_on_fault m c u (w : World Store) :
  wf_store (store w) -> c_mlbId c = m ->
  match playerDb.upsert m c u w with
  | (Returned r, w') =>
      r ∈ Player (store w') /\ row_mlbId r = m
      /\ wf_store (store w') /\ pending w' = pending w
  | (Threw _, w') =>
      wf_store (store w') /\ pending w' + 1 = pending w
  end.
Proof.
  intros Hwf Hc.
  pose proof (triple_upsert m c u (pending w) (fun _ => False) Hc w) as H.
  assert (Hsteady : steady (pending w) (fun _ => False) w).
  { split; [done|]. split; [done|]. intros ? []. }
  destruct (playerDb.upsert m c u w) as [[r|e] w'].
  - destruct (H Hsteady) as [(Hwf' & Hp & _) [Hr Hm]]. done.
  - destruct (H Hsteady) as (Hwf' & Hp & _). done.
Qed.

Lemma playerDb_upsert_fails_only_on_fault_witness :
  match playerDb.upsert (mlbId judge) (seedCreate 0 judge) (seedPatch 0 judge)
          (quietWorld storeWithJudge) with
  | (Returned r, w') =>
      r ∈ Player (store w') /\ row_mlbId r = mlbId judge
      /\ wf_store (store w') /\ pending w' = pending (quietWorld storeWithJudge)
  | (Threw _, w') =>
      wf_store (store w') /\ pending w' + 1 = pending (quietWorld storeWithJudge)
  end.
Proof.
  apply (playerDb_upsert_fails_only_on_fault (mlbId judge) (seedCreate 0 judge)
           (seedPatch 0 judge) (quietWorld storeWithJudge)).
  - split; [apply NoDup_singleton|]. split; [apply NoDup_singleton|].
    apply Forall_singleton. cbn. lia.
  - reflexivity.
Defined.

(* ===================================================================== *)
(** ** The CSV fetcher: the header row *)
(* ===================================================================== *)

Lemma csvLines_first h rest :
  forallb (fun c => negb (c =? LF)%N) h = true ->
  Csv.csvLines (h ++ LF :: rest) =
    if truthy (trim h) then h :: Csv.csvLines rest else Csv.csvLines rest.
Proof.
  intros Hh. unfold Csv.csvLines.
  rewrite (split_unsplit LF h rest Hh), filter_cons.
  destruct (truthy (trim h)); by destruct (decide _).
Qed.

(** X18.  The first line of the export that is not blank is taken for
    the header and yields no record, whatever it holds, a well-formed
    data row included; blank lines before it are passed over, and the
    lines after it are all offered to the line pattern. *)
Theorem parseCsv_skips_first_line h rest :
  forallb (fun c => negb (c =? LF)%N) h = true ->
  Csv.parseCsv (h ++ LF :: rest) =
    if truthy (trim h) then omap Csv.parseLine (Csv.csvLines rest)
    else Csv.parseCsv rest.
Proof.
  intros Hh. unfold Csv.parseCsv. rewrite (csvLines_first h rest Hh).
  by destruct (truthy (trim h)).
Qed.

Lemma parseCsv_skips_first_line_witness :
  Csv.parseCsv (csvRow "Judge, Aaron" ",592450,2025,58" ++ LF
                  :: csvRow "Soto, Juan" ",665742,2025,41") =
    if truthy (trim (csvRow "Judge, Aaron" ",592450,2025,58"))
    then omap Csv.parseLine (Csv.csvLines (csvRow "Soto, Juan" ",665742,2025,41"))
    else Csv.parseCsv (csvRow "Soto, Juan" ",665742,2025,41").
Proof.
  apply parseCsv_skips_first_line. reflexivity.
Defined.

(* ===================================================================== *)
(** ** The season import, run again *)
(* ===================================================================== *)

(** What a run leaves when every request is served: under each key the
    counts of the last row that resolves to it, and what was there
    under every other key. *)
Lemma served_import_counts lower l : forall c (w : World Prisma.Store),
  pending w = 0 ->
  exists c' w',
    forOf l c (Import2025.importOne lower) w = (Returned c', w')
    /\ pending w' = 0
    /\ Prisma.Player (store w') = Prisma.Player (store w)
    /\ forall k,
         counts <$> Prisma.PlayerStats (store w') !! k
         = match lastWritten lower (Prisma.Player (store w)) l k with
           | Some hr => Some (hr, hr, 0)
           | None => counts <$> Prisma.PlayerStats (store w) !! k
           end.
Proof.
  induction l as [|p l IH]; intros c w Hp0.
  - by exists c, w.
  - cbn [forOf]. unfold bind.
    destruct (importOne_cases lower c p w) as (c1 & w1 & -> & _ & HP1 & Hcase).
    pose proof (pending_nonneg w1) as Hn1.
    assert (Hp1 : pending w1 = 0).
    { destruct (List.find _ _).
      - destruct Hcase as [(_ & Hp & _)|(row & _ & _ & [[_ Hp]|[_ Hp]])]; lia.
      - destruct Hcase as [_ [[_ Hp]|[_ Hp]]]; lia. }
    destruct (IH c1 w1 Hp1) as (c' & w' & -> & Hp' & HP' & Hk).
    exists c', w'. split; [done|]. split; [done|]. split; [congruence|].
    intros k. rewrite Hk, HP1. cbn [lastWritten].
    destruct (lastWritten lower (Prisma.Player (store w)) l k); [done|].
    destruct (List.find _ _) as [e|].
    + destruct Hcase as [(_ & Hp & _)|(row & HS & (Ht & Hr & Hpost) & _)]; [lia|].
      rewrite HS. case_bool_decide as Hkey.
      * subst k. rewrite lookup_insert_eq. cbn. unfold counts. congruence.
      * by rewrite lookup_insert_ne.
    + destruct Hcase as [-> _]. done.
Qed.

(** X19.  When the storage service answers every request, importing
    the same file a second time changes no count: after the second run
    every snapshot holds the same three counts as after the first, no
    snapshot has been added or removed, and the Player table is as it
    was before the first run. *)
Theorem import_twice_same_counts lower csvContent (w : World Prisma.Store) :
  faults w = [] ->
  exists c1 w1 c2 w2,
    Import2025.import2025Season lower csvContent w = (Returned c1, w1)
    /\ Import2025.import2025Season lower csvContent w1 = (Returned c2, w2)
    /\ Prisma.Player (store w2) = Prisma.Player (store w)
    /\ forall k,
         counts <$> Prisma.PlayerStats (store w2) !! k
         = counts <$> Prisma.PlayerStats (store w1) !! k.
Proof.
  intros Hf.
  assert (Hp0 : pending w = 0) by (unfold pending; by rewrite Hf).
  unfold Import2025.import2025Season.
  destruct (served_import_counts lower (Import2025.parseCSV csvContent)
              (Import2025.mkImportCounts 0 0 0 0) w Hp0)
    as (c1 & w1 & Hrun1 & Hp1 & HP1 & Hk1).
  destruct (served_import_counts lower (Import2025.parseCSV csvContent)
              (Import2025.mkImportCounts 0 0 0 0) w1 Hp1)
    as (c2 & w2 & Hrun2 & _ & HP2 & Hk2).
  exists c1, w1, c2, w2. split; [done|]. split; [done|].
  split; [congruence|].
  intros k. rewrite Hk2, HP1.
  specialize (Hk1 k).
  destruct (lastWritten lower (Prisma.Player (store w))
              (Import2025.parseCSV csvContent) k); by rewrite Hk1.
Qed.

Lemma import_twice_same_counts_witness :
  exists c1 w1 c2 w2,
    Import2025.import2025Season asciiLower csvTwoJudges (quietWorld archiveBefore)
      = (Returned c1, w1)
    /\ Import2025.import2025Season asciiLower csvTwoJudges w1 = (Returned c2, w2)
    /\ Prisma.Player (store w2) = Prisma.Player (store (quietWorld archiveBefore))
    /\ forall k,
         counts <$> Prisma.PlayerStats (store w2) !! k
         = counts <$> Prisma.PlayerStats (store w1) !! k.
Proof.
  apply (import_twice_same_counts asciiLower csvTwoJudges
           (quietWorld archiveBefore)).
  reflexivity.
Defined.

(* ===================================================================== *)
(** ** What the earlier resolver leaves alone, whatever fails *)
(* ===================================================================== *)

Lemma legacyTouched_trans l x y z :
  legacyTouched l x y -> legacyTouched l y z -> legacyTouched l x z.
Proof.
  intros [->|(I1 & M1 & S1 & C1 & p & Hp & Hm)]
         [->|(I2 & M2 & S2 & C2 & q & Hq & Hn)].
  - by left.
  - right. repeat split; try done. by exists q.
  - right. repeat split; try done. by exists p.
  - right. repeat split; try congruence. by exists p.
Qed.

Lemma legacyTouched_named l x y :
  legacyTouched l x y ->
  (exists p, p ∈ l /\ mlbId p = Prisma.l_mlbId x) ->
  exists p, p ∈ l /\ mlbId p = Prisma.l_mlbId y.
Proof.
  intros [->|(_ & M & _)] (p & Hp & Hm); exists p; split; try done.
  congruence.
Qed.

#[local] Instance legacyExtends_preorder l : PreOrder (legacyExtends l).
Proof.
  split.
  - intros s. split; [done|]. exists (Prisma.Player s), []. rewrite app_nil_r.
    repeat split; [|done]. apply Forall2_same_length_lookup.
    split; [done|]. intros i x y Hx Hy. left. congruence.
  - intros s1 s2 s3 (S1 & k1 & n1 & E1 & F1 & N1) (S2 & k2 & n2 & E2 & F2 & N2).
    split; [congruence|].
    rewrite E1 in F2.
    apply Forall2_app_inv_l in F2 as (k2a & k2b & Fa & Fb & ->).
    exists k2a, (k2b ++ n2). rewrite E2, <- app_assoc.
    repeat split.
    + eapply Forall2_trans; [|exact F1|exact Fa].
      intros x y z. apply legacyTouched_trans.
    + apply Forall_app. split; [|done].
      eapply Forall2_Forall_r; [exact Fb|].
      eapply Forall_impl; [exact N1|].
      intros x Hx y Hxy. by eapply legacyTouched_named.
Qed.

Lemma legacy_keeps_seedOne l yr c p :
  p ∈ l -> keeps (legacyExtends l) (Legacy.seedOne yr c p).
Proof.
  intros Hp. unfold Legacy.seedOne.
  apply keeps_tryCatch; [apply _| |intros e; apply keeps_ret; apply _].
  apply keeps_bind; [apply _|apply keeps_newDate; apply _|]. intros now.
  apply keeps_bind; [apply _| |].
  - unfold Prisma.player_upsert.
    apply keeps_bind; [apply _|apply keeps_newDate; apply _|]. intros now'.
    apply keeps_request; [apply _|]. intros s.
    destruct (List.find _ (Prisma.Player s)) as [e|] eqn:Hfind;
      cbn [snd]; (split; [done|]); cbn [Prisma.Player].
    + eexists _, []. rewrite app_nil_r. repeat split; [|done].
      apply Forall2_fmap_r, Forall2_same_length_lookup. split; [done|].
      intros i x y Hx Hy. assert (y = x) as -> by congruence.
      unfold compose. destruct (Prisma.hasMlbId (mlbId p) x) eqn:Hm; [|by left].
      right. unfold Prisma.hasMlbId in Hm. apply bool_decide_eq_true in Hm.
      repeat split; try done. by exists p.
    + eexists (Prisma.Player s), [_]. repeat split.
      * apply Forall2_same_length_lookup.
        split; [done|]. intros i x y Hx Hy. left. congruence.
      * apply Forall_singleton. exists p. by split.
  - intros result.
    apply keeps_bind; [apply _| |].
    + unfold Prisma.player_findUnique.
      apply keeps_request; [apply _|]. intros s. reflexivity.
    + intros [e|]; [destruct (_ =? _)|]; apply keeps_ret; apply _.
Qed.

(** X20.  Whatever failures the storage service produces, a run of the
    earlier resolver writes no snapshot and leaves every Player row in
    its place; a row whose external id no record carries is left
    exactly as it was, a row whose id a record carries keeps its id,
    external id, creation time and season year, even when the run is
    for another season, and every row the run adds carries the external
    id of a record. *)
Theorem legacy_seed_touches_only_fetched players yr (w : World Prisma.Store) :
  legacyExtends players (store w)
    (store (snd (Legacy.seedPlayersToDatabase players yr w))).
Proof.
  unfold Legacy.seedPlayersToDatabase.
  pose proof (keeps_forOf (legacyExtends players) (Legacy.seedOne yr) players)
    as Hloop.
  apply Hloop.
  apply Forall_forall. intros p Hp acc. by apply legacy_keeps_seedOne.
Qed.

(** Judge is on record for season 2025; seeding his 2024 line rewrites
    his home runs and leaves the season at 2025. *)
Example legacy_reseed_keeps_season :
  let w' := snd (Legacy.seedPlayersToDatabase [judge2024] 2024
                   (quietWorld legacyStoreWithJudge)) in
  (fun r => (Prisma.l_seasonYear r, Prisma.l_hrsPreviousSeason r))
    <$> Prisma.Player (store w') = [(2025, 37)].
Proof. vm_compute. reflexivity. Qed.

(* ===================================================================== *)
(** ** The CSV file of the import scripts: well-formed lines *)
(* ===================================================================== *)

Lemma trimmed_head s :
  trimmed s -> match s with c :: _ => isWhiteSpace c = false | [] => True end.
Proof. intros H. rewrite <- H. apply trim_ends. Qed.

Lemma trim_fixed s :
  match s with c :: _ => isWhiteSpace c = false | [] => True end ->
  match rev s with c :: _ => isWhiteSpace c = false | [] => True end ->
  trim s = s.
Proof.
  intros Hhead Hlast. unfold trim, trimStart.
  rewrite (dropWhile_fixed _ _ Hhead), (dropWhile_fixed _ _ Hlast).
  apply rev_involutive.
Qed.

Lemma number_last s :
  isNumber s = true ->
  exists c r, rev s = c :: r /\ isDigit c = true.
Proof.
  unfold isNumber. intros H. apply andb_true_iff in H as [Hne Hs].
  destruct (rev s) as [|c r] eqn:E.
  - apply (f_equal (@rev N)) in E. rewrite rev_involutive in E.
    subst s. discriminate.
  - exists c, r. split; [done|].
    apply (proj1 (forallb_forall _ _) Hs), in_rev. rewrite E. by left.
Qed.

(** X21.  A line [name,team,hr] of the CSV file whose name and team
    are not empty, hold no comma and carry no white space at either
    end, and whose third field is a run of digits (small enough for a
    double to hold the number exactly), is parsed into the player with
    that name, that team and the number the digits write when that
    number reaches 10, and into no player otherwise. *)
Theorem parseCsvLine_fields playerName team hr :
  playerName <> [] -> team <> [] ->
  forallb (fun c => negb (c =? COMMA)%N) playerName = true ->
  forallb (fun c => negb (c =? COMMA)%N) team = true ->
  trimmed playerName -> trimmed team ->
  isNumber hr = true -> decimalValue hr < 2 ^ 53 ->
  Import2025.parseCsvLine (csvFileLine playerName team hr)
  = if 10 <=? decimalValue hr
    then Some (Import2025.mkCSVPlayer playerName team (decimalValue hr))
    else None.
Proof.
  intros Hname Hteam Kname Kteam Tname Tteam Hhr _.
  unfold Import2025.parseCsvLine, csvFileLine.
  assert (Hline : trim (playerName ++ [COMMA] ++ team ++ [COMMA] ++ hr)
                  = playerName ++ [COMMA] ++ team ++ [COMMA] ++ hr).
  { apply trim_fixed.
    - pose proof (trimmed_head _ Tname) as Hh.
      destruct playerName as [|c n]; [done|]. exact Hh.
    - destruct (number_last _ Hhr) as (c & r & E & Hc).
      rewrite !rev_app_distr, E. cbn. by apply digit_not_space. }
  rewrite Hline.
  destruct playerName as [|c n] eqn:En; [done|]. rewrite <- En in *.
  assert (Htruthy : truthy (playerName ++ [COMMA] ++ team ++ [COMMA] ++ hr) = true)
    by (rewrite En; reflexivity).
  rewrite Htruthy.
  cbn [app].
  rewrite (split_unsplit COMMA playerName _ Kname).
  rewrite (split_unsplit COMMA team _ Kteam).
  assert (Khr : forallb (fun c => negb (c =? COMMA)%N) hr = true).
  { unfold isNumber in Hhr. apply andb_true_iff in Hhr as [_ Hd].
    apply forallb_forall. intros x Hx.
    pose proof (proj1 (forallb_forall _ _) Hd x Hx) as Hdx.
    apply negb_true_iff, N.eqb_neq. intros ->. discriminate. }
  rewrite (split_whole COMMA hr Khr).
  cbn [lookup list_lookup default]. unfold id.
  destruct (parseInt_number _ Hhr) as [-> _].
  rewrite Tname, Tteam.
  assert (truthy playerName = true) as -> by (rewrite En; reflexivity).
  assert (truthy team = true) as -> by (by destruct team).
  reflexivity.
Qed.

Lemma parseCsvLine_fields_witness :
  Import2025.parseCsvLine (csvFileLine (js "Aaron Judge") (js "NYY") (js "58"))
  = if 10 <=? decimalValue (js "58")
    then Some (Import2025.mkCSVPlayer (js "Aaron Judge") (js "NYY")
                 (decimalValue (js "58")))
    else None.
Proof.
  apply parseCsvLine_fields; try reflexivity; discriminate.
Defined.

(* ===================================================================== *)
(** ** Source fetcher: what a fetch returns, and when it fails *)
(* ===================================================================== *)

(** The spec's sentence on parse failures, as it stands, fails: the
    fetcher has no parse failure.  A body cut in the middle of its
    second row is answered with the first record alone, as a success,
    where the whole body gives two records; and an error page sent as
    text is answered with the empty list, as a success. *)
Lemma scrape_returns_partial_list :
  scrapePlayerStats 2025 (servingWorld wholeBody)
  = (Returned [judge; soto], servingWorld wholeBody)
  /\ scrapePlayerStats 2025 (servingWorld cutBody)
     = (Returned [judge], servingWorld cutBody)
  /\ scrapePlayerStats 2025 (servingWorld errorPage)
     = (Returned [], servingWorld errorPage)
  /\ [judge] <> [judge; soto].
Proof.
  split; [|split; [|split]]; [| | |discriminate].
  - rewrite (scrape_text 2025 (servingWorld wholeBody) wholeBody eq_refl).
    repeat f_equal; vm_compute; reflexivity.
  - rewrite (scrape_text 2025 (servingWorld cutBody) cutBody eq_refl).
    repeat f_equal; vm_compute; reflexivity.
  - rewrite (scrape_text 2025 (servingWorld errorPage) errorPage eq_refl).
    repeat f_equal; vm_compute; reflexivity.
Qed.

Lemma forallb_weaken (f g : N -> bool) s :
  (forall c, f c = true -> g c = true) ->
  forallb f s = true -> forallb g s = true.
Proof.
  intros Hfg Hs. apply forallb_forall. intros c Hc.
  apply Hfg. by apply (proj1 (forallb_forall _ _) Hs).
Qed.

Lemma number_notLF s : isNumber s = true -> forallb notLF s = true.
Proof.
  unfold isNumber. intros H. apply andb_true_iff in H as [_ Hs].
  eapply forallb_weaken; [|exact Hs].
  intros c Hc. each_digit c Hc; reflexivity.
Qed.

(** A well-formed row is written on one line, which is not blank. *)
Lemma rowLine_one_line x :
  wellFormedRow x ->
  forallb notLF (rowLine x) = true /\ truthy (trim (rowLine x)) = true.
Proof.
  intros (_ & _ & Llast & Lfirst & _ & _ & Hpid & Hyr & Hhr & _).
  split.
  - unfold rowLine, exportLine. rewrite !forallb_app.
    rewrite Llast, Lfirst, (number_notLF _ Hpid), (number_notLF _ Hyr),
      (number_notLF _ Hhr). reflexivity.
  - unfold rowLine, exportLine. cbn [app].
    destruct (trim_keeps_head QUOTE
                (x_lastName x ++ [COMMA; SPACE] ++ x_firstName x ++ [QUOTE]
                 ++ [COMMA] ++ x_playerId x ++ [COMMA] ++ x_year x
                 ++ [COMMA] ++ x_homeRuns x) eq_refl) as [t Ht].
    cbn [app] in Ht. by rewrite Ht.
Qed.

(** The loop body on the line of a well-formed row. *)
Lemma parseLine_row x :
  wellFormedRow x -> Csv.parseLine (rowLine x) = recordOf x.
Proof.
  intros (Hlast & Hfirst & _ & _ & Tlast & Tfirst & Hpid & Hyr & Hhr & _).
  destruct (plain_parts _ Hlast) as [Qlast Klast].
  destruct (plain_parts _ Hfirst) as [Qfirst Kfirst].
  unfold Csv.parseLine, rowLine, recordOf.
  rewrite <- (app_nil_r (exportLine _ _ _ _ _)), exportLine_shape.
  rewrite regexMatch_cons, matchHere_fields; try done.
  - cbn [Csv.homeRunsStr Csv.fullName Csv.playerId].
    destruct (parseInt_number _ Hhr) as [-> _].
    rewrite (split_unsplit COMMA (x_lastName x) (SPACE :: x_firstName x) Klast).
    rewrite (split_whole COMMA (SPACE :: x_firstName x)) by exact Kfirst.
    cbn [fmap list_fmap]. rewrite trim_after_space, Tlast, Tfirst.
    reflexivity.
  - by destruct (x_lastName x).
  - rewrite forallb_app. cbn. by rewrite Qlast, Qfirst.
Qed.

Lemma csvLines_rows rows :
  Forall wellFormedRow rows ->
  Csv.csvLines (concat ((fun x => rowLine x ++ [LF]) <$> rows))
  = rowLine <$> rows.
Proof.
  induction 1 as [|x rows Hx _ IH]; [reflexivity|].
  destruct (rowLine_one_line x Hx) as [Hline Hnonblank].
  cbn [fmap list_fmap concat]. rewrite <- app_assoc. cbn [app].
  rewrite (csvLines_first _ _ Hline), Hnonblank.
  cbn [fmap list_fmap] in IH. by rewrite IH.
Qed.

(** From a well-formed export the parser reads the full list: one
    record per row that reaches 10 home runs, in the order of the
    rows. *)
Lemma parseCsv_exportBody hdr rows :
  forallb notLF hdr = true -> truthy (trim hdr) = true ->
  Forall wellFormedRow rows ->
  Csv.parseCsv (exportBody hdr rows) = omap recordOf rows.
Proof.
  intros Hhdr Hnonblank Hrows. unfold Csv.parseCsv, exportBody. cbn [app].
  rewrite (csvLines_first _ _ Hhdr), Hnonblank, (csvLines_rows _ Hrows).
  change (drop 1 (hdr :: (rowLine <$> rows))) with (rowLine <$> rows).
  induction Hrows as [|x rows Hx _ IH]; [reflexivity|].
  change (omap Csv.parseLine (rowLine <$> x :: rows))
    with (match Csv.parseLine (rowLine x) with
          | Some y => y :: omap Csv.parseLine (rowLine <$> rows)
          | None => omap Csv.parseLine (rowLine <$> rows)
          end).
  change (omap recordOf (x :: rows))
    with (match recordOf x with
          | Some y => y :: omap recordOf rows
          | None => omap recordOf rows
          end).
  by rewrite (parseLine_row x Hx), IH.
Qed.

(** C5, amended.  A fetch never touches the world, store included.  In
    the CSV version its outcome is decided by the reply alone: it
    throws [Failed to scrape player data: ...], and returns no list,
    exactly when the request is rejected or the body is not text; from
    any text body it returns, as a success, the records of the lines
    after the header that match the line pattern with at least 10 home
    runs, in source order, the other lines being passed over in
    silence.  When the body is a well-formed export, that is the full
    list: one normalized record for each row that reaches 10 home runs.
    The page version throws exactly when the request is rejected or
    cheerio throws, and otherwise returns the records of the rows
    cheerio finds. *)
Theorem scrape_all_or_error {S} cheerioRows toLowerCase year (w : World S)
    hdr rows :
  forallb notLF hdr = true -> truthy (trim hdr) = true ->
  Forall wellFormedRow rows ->
  scrapePlayerStats year w =
    (match upstream w (csvUrl year) with
     | Rejected e =>
         Threw (scrapeFailure match e with
                              | ErrorObj m => m
                              | NonError => js "Unknown error"
                              end)
     | Resolved (OtherData msg) => Threw (scrapeFailure msg)
     | Resolved (TextData body) =>
         Returned (omap Csv.parseLine (drop 1 (Csv.csvLines body)))
     end, w)
  /\ (upstream w (csvUrl year) = Resolved (TextData (exportBody hdr rows)) ->
      scrapePlayerStats year w = (Returned (omap recordOf rows), w))
  /\ Legacy.scrapePlayerStats cheerioRows toLowerCase year w =
       (match upstream w (pageUrl year) with
        | Rejected e =>
            Threw (scrapeFailure match e with
                                 | ErrorObj m => m
                                 | NonError => js "Unknown error"
                                 end)
        | Resolved d =>
            match cheerioRows d with
            | Returned found =>
                Returned (omap id (imap (Legacy.parseRow toLowerCase) found))
            | Threw e =>
                Threw (scrapeFailure match e with
                                     | ErrorObj m => m
                                     | NonError => js "Unknown error"
                                     end)
            end
        end, w).
Proof.
  intros Hhdr Hnonblank Hrows. split; [|split].
  - destruct (upstream w (csvUrl year)) as [e | [body | msg]] eqn:Hup.
    + by apply scrape_rejected.
    + by apply scrape_text.
    + by apply scrape_other.
  - intros Hup. rewrite (scrape_text _ _ _ Hup).
    by rewrite parseCsv_exportBody.
  - rewrite legacy_scrape_cases.
    destruct (upstream w (pageUrl year)) as [e | d]; [reflexivity|].
    by destruct (cheerioRows d).
Qed.

Lemma scrape_all_or_error_witness :
  scrapePlayerStats 2025 dupWorld =
    (match upstream dupWorld (csvUrl 2025) with
     | Rejected e =>
         Threw (scrapeFailure match e with
                              | ErrorObj m => m
                              | NonError => js "Unknown error"
                              end)
     | Resolved (OtherData msg) => Threw (scrapeFailure msg)
     | Resolved (TextData body) =>
         Returned (omap Csv.parseLine (drop 1 (Csv.csvLines body)))
     end, dupWorld)
  /\ (upstream dupWorld (csvUrl 2025)
      = Resolved (TextData (exportBody header dupRows)) ->
      scrapePlayerStats 2025 dupWorld
      = (Returned (omap recordOf dupRows), dupWorld))
  /\ Legacy.scrapePlayerStats noRows asciiLower 2025 dupWorld =
       (match upstream dupWorld (pageUrl 2025) with
        | Rejected e =>
            Threw (scrapeFailure match e with
                                 | ErrorObj m => m
                                 | NonError => js "Unknown error"
                                 end)
        | Resolved d =>
            match noRows d with
            | Returned found =>
                Returned (omap id (imap (Legacy.parseRow asciiLower) found))
            | Threw e =>
                Threw (scrapeFailure match e with
                                     | ErrorObj m => m
                                     | NonError => js "Unknown error"
                                     end)
            end
        end, dupWorld).
Proof.
  apply (scrape_all_or_error noRows asciiLower 2025 dupWorld header dupRows).
  - reflexivity.
  - reflexivity.
  - repeat constructor.
Defined.

(** The sample export is the export of its rows, and the fetch reads
    the two rows that reach 10 home runs. *)
Example scrape_reads_sample_export :
  dupBody = exportBody header dupRows
  /\ omap recordOf dupRows = [judge; judge60].
Proof. split; vm_compute; reflexivity. Qed.
